(** * csim.c : an LRU set-associative cache simulator

    A shallow embedding of [src/csim.c] and the properties of its
    address decoding, hit / fill / evict paths and counters.

    The C globals [s], [E], [b], the three counters and the heap object
    [cache] form the record [state].  The globals [S] and [B] are
    recomputed at the top of every [accessData] call before they are
    read, so they appear as let-bound values.  [int] is a 32-bit
    two's-complement integer whose arithmetic wraps ([wrap_int]);
    [mem_addr_t] is a 64-bit unsigned integer.  Operations C leaves
    without a result (a shift count outside [0,32), a division by
    zero, a read outside an array) yield [None].  A failed [malloc]
    ends the process before any access and is left out, as are the
    verbose printing and the parsing of the trace file. *)

From Stdlib Require Import ZArith Lia Ascii.
From stdpp Require Import base option list numbers.

#[local] Open Scope Z_scope.

(** ** Machine integers *)

Definition INT_MAX : Z := 2147483647.
Definition INT_MIN : Z := -2147483648.

(** Reduction of a mathematical integer into [int] (two's complement). *)
Definition wrap_int (z : Z) : Z := (z + 2 ^ 31) mod 2 ^ 32 - 2 ^ 31.

(** Conversion of an [int] to [unsigned long long]. *)
Definition to_ull (z : Z) : Z := z mod 2 ^ 64.

(** [x << n] on [int]. *)
Definition shl_int (x n : Z) : option Z :=
  if (0 <=? n) && (n <? 32) then Some (wrap_int (x * 2 ^ n)) else None.

(** [a / d] and [a % d] on [unsigned long long]. *)
Definition udiv (a d : Z) : option Z :=
  if d =? 0 then None else Some (a / d).

Definition umod (a d : Z) : option Z :=
  if d =? 0 then None else Some (a mod d).

(** ** Data *)

Record cache_line_t : Type := mkLine {
  valid : ascii;
  tag : Z;
  count : Z
}.

Abbreviation cache_set_t := (list cache_line_t).
Abbreviation cache_t := (list cache_set_t).

Record state : Type := mkState {
  s : Z;
  E : Z;
  b : Z;
  hit_cnt : Z;
  miss_cnt : Z;
  evict_cnt : Z;
  cache : cache_t
}.

(** ** initCache (lines 76-97) *)

(** A line as [initCache] writes it: flag ['0'], tag 0, count 0. *)
Definition empty_line : cache_line_t :=
  {| valid := "0"; tag := 0; count := 0 |}.

(** [S] sets of [E] such lines; the counters start at 0. *)
Definition initCache (s0 E0 b0 : Z) : option state :=
  S0 ← shl_int 2 (s0 - 1);
  Some {| s := s0; E := E0; b := b0;
          hit_cnt := 0; miss_cnt := 0; evict_cnt := 0;
          cache := replicate (Z.to_nat S0)
                     (replicate (Z.to_nat E0) empty_line) |}.

(** ** accessData (lines 117-194) *)

(** Lines 121-124: the tag and the set number of an address. *)
Definition decode (s0 b0 addr : Z) : option (Z * Z) :=
  S0 ← shl_int 2 (s0 - 1);
  B0 ← shl_int 2 (b0 - 1);
  addrTag ← udiv addr (to_ull (wrap_int (B0 * S0)));
  q ← udiv addr (to_ull B0);
  setNum ← umod q (to_ull S0);
  Some (addrTag, setNum).

(** Lines 131-138: the largest and the smallest count of the set. *)
Fixpoint scan_recent (n i : nat) (ls : cache_set_t) (mostRecent leastRecent : Z)
  : option (Z * Z) :=
  match n with
  | O => Some (mostRecent, leastRecent)
  | S n' =>
      ln ← ls !! i;
      let mostRecent' :=
        if mostRecent <? count ln then count ln else mostRecent in
      let leastRecent' :=
        if leastRecent >? count ln then count ln else leastRecent in
      scan_recent n' (S i) ls mostRecent' leastRecent'
  end.

(** Lines 149-153 and 170-174: lower [leastRecent] to the smallest count. *)
Fixpoint rescan_least (n t : nat) (ls : cache_set_t) (leastRecent : Z)
  : option Z :=
  match n with
  | O => Some leastRecent
  | S n' =>
      ln ← ls !! t;
      rescan_least n' (S t) ls
        (if leastRecent >? count ln then count ln else leastRecent)
  end.

(** The locals and globals the three loops of [accessData] work on. *)
Record frame : Type := mkFrame {
  lines : cache_set_t;
  found : bool;
  mostRecent : Z;
  leastRecent : Z;
  hits : Z;
  evicts : Z
}.

(** Lines 141-155: the hit loop; it has no [break]. *)
Fixpoint hit_loop (n i : nat) (nE : nat) (addrTag : Z) (f : frame)
  : option frame :=
  match n with
  | O => Some f
  | S n' =>
      ln ← lines f !! i;
      if (tag ln =? addrTag) && Ascii.eqb (valid ln) "1" then
        let ls' :=
          <[i := {| valid := valid ln; tag := tag ln;
                    count := wrap_int (mostRecent f + 1) |}]> (lines f) in
        lr ← rescan_least nE 0 ls' (wrap_int (leastRecent f + 1));
        hit_loop n' (S i) nE addrTag
          {| lines := ls'; found := true;
             mostRecent := wrap_int (mostRecent f + 1);
             leastRecent := lr;
             hits := wrap_int (hits f + 1);
             evicts := evicts f |}
      else hit_loop n' (S i) nE addrTag f
  end.

(** Lines 162-177: fill the first line whose valid flag is ['0']. *)
Fixpoint fill_loop (n j : nat) (nE : nat) (addrTag : Z) (f : frame)
  : option frame :=
  match n with
  | O => Some f
  | S n' =>
      ln ← lines f !! j;
      if Ascii.eqb (valid ln) "0" then
        let ls' :=
          <[j := {| valid := "1"; tag := addrTag;
                    count := wrap_int (mostRecent f + 1) |}]> (lines f) in
        lr ← rescan_least nE 0 ls' (wrap_int (leastRecent f + 1));
        Some {| lines := ls'; found := true;
                mostRecent := wrap_int (mostRecent f + 1);
                leastRecent := lr;
                hits := hits f;
                evicts := evicts f |}
      else fill_loop n' (S j) nE addrTag f
  end.

(** Lines 181-191: replace the first line whose count is [leastRecent]. *)
Fixpoint evict_loop (n m : nat) (addrTag : Z) (f : frame) : option frame :=
  match n with
  | O => Some f
  | S n' =>
      ln ← lines f !! m;
      if count ln =? leastRecent f then
        Some {| lines :=
                  <[m := {| valid := valid ln; tag := addrTag;
                            count := wrap_int (mostRecent f + 1) |}]> (lines f);
                found := true;
                mostRecent := wrap_int (mostRecent f + 1);
                leastRecent := wrap_int (leastRecent f + 1);
                hits := hits f;
                evicts := wrap_int (evicts f + 1) |}
      else evict_loop n' (S m) addrTag f
  end.

(** The state after the call, from the frame the loops ended in. *)
Definition commit (st : state) (setNum : Z) (misses : Z) (f : frame) : state :=
  {| s := s st; E := E st; b := b st;
     hit_cnt := hits f; miss_cnt := misses; evict_cnt := evicts f;
     cache := <[Z.to_nat setNum := lines f]> (cache st) |}.

(** Lines 117-194.  The set is read at [cache + setNum]; its line 0
    gives the first [mostRecent] and [leastRecent] (lines 129-130). *)
Definition accessData (addr : Z) (st : state) : option state :=
  '(addrTag, setNum) ← decode (s st) (b st) addr;
  ls ← cache st !! Z.to_nat setNum;
  l0 ← ls !! 0%nat;
  '(mr, lr) ← scan_recent (Z.to_nat (E st)) 0 ls (count l0) (count l0);
  let nE := Z.to_nat (E st) in
  f1 ← hit_loop nE 0 nE addrTag
         {| lines := ls; found := false; mostRecent := mr; leastRecent := lr;
            hits := hit_cnt st; evicts := evict_cnt st |};
  if found f1 then Some (commit st setNum (miss_cnt st) f1)
  else
    let misses := wrap_int (miss_cnt st + 1) in
    f2 ← fill_loop nE 0 nE addrTag f1;
    if found f2 then Some (commit st setNum misses f2)
    else
      f3 ← evict_loop nE 0 addrTag f2;
      Some (commit st setNum misses f3).

(** ** replayTrace (lines 214-233)

    The trace file is parsed outside the model; a parsed line is an
    operation letter and an address. *)

Inductive op : Type := Load | Store | Modify | InstructionFetch.

Abbreviation event := (op * Z)%type.

(** Lines 222-229: [S] and [L] call [accessData] once, [M] twice with
    the same address; any other line is skipped. *)
Definition replay_event (ev : event) (st : state) : option state :=
  match ev.1 with
  | Load | Store => accessData ev.2 st
  | Modify => st1 ← accessData ev.2 st; accessData ev.2 st1
  | InstructionFetch => Some st
  end.

Fixpoint replayTrace (tr : list event) (st : state) : option state :=
  match tr with
  | [] => Some st
  | ev :: tr' => st1 ← replay_event ev st; replayTrace tr' st1
  end.

(** ** Notions used in the statements *)

(** The largest and smallest count of a set, read left to right. *)
Definition max_from (m : Z) (ls : cache_set_t) : Z :=
  foldl (fun a ln => Z.max a (count ln)) m ls.

Definition min_from (m : Z) (ls : cache_set_t) : Z :=
  foldl (fun a ln => Z.min a (count ln)) m ls.

Definition set_max (ls : cache_set_t) : Z :=
  match ls with
  | [] => 0
  | l0 :: _ => max_from (count l0) ls
  end.

Definition set_min (ls : cache_set_t) : Z :=
  match ls with
  | [] => 0
  | l0 :: _ => min_from (count l0) ls
  end.

(** A line holds the tag [t]: it is valid and carries [t]. *)
Definition holds (t : Z) (ln : cache_line_t) : Prop :=
  tag ln = t /\ valid ln = "1"%char.

Definition holdsb (t : Z) (ln : cache_line_t) : bool :=
  (tag ln =? t) && Ascii.eqb (valid ln) "1".

(** The geometries whose sizes fit [int]: [B * S = 2 ^ (s + b)] must
    stay below [2 ^ 31]. *)
Definition valid_geometry (s0 E0 b0 : Z) : Prop :=
  1 <= s0 /\ 1 <= b0 /\ s0 + b0 <= 30 /\ 1 <= E0.

(** The geometries on which [accessData] divides by something other
    than 0: [S] and [B] fit [int], and [B * S] reduced to [int] is
    [2 ^ (s + b)] or, for [s + b = 31], [INT_MIN]. *)
Definition runs_geometry (s0 E0 b0 : Z) : Prop :=
  1 <= s0 /\ 1 <= b0 /\ s0 + b0 <= 31 /\ 1 <= E0.

(** States the simulator reaches: [reach n st] after [n] calls of
    [accessData] on a cache built by [initCache].  [main] goes on to
    [initCache] when [s], [E] and [b] are not 0 (line 301); with
    [E < 0] the size asked of [malloc] for a set is above [2 ^ 63] and
    [initCache] ends the process (lines 85-89), so a cache is built
    only for [0 < E]. *)
Inductive reach : Z -> state -> Prop :=
| reach_init s0 E0 b0 st :
    s0 <> 0 -> b0 <> 0 -> 0 < E0 ->
    initCache s0 E0 b0 = Some st ->
    reach 0 st
| reach_step n st addr st' :
    reach n st ->
    0 <= addr < 2 ^ 64 ->
    accessData addr st = Some st' ->
    reach (n + 1) st'.

Definition reachable (st : state) : Prop := exists n, reach n st.

Definition is_op (o : op) (ev : event) : bool :=
  match o, ev.1 with
  | Load, Load | Store, Store | Modify, Modify
  | InstructionFetch, InstructionFetch => true
  | _, _ => false
  end.

(** The number of events of kind [o] in a trace. *)
Fixpoint count_op (o : op) (tr : list event) : Z :=
  match tr with
  | [] => 0
  | ev :: tr' => (if is_op o ev then 1 else 0) + count_op o tr'
  end.

(** The number of [accessData] calls a trace makes. *)
Definition accesses (tr : list event) : Z :=
  count_op Load tr + count_op Store tr + 2 * count_op Modify tr.

Definition addr_ok (ev : event) : Prop := 0 <= ev.2 < 2 ^ 64.

(** A call that counted one hit and nothing else. *)
Definition hit_call (st st' : state) : Prop :=
  hit_cnt st' = wrap_int (hit_cnt st + 1) /\
  miss_cnt st' = miss_cnt st /\
  evict_cnt st' = evict_cnt st.

(** A call that counted one miss, at most one eviction and no hit. *)
Definition miss_call (st st' : state) : Prop :=
  hit_cnt st' = hit_cnt st /\
  miss_cnt st' = wrap_int (miss_cnt st + 1) /\
  (evict_cnt st' = evict_cnt st \/
   evict_cnt st' = wrap_int (evict_cnt st + 1)).

(** ** The three outcomes of an access *)

(** The state after a hit on line [k] (which was [ln]) of set [setNum]. *)
Definition st_hit (st : state) (setNum : Z) (ls : cache_set_t) (k : nat)
    (ln : cache_line_t) : state :=
  {| s := s st; E := E st; b := b st;
     hit_cnt := wrap_int (hit_cnt st + 1);
     miss_cnt := miss_cnt st;
     evict_cnt := evict_cnt st;
     cache :=
       <[Z.to_nat setNum :=
           <[k := {| valid := valid ln; tag := tag ln;
                     count := wrap_int (set_max ls + 1) |}]> ls]> (cache st) |}.

(** The state after a miss that fills line [k] of set [setNum]. *)
Definition st_fill (st : state) (setNum : Z) (ls : cache_set_t) (k : nat)
    (t : Z) : state :=
  {| s := s st; E := E st; b := b st;
     hit_cnt := hit_cnt st;
     miss_cnt := wrap_int (miss_cnt st + 1);
     evict_cnt := evict_cnt st;
     cache :=
       <[Z.to_nat setNum :=
           <[k := {| valid := "1"; tag := t;
                     count := wrap_int (set_max ls + 1) |}]> ls]> (cache st) |}.

(** The state after a miss that replaces line [k] (which was [ln]). *)
Definition st_evict (st : state) (setNum : Z) (ls : cache_set_t) (k : nat)
    (ln : cache_line_t) (t : Z) : state :=
  {| s := s st; E := E st; b := b st;
     hit_cnt := hit_cnt st;
     miss_cnt := wrap_int (miss_cnt st + 1);
     evict_cnt := wrap_int (evict_cnt st + 1);
     cache :=
       <[Z.to_nat setNum :=
           <[k := {| valid := valid ln; tag := t;
                     count := wrap_int (set_max ls + 1) |}]> ls]> (cache st) |}.

(** What one call of [accessData] does, by cases on the decoded set. *)
Inductive outcome (st : state) (addr : Z) (st' : state) : Prop :=
| out_hit t setNum (ls : cache_set_t) k ln :
    decode (s st) (b st) addr = Some (t, setNum) ->
    cache st !! Z.to_nat setNum = Some ls ->
    ls !! k = Some ln ->
    holds t ln ->
    st' = st_hit st setNum ls k ln ->
    outcome st addr st'
| out_fill t setNum (ls : cache_set_t) k ln :
    decode (s st) (b st) addr = Some (t, setNum) ->
    cache st !! Z.to_nat setNum = Some ls ->
    (forall j ln', ls !! j = Some ln' -> ~ holds t ln') ->
    ls !! k = Some ln ->
    valid ln = "0"%char ->
    (forall j ln', (j < k)%nat -> ls !! j = Some ln' -> valid ln' = "1"%char) ->
    st' = st_fill st setNum ls k t ->
    outcome st addr st'
| out_evict t setNum (ls : cache_set_t) k ln :
    decode (s st) (b st) addr = Some (t, setNum) ->
    cache st !! Z.to_nat setNum = Some ls ->
    (forall j ln', ls !! j = Some ln' -> ~ holds t ln') ->
    (forall j ln', ls !! j = Some ln' -> valid ln' = "1"%char) ->
    ls !! k = Some ln ->
    count ln = set_min ls ->
    (forall j ln', (j < k)%nat -> ls !! j = Some ln' -> set_min ls < count ln') ->
    st' = st_evict st setNum ls k ln t ->
    outcome st addr st'.

(** The state after [m] further hits on line [k] (which was [ln]) of
    set [setNum], while no [int] overflows. *)
Definition st_hits (st : state) (setNum : Z) (ls : cache_set_t) (k : nat)
    (ln : cache_line_t) (m : Z) : state :=
  {| s := s st; E := E st; b := b st;
     hit_cnt := hit_cnt st + m;
     miss_cnt := miss_cnt st;
     evict_cnt := evict_cnt st;
     cache :=
       <[Z.to_nat setNum :=
           <[k := {| valid := valid ln; tag := tag ln;
                     count := set_max ls + m |}]> ls]> (cache st) |}.

(** ** Invariants of the reachable states *)

Definition is_int (z : Z) : Prop := INT_MIN <= z <= INT_MAX.

(** A set of [nE] lines whose flags are ['0'] or ['1'], whose valid
    lines carry pairwise different tags and whose counts are [int]s. *)
Definition wf_set (nE : Z) (ls : cache_set_t) : Prop :=
  length ls = Z.to_nat nE /\
  (forall j ln, ls !! j = Some ln ->
     valid ln = "0"%char \/ valid ln = "1"%char) /\
  (forall j k lj lk, ls !! j = Some lj -> ls !! k = Some lk ->
     valid lj = "1"%char -> valid lk = "1"%char -> tag lj = tag lk -> j = k) /\
  (forall j ln, ls !! j = Some ln -> INT_MIN <= count ln <= INT_MAX).

(** What every reachable state satisfies, whatever its geometry. *)
Definition wf_lines (st : state) : Prop :=
  0 < E st /\
  (forall i ls, cache st !! i = Some ls -> wf_set (E st) ls) /\
  (is_int (hit_cnt st) /\ is_int (miss_cnt st) /\ is_int (evict_cnt st)).

(** What the reachable states of a geometry on which the simulator
    runs satisfy. *)
Definition wf_state (st : state) : Prop :=
  runs_geometry (s st) (E st) (b st) /\
  length (cache st) = Z.to_nat (2 ^ s st) /\
  (forall i ls, cache st !! i = Some ls -> wf_set (E st) ls) /\
  (is_int (hit_cnt st) /\ is_int (miss_cnt st) /\ is_int (evict_cnt st)).

(** Counts between 0 and [n], pairwise different on valid lines. *)
Definition set_bounded (n : Z) (ls : cache_set_t) : Prop :=
  (forall j ln, ls !! j = Some ln -> 0 <= count ln <= n) /\
  (forall j k lj lk, ls !! j = Some lj -> ls !! k = Some lk ->
     valid lj = "1"%char -> valid lk = "1"%char ->
     count lj = count lk -> j = k).

Definition bounded (n : Z) (st : state) : Prop :=
  0 <= hit_cnt st /\ 0 <= miss_cnt st /\
  hit_cnt st + miss_cnt st = n /\
  0 <= evict_cnt st <= miss_cnt st /\
  (forall i ls, cache st !! i = Some ls -> set_bounded n ls).

(** ** Concrete states and traces *)

(** A cache of two sets ([s = 1], [b = 1]: addresses 0, 4, 8 fall in
    set 0 with tags 0, 1, 2; address 2 falls in set 1 with tag 0). *)
Definition two_sets (E0 h m e : Z) (set0 set1 : cache_set_t) : state :=
  {| s := 1; E := E0; b := 1;
     hit_cnt := h; miss_cnt := m; evict_cnt := e;
     cache := [set0; set1] |}.

Definition line (t c : Z) : cache_line_t :=
  {| valid := "1"; tag := t; count := c |}.

(** One line per set; address 0 was accessed [INT_MAX] times. *)
Definition st_one_line_top : state :=
  two_sets 1 (INT_MAX - 1) 1 0 [line 0 INT_MAX] [empty_line].

(** One line per set; address 0 was accessed [2 ^ 31] times. *)
Definition st_hits_top : state :=
  two_sets 1 INT_MAX 1 0 [line 0 INT_MIN] [empty_line].

(** Two lines per set; address 0 was accessed [INT_MAX] times. *)
Definition st_free_line_top : state :=
  two_sets 2 (INT_MAX - 1) 1 0 [line 0 INT_MAX; empty_line]
    [empty_line; empty_line].

(** Two lines per set; address 0 was accessed once, then address 4
    [INT_MAX - 1] times. *)
Definition st_two_lines_top : state :=
  two_sets 2 (INT_MAX - 2) 2 0 [line 0 1; line 1 INT_MAX]
    [empty_line; empty_line].

(** Three lines per set; addresses 4 and 8 were accessed once, then
    address 0 [INT_MAX - 2] times. *)
Definition st_three_lines_top : state :=
  two_sets 3 (INT_MAX - 3) 3 0 [line 1 1; line 2 2; line 0 INT_MAX]
    [empty_line; empty_line; empty_line].

(** The state of [st_three_lines_top] after a hit on address 4 and a
    hit on address 8. *)
Definition st_tie : state :=
  two_sets 3 (INT_MAX - 1) 3 0 [line 1 INT_MIN; line 2 INT_MIN; line 0 INT_MAX]
    [empty_line; empty_line; empty_line].

(** Two lines per set; addresses 0 and 4 were accessed. *)
Definition st_two_ways : state :=
  two_sets 2 0 2 0 [line 0 1; line 1 2] [empty_line; empty_line].

(** Two lines per set; addresses 0, 4 and again 0 were accessed: in
    set 0 the line of least count is line 1. *)
Definition st_two_ways_hit : state :=
  two_sets 2 1 2 0 [line 0 3; line 1 2] [empty_line; empty_line].

(** Three lines per set; address 0 was accessed: in set 0 the first
    free line is line 1. *)
Definition st_three_ways : state :=
  two_sets 3 0 1 0 [line 0 1; empty_line; empty_line]
    [empty_line; empty_line; empty_line].

(** One line per set; addresses 0, 4 and 8 were accessed: three misses
    and two evictions. *)
Definition st_evicted : state :=
  two_sets 1 0 3 2 [line 2 3] [empty_line].

(** A fresh cache with [s = 2], [b = 30]: both sizes fit [int], but
    [B * S = 2 ^ 32] is 0 as an [int]. *)
Definition st_zero_product : state :=
  {| s := 2; E := 1; b := 30;
     hit_cnt := 0; miss_cnt := 0; evict_cnt := 0;
     cache := replicate 4 [empty_line] |}.

(** One line per set; the accesses to addresses 0, 4, 8, ... fall in
    set 0 with tags 0, 1, 2, ...: each of them misses, and each but
    the first evicts. *)
Definition miss_trace (n : nat) : list event :=
  map (fun i : nat => (Load, 4 * Z.of_nat i)) (seq 0 n).

(** The state after the first [n] of these accesses, within [int]. *)
Definition miss_state (n : Z) : state :=
  two_sets 1 0 n (n - 1) [line (n - 1) n] [empty_line].

(** The state after [2 ^ 31] of these accesses. *)
Definition st_miss_wrap : state :=
  two_sets 1 0 INT_MIN INT_MAX [line INT_MAX INT_MIN] [empty_line].

(** ** Tactics *)

Ltac zconst := unfold INT_MAX, INT_MIN in *; cbn; lia.

Ltac by_eval := vm_compute; reflexivity.

Ltac by_le := vm_compute; congruence.

(** Cases on the members of a list given element by element. *)
Ltac members Hin :=
  repeat (apply elem_of_cons in Hin as [-> | Hin]);
  try (by inversion Hin).

(** ** Notions for the further properties *)

(** The line [j] of set [i]. *)
Definition line_at (st : state) (i j : nat) : option cache_line_t :=
  ls ← cache st !! i; ls !! j.

(** The addresses an event passes to [accessData], in order. *)
Definition addrs_of_event (ev : event) : list Z :=
  match ev.1 with
  | Load | Store => [ev.2]
  | Modify => [ev.2; ev.2]
  | InstructionFetch => []
  end.

Fixpoint addrs_of (tr : list event) : list Z :=
  match tr with
  | [] => []
  | ev :: tr' => addrs_of_event ev ++ addrs_of tr'
  end.

(** [accessData] on each address of a list, in order. *)
Fixpoint access_all (l : list Z) (st : state) : option state :=
  match l with
  | [] => Some st
  | A :: l' => st1 ← accessData A st; access_all l' st1
  end.

(** The (tag, set) pairs the addresses of a list decode to. *)
Definition touched (s0 b0 : Z) (l : list Z) : list (Z * Z) :=
  omap (decode s0 b0) l.

(** Every valid line carries a tag that pairs with its set in [seen]. *)
Definition tags_seen (seen : list (Z * Z)) (st : state) : Prop :=
  forall i j ln,
    line_at st i j = Some ln -> valid ln = "1"%char ->
    (tag ln, Z.of_nat i) ∈ seen.

(** The number of valid lines of a set, and of a cache. *)
Fixpoint valid_count (ls : cache_set_t) : Z :=
  match ls with
  | [] => 0
  | ln :: ls' => (if Ascii.eqb (valid ln) "1" then 1 else 0) + valid_count ls'
  end.

Fixpoint valid_total (c : cache_t) : Z :=
  match c with
  | [] => 0
  | ls :: c' => valid_count ls + valid_total c'
  end.

(** ** A reference LRU cache

    The policy the header of [csim.c] names, written with an explicit
    order instead of counts: every set is the list of the tags it
    holds, most recently used first, and the counters are unbounded
    integers. *)

Record lru_state : Type := mkLru {
  lru_sets : list (list Z);
  lru_hits : Z;
  lru_misses : Z;
  lru_evictions : Z
}.

Inductive lru_result : Type := LruHit | LruMiss | LruMissEvict.

(** What an access to tag [t] is for a set of capacity [nE]. *)
Definition lru_classify (nE : nat) (t : Z) (l : list Z) : lru_result :=
  if bool_decide (t ∈ l) then LruHit
  else if bool_decide (length l < nE)%nat then LruMiss
  else LruMissEvict.

(** The set after it: [t] moves or comes to the front; when the set is
    full and [t] is new, the last tag, the least recently used, goes. *)
Definition lru_touch (nE : nat) (t : Z) (l : list Z) : list Z :=
  match lru_classify nE t l with
  | LruHit => t :: filter (fun x => x <> t) l
  | LruMiss => t :: l
  | LruMissEvict => t :: removelast l
  end.

Definition lru_init (s0 : Z) : lru_state :=
  {| lru_sets := replicate (Z.to_nat (2 ^ s0)) [];
     lru_hits := 0; lru_misses := 0; lru_evictions := 0 |}.

Definition lru_access (s0 E0 b0 : Z) (A : Z) (a : lru_state) : lru_state :=
  let t := A / (2 ^ b0 * 2 ^ s0) in
  let i := Z.to_nat ((A / 2 ^ b0) mod 2 ^ s0) in
  let l := default [] (lru_sets a !! i) in
  let r := lru_classify (Z.to_nat E0) t l in
  {| lru_sets := <[i := lru_touch (Z.to_nat E0) t l]> (lru_sets a);
     lru_hits := lru_hits a + (if r is LruHit then 1 else 0);
     lru_misses := lru_misses a + (if r is LruHit then 0 else 1);
     lru_evictions := lru_evictions a + (if r is LruMissEvict then 1 else 0) |}.

Fixpoint lru_run (s0 E0 b0 : Z) (l : list Z) (a : lru_state) : lru_state :=
  match l with
  | [] => a
  | A :: l' => lru_run s0 E0 b0 l' (lru_access s0 E0 b0 A a)
  end.

(** Loads and stores access once, modifies twice, fetches never. *)
Definition lru_replay (s0 E0 b0 : Z) (tr : list event) : lru_state :=
  lru_run s0 E0 b0 (addrs_of tr) (lru_init s0).

(** ** The order that the counts encode *)

(** The tags of the valid lines, in index order. *)
Fixpoint vtags (ls : cache_set_t) : list Z :=
  match ls with
  | [] => []
  | ln :: ls' =>
      if Ascii.eqb (valid ln) "1" then tag ln :: vtags ls' else vtags ls'
  end.

(** The count of the first valid line with tag [t] (0 if there is none). *)
Fixpoint tag_count (ls : cache_set_t) (t : Z) : Z :=
  match ls with
  | [] => 0
  | ln :: ls' => if holdsb t ln then count ln else tag_count ls' t
  end.

(** [f] decreases strictly along [l]. *)
Fixpoint decreasing (f : Z -> Z) (l : list Z) : Prop :=
  match l with
  | [] => True
  | x :: l' => Forall (fun y => f y < f x) l' /\ decreasing f l'
  end.

(** The list [l] is the set [ls] read in the order of its counts. *)
Definition abs_set (ls : cache_set_t) (l : list Z) : Prop :=
  l ≡ₚ vtags ls /\ decreasing (tag_count ls) l.

Definition lru_abs (st : state) (a : lru_state) : Prop :=
  lru_hits a = hit_cnt st /\
  lru_misses a = miss_cnt st /\
  lru_evictions a = evict_cnt st /\
  Forall2 abs_set (cache st) (lru_sets a).

(** Some valid line of the set carries the tag [x]. *)
Definition held (ls : cache_set_t) (x : Z) : Prop :=
  exists j ln, ls !! j = Some ln /\ holds x ln.

(** The valid lines of the set carry pairwise different tags. *)
Definition tags_distinct (ls : cache_set_t) : Prop :=
  forall j k lj lk, ls !! j = Some lj -> ls !! k = Some lk ->
    valid lj = "1"%char -> valid lk = "1"%char -> tag lj = tag lk -> j = k.

(** One more on a counter ([c = true]) or the counter as it is. *)
Definition bump (c : bool) (z : Z) : Z := if c then wrap_int (z + 1) else z.

(** A reference set of capacity [nE] is the front of one of capacity
    [nE']: the [nE] most recently used tags of the larger set. *)
Definition front_of (nE nE' : nat) (l l' : list Z) : Prop :=
  l = take nE l' /\ NoDup l' /\ (length l' <= nE')%nat.

(** The smaller reference cache holds the front of every set of the
    larger one, and has no more hits and no fewer misses and
    evictions. *)
Definition lru_incl (nE nE' : nat) (a a' : lru_state) : Prop :=
  Forall2 (front_of nE nE') (lru_sets a) (lru_sets a') /\
  lru_hits a <= lru_hits a' /\
  lru_misses a' <= lru_misses a /\
  lru_evictions a' <= lru_evictions a.

(** ** main (lines 270-318), up to the call of initCache *)

(** Control after a statement: it goes on with a value, or the process
    has ended in [exit] with a status. *)
Inductive flow (A : Type) : Type :=
| Go (a : A)
| Exited (status : Z).

Arguments Go {A} a.
Arguments Exited {A} status.

(** Sequencing: nothing runs after [exit]. *)
Definition flow_bind {A B} (m : flow A) (f : A -> flow B) : flow B :=
  match m with
  | Go a => f a
  | Exited status => Exited status
  end.

(** The globals set by the command line (lines 33-37). *)
Record options : Type := mkOptions {
  opt_s : Z;
  opt_E : Z;
  opt_b : Z;
  opt_verbosity : Z;
  opt_trace_file : option (list ascii)
}.

(** Their initial values: 0, and [NULL] for [trace_file]. *)
Definition no_options : options :=
  {| opt_s := 0; opt_E := 0; opt_b := 0; opt_verbosity := 0;
     opt_trace_file := None |}.

(** printUsage (lines 241-254): after its [printf] calls it calls
    [exit(0)], so it does not return. *)
Definition printUsage : flow unit := Exited 0.

(** One result of [getopt(argc, argv, "s:E:b:t:vh")] in the loop of
    line 274: the option letter, with the [int] that [atoi] reads in
    [optarg] for [-b], [-E], [-s] and with [optarg] for [-t].  Any other
    result (['?'] for an unknown option or a missing argument) is
    [Got_other].  The loop ends when [getopt] returns -1. *)
Inductive getopt_result : Type :=
| Got_b (n : Z)
| Got_E (n : Z)
| Got_h
| Got_s (n : Z)
| Got_t (optarg : list ascii)
| Got_v
| Got_other.

(** Lines 275-297: the [switch]. *)
Definition main_switch (c : getopt_result) (g : options) : flow options :=
  match c with
  | Got_b n =>
      Go {| opt_s := opt_s g; opt_E := opt_E g; opt_b := n;
            opt_verbosity := opt_verbosity g;
            opt_trace_file := opt_trace_file g |}
  | Got_E n =>
      Go {| opt_s := opt_s g; opt_E := n; opt_b := opt_b g;
            opt_verbosity := opt_verbosity g;
            opt_trace_file := opt_trace_file g |}
  | Got_h => flow_bind printUsage (fun _ => Exited 0)
  | Got_s n =>
      Go {| opt_s := n; opt_E := opt_E g; opt_b := opt_b g;
            opt_verbosity := opt_verbosity g;
            opt_trace_file := opt_trace_file g |}
  | Got_t optarg =>
      Go {| opt_s := opt_s g; opt_E := opt_E g; opt_b := opt_b g;
            opt_verbosity := opt_verbosity g;
            opt_trace_file := Some optarg |}
  | Got_v =>
      Go {| opt_s := opt_s g; opt_E := opt_E g; opt_b := opt_b g;
            opt_verbosity := 1;
            opt_trace_file := opt_trace_file g |}
  | Got_other => flow_bind printUsage (fun _ => Exited 1)
  end.

(** Lines 274-298: the loop over the results of [getopt]. *)
Fixpoint main_getopt (cs : list getopt_result) (g : options) : flow options :=
  match cs with
  | [] => Go g
  | c :: cs' => flow_bind (main_switch c g) (main_getopt cs')
  end.

(** Lines 301-305: the test for the required arguments. *)
Definition main_required (g : options) : flow options :=
  if (opt_s g =? 0) || (opt_E g =? 0) || (opt_b g =? 0)
     || (if opt_trace_file g is None then true else false)
  then flow_bind printUsage (fun _ => Exited 1)
  else Go g.

(** [main] from its first line to the call of [initCache] (line 308):
    the globals it goes on with, or the status it has exited with. *)
Definition main_start (cs : list getopt_result) : flow options :=
  flow_bind (main_getopt cs no_options) main_required.

(** ** Machine arithmetic *)

Lemma wrap_int_id z : INT_MIN <= z <= INT_MAX -> wrap_int z = z.
Proof.
  unfold INT_MIN, INT_MAX, wrap_int. intros H.
  rewrite Z.mod_small; lia.
Qed.

Lemma wrap_int_range z : INT_MIN <= wrap_int z <= INT_MAX.
Proof.
  unfold INT_MIN, INT_MAX, wrap_int.
  pose proof (Z.mod_pos_bound (z + 2 ^ 31) (2 ^ 32)). lia.
Qed.

Lemma wrap_int_succ_neq z : wrap_int (z + 1) <> z.
Proof.
  unfold wrap_int. intros H.
  pose proof (Z.mod_pos_bound (z + 1 + 2 ^ 31) (2 ^ 32) ltac:(lia)) as Hb.
  assert (Hm : (z + 1 + 2 ^ 31) mod 2 ^ 32 = z + 2 ^ 31) by lia.
  pose proof (Z.div_mod (z + 1 + 2 ^ 31) (2 ^ 32) ltac:(lia)) as Hd.
  rewrite Hm in Hd.
  assert (2 ^ 32 * ((z + 1 + 2 ^ 31) / 2 ^ 32) = 1) by lia.
  lia.
Qed.

Lemma incr_counter z : is_int z -> z < INT_MAX -> wrap_int (z + 1) = z + 1.
Proof. intros [Hlo _] Hhi. apply wrap_int_id. lia. Qed.

Lemma pow2_bounds k : 1 <= k <= 30 -> 2 <= 2 ^ k <= 2 ^ 30.
Proof.
  intros H. split.
  - change 2 with (2 ^ 1) at 1. apply Z.pow_le_mono_r; lia.
  - apply Z.pow_le_mono_r; lia.
Qed.

Lemma shl_int_pow2 k : 1 <= k <= 30 -> shl_int 2 (k - 1) = Some (2 ^ k).
Proof.
  intros H. unfold shl_int.
  replace ((0 <=? k - 1) && (k - 1 <? 32)) with true
    by (symmetry; apply andb_true_iff; split; [apply Z.leb_le | apply Z.ltb_lt]; lia).
  f_equal. replace (2 * 2 ^ (k - 1)) with (2 ^ k).
  - apply wrap_int_id. pose proof (pow2_bounds k H).
    unfold INT_MIN, INT_MAX. change (2 ^ 30) with 1073741824 in *. lia.
  - replace k with (1 + (k - 1)) at 1 by lia.
    rewrite Z.pow_add_r by lia. reflexivity.
Qed.

Lemma decode_valid s0 E0 b0 addr :
  valid_geometry s0 E0 b0 ->
  decode s0 b0 addr =
    Some (addr / (2 ^ b0 * 2 ^ s0), (addr / 2 ^ b0) mod 2 ^ s0).
Proof.
  intros (Hs & Hb & Hsb & _). unfold decode.
  rewrite !shl_int_pow2 by lia. cbn [mbind option_bind].
  assert (Hp : 2 ^ b0 * 2 ^ s0 = 2 ^ (b0 + s0)) by (rewrite Z.pow_add_r; lia).
  pose proof (pow2_bounds (b0 + s0) ltac:(lia)) as Hbs.
  pose proof (pow2_bounds b0 ltac:(lia)) as Hb2.
  pose proof (pow2_bounds s0 ltac:(lia)) as Hs2.
  change (2 ^ 30) with 1073741824 in *.
  rewrite wrap_int_id by (unfold INT_MIN, INT_MAX; lia).
  unfold to_ull. rewrite !Z.mod_small by (change (2 ^ 64) with 18446744073709551616; lia).
  unfold udiv, umod.
  destruct (Z.eqb_spec (2 ^ b0 * 2 ^ s0) 0); [lia |].
  destruct (Z.eqb_spec (2 ^ b0) 0); [lia |].
  destruct (Z.eqb_spec (2 ^ s0) 0); [lia |].
  reflexivity.
Qed.

Lemma valid_runs s0 E0 b0 : valid_geometry s0 E0 b0 -> runs_geometry s0 E0 b0.
Proof. unfold valid_geometry, runs_geometry. lia. Qed.

(** On a geometry with [s + b <= 31] the decoding returns, and the set
    number is [(addr / B) mod S]. *)
Lemma decode_runs s0 E0 b0 addr :
  runs_geometry s0 E0 b0 ->
  exists t, decode s0 b0 addr = Some (t, (addr / 2 ^ b0) mod 2 ^ s0).
Proof.
  intros (Hs & Hb & Hsb & _). unfold decode.
  rewrite !shl_int_pow2 by lia. cbn [mbind option_bind].
  pose proof (pow2_bounds b0 ltac:(lia)) as Hb2.
  pose proof (pow2_bounds s0 ltac:(lia)) as Hs2.
  change (2 ^ 30) with 1073741824 in *.
  assert (Hd : to_ull (wrap_int (2 ^ b0 * 2 ^ s0)) <> 0).
  { rewrite <- Z.pow_add_r by lia.
    destruct (Z.eq_dec (b0 + s0) 31) as [-> | Hne]; [by vm_compute |].
    pose proof (pow2_bounds (b0 + s0) ltac:(lia)) as Hbs.
    change (2 ^ 30) with 1073741824 in *.
    rewrite wrap_int_id by (unfold INT_MIN, INT_MAX; lia).
    unfold to_ull.
    rewrite Z.mod_small by (change (2 ^ 64) with 18446744073709551616; lia).
    lia. }
  assert (Hbu : to_ull (2 ^ b0) = 2 ^ b0)
    by (apply Z.mod_small; change (2 ^ 64) with 18446744073709551616; lia).
  assert (Hsu : to_ull (2 ^ s0) = 2 ^ s0)
    by (apply Z.mod_small; change (2 ^ 64) with 18446744073709551616; lia).
  rewrite Hbu, Hsu. unfold udiv, umod.
  destruct (Z.eqb_spec (to_ull (wrap_int (2 ^ b0 * 2 ^ s0))) 0); [lia |].
  destruct (Z.eqb_spec (2 ^ b0) 0); [lia |].
  destruct (Z.eqb_spec (2 ^ s0) 0); [lia |].
  cbn [mbind option_bind]. eexists. reflexivity.
Qed.

(** ** The scans of the recency counts *)

Lemma ltb_max a c : (if a <? c then c else a) = Z.max a c.
Proof. destruct (Z.ltb_spec a c); lia. Qed.

Lemma gtb_min a c : (if a >? c then c else a) = Z.min a c.
Proof. rewrite Z.gtb_ltb. destruct (Z.ltb_spec c a); lia. Qed.

Lemma scan_recent_spec n i (ls : cache_set_t) mr lr :
  (i + n)%nat = length ls ->
  scan_recent n i ls mr lr =
    Some (max_from mr (drop i ls), min_from lr (drop i ls)).
Proof.
  revert i mr lr.
  induction n as [|n IH]; intros i mr lr Hlen; cbn [scan_recent].
  - rewrite drop_ge by lia. reflexivity.
  - destruct (lookup_lt_is_Some_2 ls i ltac:(lia)) as [ln Hln].
    rewrite Hln. cbn [mbind option_bind]. rewrite IH by lia.
    rewrite (drop_S _ _ _ Hln). cbn.
    rewrite ltb_max, gtb_min. reflexivity.
Qed.

Lemma rescan_least_spec n t (ls : cache_set_t) lr :
  (t + n)%nat = length ls ->
  rescan_least n t ls lr = Some (min_from lr (drop t ls)).
Proof.
  revert t lr.
  induction n as [|n IH]; intros t lr Hlen; cbn [rescan_least].
  - rewrite drop_ge by lia. reflexivity.
  - destruct (lookup_lt_is_Some_2 ls t ltac:(lia)) as [ln Hln].
    rewrite Hln. cbn [mbind option_bind]. rewrite IH by lia.
    rewrite (drop_S _ _ _ Hln). cbn.
    rewrite gtb_min. reflexivity.
Qed.

Lemma max_from_ge m (ls : cache_set_t) : m <= max_from m ls.
Proof.
  revert m. induction ls as [|l ls IH]; intros m; cbn; [lia |].
  etransitivity; [| apply IH]. lia.
Qed.

Lemma max_from_elem m (ls : cache_set_t) ln :
  ln ∈ ls -> count ln <= max_from m ls.
Proof.
  revert m. induction ls as [|l ls IH]; intros m Hin.
  - inversion Hin.
  - apply elem_of_cons in Hin as [-> | Hin]; cbn.
    + etransitivity; [| apply max_from_ge]. lia.
    + apply IH, Hin.
Qed.

Lemma max_from_attained m (ls : cache_set_t) :
  max_from m ls = m \/ exists ln, ln ∈ ls /\ count ln = max_from m ls.
Proof.
  revert m. induction ls as [|l ls IH]; intros m; cbn; [left; reflexivity |].
  destruct (IH (Z.max m (count l))) as [Heq | (ln & Hin & Heq)].
  - destruct (Z.max_spec m (count l)) as [[_ Hm] | [_ Hm]].
    + right. exists l. split; [left |]. unfold max_from in *. cbn in *. lia.
    + left. unfold max_from in *. cbn in *. lia.
  - right. exists ln. split; [right; exact Hin | exact Heq].
Qed.

Lemma min_from_le m (ls : cache_set_t) : min_from m ls <= m.
Proof.
  revert m. induction ls as [|l ls IH]; intros m; cbn; [lia |].
  etransitivity; [apply IH |]. lia.
Qed.

Lemma min_from_elem m (ls : cache_set_t) ln :
  ln ∈ ls -> min_from m ls <= count ln.
Proof.
  revert m. induction ls as [|l ls IH]; intros m Hin.
  - inversion Hin.
  - apply elem_of_cons in Hin as [-> | Hin]; cbn.
    + etransitivity; [apply min_from_le |]. lia.
    + apply IH, Hin.
Qed.

Lemma min_from_attained m (ls : cache_set_t) :
  min_from m ls = m \/ exists ln, ln ∈ ls /\ count ln = min_from m ls.
Proof.
  revert m. induction ls as [|l ls IH]; intros m; cbn; [left; reflexivity |].
  destruct (IH (Z.min m (count l))) as [Heq | (ln & Hin & Heq)].
  - destruct (Z.min_spec m (count l)) as [[_ Hm] | [_ Hm]].
    + left. unfold min_from in *. cbn in *. lia.
    + right. exists l. split; [left |]. unfold min_from in *. cbn in *. lia.
  - right. exists ln. split; [right; exact Hin | exact Heq].
Qed.

Lemma set_max_ge (ls : cache_set_t) ln : ln ∈ ls -> count ln <= set_max ls.
Proof.
  destruct ls as [|l0 ls]; [inversion 1 |]. intros H.
  unfold set_max. apply max_from_elem, H.
Qed.

Lemma set_max_attained (ls : cache_set_t) :
  ls <> [] -> exists ln, ln ∈ ls /\ count ln = set_max ls.
Proof.
  destruct ls as [|l0 ls]; [congruence |]. intros _. unfold set_max.
  destruct (max_from_attained (count l0) (l0 :: ls)) as [H | H]; [| exact H].
  exists l0. split; [left | congruence].
Qed.

Lemma set_min_le (ls : cache_set_t) ln : ln ∈ ls -> set_min ls <= count ln.
Proof.
  destruct ls as [|l0 ls]; [inversion 1 |]. intros H.
  unfold set_min. apply min_from_elem, H.
Qed.

Lemma set_min_attained (ls : cache_set_t) :
  ls <> [] -> exists ln, ln ∈ ls /\ count ln = set_min ls.
Proof.
  destruct ls as [|l0 ls]; [congruence |]. intros _. unfold set_min.
  destruct (min_from_attained (count l0) (l0 :: ls)) as [H | H]; [| exact H].
  exists l0. split; [left | congruence].
Qed.

Lemma set_max_lt (ls : cache_set_t) c :
  ls <> [] -> (forall ln, ln ∈ ls -> count ln < c) -> set_max ls < c.
Proof.
  intros Hne Hall. destruct (set_max_attained ls Hne) as (ln & Hin & <-).
  apply Hall, Hin.
Qed.

Lemma set_max_insert_top (ls : cache_set_t) k ln v t c :
  ls !! k = Some ln ->
  (forall ln', ln' ∈ ls -> count ln' <= c) ->
  set_max (<[k := {| valid := v; tag := t; count := c |}]> ls) = c.
Proof.
  intros Hk Hle. pose proof (lookup_lt_Some _ _ _ Hk) as Hlt.
  set (ls' := <[k := {| valid := v; tag := t; count := c |}]> ls).
  assert (Hk' : ls' !! k = Some {| valid := v; tag := t; count := c |})
    by (apply list_lookup_insert_eq, Hlt).
  assert (Hne : ls' <> []) by (intros Heq; rewrite Heq in Hk'; discriminate).
  apply Z.le_antisymm.
  - destruct (set_max_attained ls' Hne) as (x & Hin & <-).
    apply list_elem_of_lookup in Hin as [j Hj].
    destruct (decide (j = k)) as [-> | Hjk].
    + rewrite Hk' in Hj. injection Hj as <-. cbn. lia.
    + unfold ls' in Hj. rewrite list_lookup_insert_ne in Hj by congruence.
      eapply Hle, list_elem_of_lookup_2, Hj.
  - apply (set_max_ge ls' _ (list_elem_of_lookup_2 _ _ _ Hk')).
Qed.

Lemma scan_recent_set (ls : cache_set_t) l0 :
  ls !! 0%nat = Some l0 ->
  scan_recent (length ls) 0 ls (count l0) (count l0) =
    Some (set_max ls, set_min ls).
Proof.
  intros H0. rewrite scan_recent_spec by lia. rewrite drop_0.
  destruct ls as [|l ls]; [discriminate |]. cbn in H0. injection H0 as ->.
  reflexivity.
Qed.

(** ** The three loops of accessData *)

Lemma hit_loop_absent n i nE t f :
  (i + n <= length (lines f))%nat ->
  (forall j ln, (i <= j)%nat -> lines f !! j = Some ln -> holdsb t ln = false) ->
  hit_loop n i nE t f = Some f.
Proof.
  revert i. induction n as [|n IH]; intros i Hlen Hno; cbn [hit_loop].
  - reflexivity.
  - destruct (lookup_lt_is_Some_2 (lines f) i ltac:(lia)) as [ln Hln].
    rewrite Hln. cbn [mbind option_bind].
    pose proof (Hno i ln ltac:(lia) Hln) as Hb. unfold holdsb in Hb.
    rewrite Hb. apply IH; [lia |].
    intros j ln' Hj. apply Hno. lia.
Qed.

Lemma hit_loop_present n i nE t f k ln :
  (i + n <= length (lines f))%nat ->
  nE = length (lines f) ->
  (i <= k < i + n)%nat ->
  lines f !! k = Some ln ->
  holdsb t ln = true ->
  (forall j ln', (i <= j)%nat -> j <> k ->
     lines f !! j = Some ln' -> holdsb t ln' = false) ->
  exists lr,
    hit_loop n i nE t f =
      Some {| lines := <[k := {| valid := valid ln; tag := tag ln;
                                 count := wrap_int (mostRecent f + 1) |}]>
                         (lines f);
              found := true;
              mostRecent := wrap_int (mostRecent f + 1);
              leastRecent := lr;
              hits := wrap_int (hits f + 1);
              evicts := evicts f |}.
Proof.
  revert i. induction n as [|n IH]; intros i Hlen HnE Hk Hln Hb Hno.
  - lia.
  - cbn [hit_loop].
    destruct (lookup_lt_is_Some_2 (lines f) i ltac:(lia)) as [li Hli].
    rewrite Hli. cbn [mbind option_bind].
    destruct (decide (i = k)) as [-> | Hne].
    + rewrite Hln in Hli. injection Hli as <-.
      unfold holdsb in Hb. rewrite Hb.
      rewrite rescan_least_spec by (rewrite length_insert; lia).
      cbn [mbind option_bind]. eexists.
      apply hit_loop_absent; cbn [lines].
      * rewrite length_insert. lia.
      * intros j ln' Hj Hj'.
        rewrite list_lookup_insert_ne in Hj' by lia.
        apply (Hno j ln'); [lia | lia | exact Hj'].
    + pose proof (Hno i li ltac:(lia) Hne Hli) as Hbi. unfold holdsb in Hbi.
      rewrite Hbi. apply IH; [lia | exact HnE | lia | exact Hln | exact Hb |].
      intros j ln' Hj. apply Hno. lia.
Qed.

Lemma fill_loop_full n j nE t f :
  (j + n <= length (lines f))%nat ->
  (forall i ln, (j <= i)%nat -> lines f !! i = Some ln ->
     Ascii.eqb (valid ln) "0" = false) ->
  fill_loop n j nE t f = Some f.
Proof.
  revert j. induction n as [|n IH]; intros j Hlen Hno; cbn [fill_loop].
  - reflexivity.
  - destruct (lookup_lt_is_Some_2 (lines f) j ltac:(lia)) as [ln Hln].
    rewrite Hln. cbn [mbind option_bind].
    rewrite (Hno j ln ltac:(lia) Hln). apply IH; [lia |].
    intros i ln' Hi. apply Hno. lia.
Qed.

Lemma fill_loop_first n j nE t f k ln :
  (j + n <= length (lines f))%nat ->
  nE = length (lines f) ->
  (j <= k < j + n)%nat ->
  lines f !! k = Some ln ->
  Ascii.eqb (valid ln) "0" = true ->
  (forall i ln', (j <= i < k)%nat -> lines f !! i = Some ln' ->
     Ascii.eqb (valid ln') "0" = false) ->
  exists lr,
    fill_loop n j nE t f =
      Some {| lines := <[k := {| valid := "1"; tag := t;
                                 count := wrap_int (mostRecent f + 1) |}]>
                         (lines f);
              found := true;
              mostRecent := wrap_int (mostRecent f + 1);
              leastRecent := lr;
              hits := hits f;
              evicts := evicts f |}.
Proof.
  revert j. induction n as [|n IH]; intros j Hlen HnE Hk Hln Hb Hno.
  - lia.
  - cbn [fill_loop].
    destruct (lookup_lt_is_Some_2 (lines f) j ltac:(lia)) as [lj Hlj].
    rewrite Hlj. cbn [mbind option_bind].
    destruct (decide (j = k)) as [-> | Hne].
    + rewrite Hln in Hlj. injection Hlj as <-. rewrite Hb.
      rewrite rescan_least_spec by (rewrite length_insert; lia).
      cbn [mbind option_bind]. eexists. reflexivity.
    + rewrite (Hno j lj ltac:(lia) Hlj).
      apply IH; [lia | exact HnE | lia | exact Hln | exact Hb |].
      intros i ln' Hi. apply Hno. lia.
Qed.

Lemma evict_loop_first n m t f k ln :
  (m + n <= length (lines f))%nat ->
  (m <= k < m + n)%nat ->
  lines f !! k = Some ln ->
  count ln = leastRecent f ->
  (forall i ln', (m <= i < k)%nat -> lines f !! i = Some ln' ->
     count ln' <> leastRecent f) ->
  evict_loop n m t f =
    Some {| lines := <[k := {| valid := valid ln; tag := t;
                               count := wrap_int (mostRecent f + 1) |}]>
                       (lines f);
            found := true;
            mostRecent := wrap_int (mostRecent f + 1);
            leastRecent := wrap_int (leastRecent f + 1);
            hits := hits f;
            evicts := wrap_int (evicts f + 1) |}.
Proof.
  revert m. induction n as [|n IH]; intros m Hlen Hk Hln Hc Hno.
  - lia.
  - cbn [evict_loop].
    destruct (lookup_lt_is_Some_2 (lines f) m ltac:(lia)) as [lm Hlm].
    rewrite Hlm. cbn [mbind option_bind].
    destruct (decide (m = k)) as [-> | Hne].
    + rewrite Hln in Hlm. injection Hlm as <-.
      rewrite (proj2 (Z.eqb_eq _ _) Hc). reflexivity.
    + pose proof (Hno m lm ltac:(lia) Hlm) as Hc'.
      rewrite (proj2 (Z.eqb_neq _ _) Hc').
      apply IH; [lia | lia | exact Hln | exact Hc |].
      intros i ln' Hi. apply Hno. lia.
Qed.

(** ** One call of accessData *)

Lemma accessData_prefix st addr t setNum (ls : cache_set_t) :
  decode (s st) (b st) addr = Some (t, setNum) ->
  cache st !! Z.to_nat setNum = Some ls ->
  length ls = Z.to_nat (E st) ->
  ls <> [] ->
  accessData addr st =
    (let nE := length ls in
     f1 ← hit_loop nE 0 nE t
            {| lines := ls; found := false;
               mostRecent := set_max ls; leastRecent := set_min ls;
               hits := hit_cnt st; evicts := evict_cnt st |};
     if found f1 then Some (commit st setNum (miss_cnt st) f1)
     else
       f2 ← fill_loop nE 0 nE t f1;
       if found f2 then Some (commit st setNum (wrap_int (miss_cnt st + 1)) f2)
       else
         f3 ← evict_loop nE 0 t f2;
         Some (commit st setNum (wrap_int (miss_cnt st + 1)) f3)).
Proof.
  intros Hdec Hset Hlen Hne. unfold accessData.
  rewrite Hdec. cbn [mbind option_bind]. rewrite Hset. cbn [mbind option_bind].
  destruct ls as [|l0 ls']; [congruence |].
  change ((l0 :: ls') !! 0%nat) with (Some l0). cbn [mbind option_bind].
  rewrite <- Hlen.
  rewrite (scan_recent_set (l0 :: ls') l0 eq_refl). reflexivity.
Qed.

Lemma accessData_hit st addr t setNum (ls : cache_set_t) k ln :
  decode (s st) (b st) addr = Some (t, setNum) ->
  cache st !! Z.to_nat setNum = Some ls ->
  length ls = Z.to_nat (E st) ->
  ls !! k = Some ln ->
  holdsb t ln = true ->
  (forall j ln', j <> k -> ls !! j = Some ln' -> holdsb t ln' = false) ->
  accessData addr st = Some (st_hit st setNum ls k ln).
Proof.
  intros Hdec Hset Hlen Hk Hb Huniq.
  assert (Hne : ls <> []) by (intros ->; discriminate).
  rewrite (accessData_prefix _ _ _ _ _ Hdec Hset Hlen Hne). cbn zeta.
  pose proof (lookup_lt_Some _ _ _ Hk) as Hlt.
  edestruct (hit_loop_present (length ls) 0 (length ls) t
               {| lines := ls; found := false;
                  mostRecent := set_max ls; leastRecent := set_min ls;
                  hits := hit_cnt st; evicts := evict_cnt st |} k ln)
    as [lr Hloop]; cbn [lines]; try done; try lia.
  { intros j ln' _. apply Huniq. }
  rewrite Hloop. reflexivity.
Qed.

Lemma accessData_fill st addr t setNum (ls : cache_set_t) k ln :
  decode (s st) (b st) addr = Some (t, setNum) ->
  cache st !! Z.to_nat setNum = Some ls ->
  length ls = Z.to_nat (E st) ->
  (forall j ln', ls !! j = Some ln' -> holdsb t ln' = false) ->
  ls !! k = Some ln ->
  Ascii.eqb (valid ln) "0" = true ->
  (forall j ln', (j < k)%nat -> ls !! j = Some ln' ->
     Ascii.eqb (valid ln') "0" = false) ->
  accessData addr st = Some (st_fill st setNum ls k t).
Proof.
  intros Hdec Hset Hlen Hno Hk Hb Hfirst.
  assert (Hne : ls <> []) by (intros ->; discriminate).
  rewrite (accessData_prefix _ _ _ _ _ Hdec Hset Hlen Hne). cbn zeta.
  pose proof (lookup_lt_Some _ _ _ Hk) as Hlt.
  rewrite hit_loop_absent; cbn [lines]; [| lia | intros j ln' _; apply Hno].
  cbn [mbind option_bind found].
  edestruct (fill_loop_first (length ls) 0 (length ls) t
               {| lines := ls; found := false;
                  mostRecent := set_max ls; leastRecent := set_min ls;
                  hits := hit_cnt st; evicts := evict_cnt st |} k ln)
    as [lr Hloop]; cbn [lines]; try done; try lia.
  { intros j ln' Hj. apply Hfirst. lia. }
  rewrite Hloop. reflexivity.
Qed.

Lemma accessData_evict st addr t setNum (ls : cache_set_t) k ln :
  decode (s st) (b st) addr = Some (t, setNum) ->
  cache st !! Z.to_nat setNum = Some ls ->
  length ls = Z.to_nat (E st) ->
  (forall j ln', ls !! j = Some ln' -> holdsb t ln' = false) ->
  (forall j ln', ls !! j = Some ln' -> Ascii.eqb (valid ln') "0" = false) ->
  ls !! k = Some ln ->
  count ln = set_min ls ->
  (forall j ln', (j < k)%nat -> ls !! j = Some ln' -> count ln' <> set_min ls) ->
  accessData addr st = Some (st_evict st setNum ls k ln t).
Proof.
  intros Hdec Hset Hlen Hno Hfull Hk Hc Hfirst.
  assert (Hne : ls <> []) by (intros ->; discriminate).
  rewrite (accessData_prefix _ _ _ _ _ Hdec Hset Hlen Hne). cbn zeta.
  pose proof (lookup_lt_Some _ _ _ Hk) as Hlt.
  rewrite hit_loop_absent; cbn [lines]; [| lia | intros j ln' _; apply Hno].
  cbn [mbind option_bind found].
  rewrite fill_loop_full; cbn [lines]; [| lia | intros j ln' _; apply Hfull].
  cbn [mbind option_bind found].
  erewrite (evict_loop_first (length ls) 0 t _ k ln); cbn [lines leastRecent];
    try done; try lia.
  intros j ln' Hj. apply Hfirst. lia.
Qed.

(** ** Well-formed states *)

Lemma holdsb_true t ln : holdsb t ln = true <-> holds t ln.
Proof.
  unfold holdsb, holds. rewrite andb_true_iff, Z.eqb_eq, Ascii.eqb_eq.
  reflexivity.
Qed.

Lemma holdsb_false t ln : holdsb t ln = false <-> ~ holds t ln.
Proof.
  rewrite <- holdsb_true. destruct (holdsb t ln); split; congruence.
Qed.

Lemma first_index {A} (p : A -> bool) (l : list A) :
  (forall j x, l !! j = Some x -> p x = false) \/
  (exists k x, l !! k = Some x /\ p x = true /\
     forall j y, (j < k)%nat -> l !! j = Some y -> p y = false).
Proof.
  induction l as [|a l IH].
  - left. intros j x H. discriminate.
  - destruct (p a) eqn:Ha.
    + right. exists 0%nat, a. repeat split; [exact Ha |]. intros j y Hj. lia.
    + destruct IH as [IH | (k & x & Hk & Hx & Hlt)].
      * left. intros [|j] x H; cbn in H; [congruence | eapply IH, H].
      * right. exists (S k), x. repeat split; [exact Hk | exact Hx |].
        intros [|j] y Hj H; cbn in H; [congruence |].
        apply (Hlt j y); [lia | exact H].
Qed.

Lemma wf_set_touch nE (ls : cache_set_t) k ln c :
  wf_set nE ls ->
  ls !! k = Some ln ->
  INT_MIN <= c <= INT_MAX ->
  wf_set nE (<[k := {| valid := valid ln; tag := tag ln; count := c |}]> ls).
Proof.
  intros (Hlen & Hflag & Htags & Hrange) Hk Hc.
  pose proof (lookup_lt_Some _ _ _ Hk) as Hlt.
  assert (Hget : forall j x,
    <[k := {| valid := valid ln; tag := tag ln; count := c |}]> ls !! j = Some x ->
    exists y, ls !! j = Some y /\ valid x = valid y /\ tag x = tag y).
  { intros j x Hj. destruct (decide (j = k)) as [-> | Hne].
    - rewrite list_lookup_insert_eq in Hj by exact Hlt.
      injection Hj as <-. exists ln. auto.
    - rewrite list_lookup_insert_ne in Hj by congruence. exists x. auto. }
  split; [rewrite length_insert; exact Hlen |]. split.
  - intros j x Hj. destruct (Hget j x Hj) as (y & Hy & Hv & _).
    rewrite Hv. eapply Hflag, Hy.
  - split.
    + intros i j xi xj Hi Hj Hvi Hvj Ht.
      destruct (Hget i xi Hi) as (yi & Hyi & Hv1 & Ht1).
      destruct (Hget j xj Hj) as (yj & Hyj & Hv2 & Ht2).
      eapply (Htags i j yi yj); congruence.
    + intros j x Hj. destruct (decide (j = k)) as [-> | Hne].
      * rewrite list_lookup_insert_eq in Hj by exact Hlt.
        injection Hj as <-. exact Hc.
      * rewrite list_lookup_insert_ne in Hj by congruence. eapply Hrange, Hj.
Qed.

Lemma wf_set_install nE (ls : cache_set_t) k ln t c :
  wf_set nE ls ->
  ls !! k = Some ln ->
  (forall j ln', j <> k -> ls !! j = Some ln' -> holdsb t ln' = false) ->
  INT_MIN <= c <= INT_MAX ->
  wf_set nE (<[k := {| valid := "1"; tag := t; count := c |}]> ls).
Proof.
  intros (Hlen & Hflag & Htags & Hrange) Hk Hno Hc.
  pose proof (lookup_lt_Some _ _ _ Hk) as Hlt.
  split; [rewrite length_insert; exact Hlen |]. split.
  - intros j x Hj. destruct (decide (j = k)) as [-> | Hne].
    + rewrite list_lookup_insert_eq in Hj by exact Hlt.
      injection Hj as <-. right. reflexivity.
    + rewrite list_lookup_insert_ne in Hj by congruence. eapply Hflag, Hj.
  - split.
    + intros i j xi xj Hi Hj Hvi Hvj Ht.
      destruct (decide (i = k)) as [-> | Hik];
        destruct (decide (j = k)) as [-> | Hjk]; try reflexivity.
      * rewrite list_lookup_insert_eq in Hi by exact Hlt. injection Hi as <-.
        rewrite list_lookup_insert_ne in Hj by congruence.
        apply Hno in Hj; [| exact Hjk]. apply holdsb_false in Hj.
        exfalso. apply Hj. split; [symmetry; exact Ht | exact Hvj].
      * rewrite list_lookup_insert_eq in Hj by exact Hlt. injection Hj as <-.
        rewrite list_lookup_insert_ne in Hi by congruence.
        apply Hno in Hi; [| exact Hik]. apply holdsb_false in Hi.
        exfalso. apply Hi. split; [exact Ht | exact Hvi].
      * rewrite list_lookup_insert_ne in Hi by congruence.
        rewrite list_lookup_insert_ne in Hj by congruence.
        eapply Htags; eassumption.
    + intros j x Hj. destruct (decide (j = k)) as [-> | Hne].
      * rewrite list_lookup_insert_eq in Hj by exact Hlt.
        injection Hj as <-. exact Hc.
      * rewrite list_lookup_insert_ne in Hj by congruence. eapply Hrange, Hj.
Qed.

Lemma wf_state_update st st' i (ls' : cache_set_t) :
  wf_state st ->
  s st' = s st -> E st' = E st -> b st' = b st ->
  cache st' = <[i := ls']> (cache st) ->
  wf_set (E st) ls' ->
  is_int (hit_cnt st') -> is_int (miss_cnt st') -> is_int (evict_cnt st') ->
  wf_state st'.
Proof.
  intros (Hg & Hlen & Hsets & _) Hs HE Hb Hc Hls Hh Hm He.
  unfold wf_state. rewrite Hs, HE, Hb, Hc. split; [exact Hg |].
  split; [| split; [| auto]].
  - rewrite length_insert. exact Hlen.
  - intros j ls Hj. destruct (decide (j = i)) as [-> | Hne].
    + destruct (decide (i < length (cache st))%nat) as [Hlt | Hge].
      * rewrite list_lookup_insert_eq in Hj by exact Hlt. congruence.
      * rewrite list_insert_ge in Hj by lia. eapply Hsets, Hj.
    + rewrite list_lookup_insert_ne in Hj by congruence. eapply Hsets, Hj.
Qed.

Lemma initCache_wf s0 E0 b0 st :
  runs_geometry s0 E0 b0 -> initCache s0 E0 b0 = Some st -> wf_state st.
Proof.
  intros Hg Hinit. pose proof Hg as (Hs & Hb & Hsb & HE).
  unfold initCache in Hinit. rewrite shl_int_pow2 in Hinit by lia.
  cbn [mbind option_bind] in Hinit. injection Hinit as <-.
  split; [exact Hg |]. cbn [s E b cache hit_cnt miss_cnt evict_cnt].
  split; [| split; [| by unfold is_int]].
  - apply length_replicate.
  - intros i ls Hi. apply lookup_replicate in Hi as [-> _].
    split; [apply length_replicate |]. split; [| split].
    + intros j ln Hj. apply lookup_replicate in Hj as [-> _]. left. reflexivity.
    + intros j k lj lk Hj _ Hv. apply lookup_replicate in Hj as [-> _].
      discriminate.
    + intros j ln Hj. apply lookup_replicate in Hj as [-> _]. done.
Qed.

(** The set an address decodes to exists in a well-formed state. *)
Lemma decoded_set st addr :
  wf_state st ->
  exists t (ls : cache_set_t),
    decode (s st) (b st) addr = Some (t, (addr / 2 ^ b st) mod 2 ^ s st) /\
    cache st !! Z.to_nat ((addr / 2 ^ b st) mod 2 ^ s st) = Some ls /\
    wf_set (E st) ls /\ ls <> [].
Proof.
  intros (Hg & Hlen & Hsets & _).
  pose proof Hg as (Hs & Hb & Hsb & HE).
  pose proof (pow2_bounds (s st) ltac:(lia)) as Hp.
  pose proof (Z.mod_pos_bound (addr / 2 ^ b st) (2 ^ s st) ltac:(lia)) as Hm.
  destruct (lookup_lt_is_Some_2 (cache st)
              (Z.to_nat ((addr / 2 ^ b st) mod 2 ^ s st)) ltac:(lia)) as [ls Hls].
  destruct (decode_runs _ _ _ addr Hg) as [t Hdec].
  exists t, ls. split; [exact Hdec |]. split; [exact Hls |].
  pose proof (Hsets _ _ Hls) as Hwf. split; [exact Hwf |].
  destruct Hwf as (Hl & _). intros ->. cbn in Hl. lia.
Qed.

Lemma wf_state_lines st : wf_state st -> wf_lines st.
Proof.
  intros ((_ & _ & _ & HE) & _ & Hsets & Hcnt).
  split; [lia |]. split; assumption.
Qed.

Lemma wf_lines_set st i (ls : cache_set_t) :
  wf_lines st -> cache st !! i = Some ls -> wf_set (E st) ls /\ ls <> [].
Proof.
  intros (HE & Hsets & _) Hi. pose proof (Hsets _ _ Hi) as Hwf.
  split; [exact Hwf |]. destruct Hwf as (Hl & _). intros ->. cbn in Hl. lia.
Qed.

Lemma flag_not_zero (ls : cache_set_t) nE j ln :
  wf_set nE ls -> ls !! j = Some ln ->
  Ascii.eqb (valid ln) "0" = false -> valid ln = "1"%char.
Proof.
  intros (_ & Hflag & _ & _) Hj Hb.
  destruct (Hflag j ln Hj) as [H0 | H1]; [| exact H1].
  rewrite H0 in Hb. discriminate.
Qed.

(** A call returns, with one of the three outcomes, as soon as the
    address decodes and the decoded set is there. *)
Lemma accessData_outcome_at st addr t setNum (ls : cache_set_t) :
  decode (s st) (b st) addr = Some (t, setNum) ->
  cache st !! Z.to_nat setNum = Some ls ->
  wf_set (E st) ls ->
  ls <> [] ->
  exists st', accessData addr st = Some st' /\ outcome st addr st'.
Proof.
  intros Hdec Hset Hls Hne.
  pose proof Hls as (Hlen & Hflag & Htags & _).
  destruct (first_index (holdsb t) ls) as [Hno | (k & ln & Hk & Hb & _)].
  - destruct (first_index (fun ln => Ascii.eqb (valid ln) "0") ls)
      as [Hfull | (k & ln & Hk & Hb & Hfirst)].
    + destruct (set_min_attained ls Hne) as (lm & Hin & Hcm).
      destruct (first_index (fun ln => count ln =? set_min ls) ls)
        as [Hnone | (k & ln & Hk & Hb & Hfirst)].
      * apply list_elem_of_lookup in Hin as [j Hj].
        apply Hnone in Hj. apply Z.eqb_neq in Hj. congruence.
      * apply Z.eqb_eq in Hb. eexists. split.
        -- eapply (accessData_evict st addr t setNum ls k ln); try eassumption.
           intros j ln' Hj Hl. eapply Z.eqb_neq, Hfirst; eassumption.
        -- eapply (out_evict st addr _ t setNum ls k ln); try eassumption;
             try reflexivity.
           ++ intros j ln' Hj. apply holdsb_false. eapply Hno, Hj.
           ++ intros j ln' Hj. eapply flag_not_zero; [exact Hls | exact Hj |].
              eapply Hfull, Hj.
           ++ intros j ln' Hlt Hj.
              pose proof (Hfirst j ln' Hlt Hj) as Hn. apply Z.eqb_neq in Hn.
              pose proof (set_min_le ls ln' (list_elem_of_lookup_2 _ _ _ Hj)).
              lia.
    + apply Ascii.eqb_eq in Hb as Hv. eexists. split.
      * eapply (accessData_fill st addr t setNum ls k ln); eassumption.
      * eapply (out_fill st addr _ t setNum ls k ln); try eassumption;
          try reflexivity.
        -- intros j ln' Hj. apply holdsb_false. eapply Hno, Hj.
        -- intros j ln' Hlt Hj. eapply flag_not_zero; [exact Hls | exact Hj |].
           eapply Hfirst; eassumption.
  - eexists. split.
    + eapply (accessData_hit st addr t setNum ls k ln); try eassumption.
      intros j ln' Hjk Hj. destruct (holdsb t ln') eqn:Hb'; [| reflexivity].
      exfalso. apply Hjk.
      apply holdsb_true in Hb as [Ht Hv]. apply holdsb_true in Hb' as [Ht' Hv'].
      eapply (Htags j k ln' ln); congruence.
    + eapply (out_hit st addr _ t setNum ls k ln); try eassumption;
        try reflexivity.
      apply holdsb_true, Hb.
Qed.

Lemma accessData_outcome st addr :
  wf_state st ->
  exists st', accessData addr st = Some st' /\ outcome st addr st'.
Proof.
  intros Hwf.
  destruct (decoded_set st addr Hwf) as (t & ls & Hdec & Hset & Hls & Hne).
  eapply accessData_outcome_at; eassumption.
Qed.

(** Whatever the geometry: a call that returns has one of the three
    outcomes. *)
Lemma accessData_inv_lines st addr st' :
  wf_lines st -> accessData addr st = Some st' -> outcome st addr st'.
Proof.
  intros Hwf Hacc.
  destruct (decode (s st) (b st) addr) as [[t sn]|] eqn:Hdec;
    [| unfold accessData in Hacc; rewrite Hdec in Hacc; discriminate].
  destruct (cache st !! Z.to_nat sn) as [ls|] eqn:Hset;
    [| unfold accessData in Hacc; rewrite Hdec in Hacc;
       cbn [mbind option_bind] in Hacc; rewrite Hset in Hacc; discriminate].
  destruct (wf_lines_set st _ ls Hwf Hset) as [Hls Hne].
  destruct (accessData_outcome_at st addr t sn ls Hdec Hset Hls Hne)
    as (st'' & Hacc' & Hout).
  congruence.
Qed.

Lemma outcome_geometry st A st' :
  outcome st A st' -> s st' = s st /\ E st' = E st /\ b st' = b st.
Proof. destruct 1; subst; auto. Qed.

Lemma outcome_length st A st' :
  outcome st A st' -> length (cache st') = length (cache st).
Proof. destruct 1; subst; cbn; apply length_insert. Qed.

Lemma initCache_geometry s0 E0 b0 st :
  initCache s0 E0 b0 = Some st -> s st = s0 /\ E st = E0 /\ b st = b0.
Proof.
  unfold initCache. destruct (shl_int 2 (s0 - 1)); cbn; [| discriminate].
  intros [= <-]. auto.
Qed.

Lemma outcome_wf st addr st' :
  wf_state st -> outcome st addr st' -> wf_state st'.
Proof.
  intros Hwf Hout. pose proof Hwf as (_ & _ & Hsets & Hh & Hm & He).
  destruct Hout as [t sn ls k ln Hdec Hset Hk Hholds ->
                   | t sn ls k ln Hdec Hset Hno Hk Hv Hfirst ->
                   | t sn ls k ln Hdec Hset Hno Hfull Hk Hc Hfirst ->].
  - eapply wf_state_update;
      [exact Hwf | reflexivity | reflexivity | reflexivity | reflexivity | | | |];
      cbn [hit_cnt miss_cnt evict_cnt st_hit];
      try assumption; try apply wrap_int_range.
    apply wf_set_touch;
      [eapply Hsets, Hset | exact Hk | apply wrap_int_range].
  - eapply wf_state_update;
      [exact Hwf | reflexivity | reflexivity | reflexivity | reflexivity | | | |];
      cbn [hit_cnt miss_cnt evict_cnt st_fill];
      try assumption; try apply wrap_int_range.
    eapply wf_set_install;
      [eapply Hsets, Hset | exact Hk | | apply wrap_int_range].
    intros j ln' _ Hj. apply holdsb_false. eapply Hno, Hj.
  - eapply wf_state_update;
      [exact Hwf | reflexivity | reflexivity | reflexivity | reflexivity | | | |];
      cbn [hit_cnt miss_cnt evict_cnt st_evict];
      try assumption; try apply wrap_int_range.
    rewrite (Hfull k ln Hk).
    eapply wf_set_install;
      [eapply Hsets, Hset | exact Hk | | apply wrap_int_range].
    intros j ln' _ Hj. apply holdsb_false. eapply Hno, Hj.
Qed.

Lemma accessData_inv st addr st' :
  wf_state st -> accessData addr st = Some st' -> outcome st addr st'.
Proof.
  intros Hwf Hacc.
  destruct (accessData_outcome st addr Hwf) as (st'' & Hacc' & Hout).
  congruence.
Qed.

Lemma wf_lines_update st st' i (ls' : cache_set_t) :
  wf_lines st ->
  E st' = E st ->
  cache st' = <[i := ls']> (cache st) ->
  wf_set (E st) ls' ->
  is_int (hit_cnt st') -> is_int (miss_cnt st') -> is_int (evict_cnt st') ->
  wf_lines st'.
Proof.
  intros (HE0 & Hsets & _) HE Hc Hls Hh Hm He.
  unfold wf_lines. rewrite HE, Hc. split; [exact HE0 |].
  split; [| auto].
  intros j ls Hj. destruct (decide (j = i)) as [-> | Hne].
  - destruct (decide (i < length (cache st))%nat) as [Hlt | Hge].
    + rewrite list_lookup_insert_eq in Hj by exact Hlt. congruence.
    + rewrite list_insert_ge in Hj by lia. eapply Hsets, Hj.
  - rewrite list_lookup_insert_ne in Hj by congruence. eapply Hsets, Hj.
Qed.

Lemma outcome_lines st addr st' :
  wf_lines st -> outcome st addr st' -> wf_lines st'.
Proof.
  intros Hwf Hout. pose proof Hwf as (_ & Hsets & Hh & Hm & He).
  destruct Hout as [t sn ls k ln Hdec Hset Hk Hholds ->
                   | t sn ls k ln Hdec Hset Hno Hk Hv Hfirst ->
                   | t sn ls k ln Hdec Hset Hno Hfull Hk Hc Hfirst ->].
  - eapply wf_lines_update;
      [exact Hwf | reflexivity | reflexivity | | | |];
      cbn [hit_cnt miss_cnt evict_cnt st_hit];
      try assumption; try apply wrap_int_range.
    apply wf_set_touch;
      [eapply Hsets, Hset | exact Hk | apply wrap_int_range].
  - eapply wf_lines_update;
      [exact Hwf | reflexivity | reflexivity | | | |];
      cbn [hit_cnt miss_cnt evict_cnt st_fill];
      try assumption; try apply wrap_int_range.
    eapply wf_set_install;
      [eapply Hsets, Hset | exact Hk | | apply wrap_int_range].
    intros j ln' _ Hj. apply holdsb_false. eapply Hno, Hj.
  - eapply wf_lines_update;
      [exact Hwf | reflexivity | reflexivity | | | |];
      cbn [hit_cnt miss_cnt evict_cnt st_evict];
      try assumption; try apply wrap_int_range.
    rewrite (Hfull k ln Hk).
    eapply wf_set_install;
      [eapply Hsets, Hset | exact Hk | | apply wrap_int_range].
    intros j ln' _ Hj. apply holdsb_false. eapply Hno, Hj.
Qed.

Lemma initCache_lines s0 E0 b0 st :
  0 < E0 -> initCache s0 E0 b0 = Some st -> wf_lines st.
Proof.
  intros HE Hinit. unfold initCache in Hinit.
  destruct (shl_int 2 (s0 - 1)) as [S0|]; [| discriminate].
  cbn [mbind option_bind] in Hinit. injection Hinit as <-.
  split; [exact HE |]. cbn [s E b cache hit_cnt miss_cnt evict_cnt].
  split; [| by unfold is_int].
  intros i ls Hi. apply lookup_replicate in Hi as [-> _].
  split; [apply length_replicate |]. split; [| split].
  - intros j ln Hj. apply lookup_replicate in Hj as [-> _]. left. reflexivity.
  - intros j k lj lk Hj _ Hv. apply lookup_replicate in Hj as [-> _].
    discriminate.
  - intros j ln Hj. apply lookup_replicate in Hj as [-> _]. done.
Qed.

(** Every reachable state has well-formed sets and counters. *)
Lemma reach_lines n st : reach n st -> wf_lines st.
Proof.
  induction 1 as [s0 E0 b0 st Hs Hb HE Hinit | n st addr st' _ IH _ Hacc].
  - eapply initCache_lines; eassumption.
  - eapply outcome_lines; [exact IH |]. eapply accessData_inv_lines; eassumption.
Qed.

(** On a geometry with [s + b <= 31] it also has its [2 ^ s] sets. *)
Lemma reach_wf n st :
  reach n st -> runs_geometry (s st) (E st) (b st) -> wf_state st.
Proof.
  induction 1 as [s0 E0 b0 st Hs Hb HE Hinit | n st addr st' Hreach IH _ Hacc];
    intros Hg.
  - destruct (initCache_geometry _ _ _ _ Hinit) as (Hs' & HE' & Hb').
    rewrite Hs', HE', Hb' in Hg. eapply initCache_wf; eassumption.
  - pose proof (accessData_inv_lines st addr st' (reach_lines _ _ Hreach) Hacc)
      as Hout.
    destruct (outcome_geometry _ _ _ Hout) as (Hs' & HE' & Hb').
    rewrite Hs', HE', Hb' in Hg.
    eapply outcome_wf; [exact (IH Hg) | exact Hout].
Qed.

(** A fresh cache of a geometry with [s + b <= 31] is reachable. *)
Lemma reach_fresh s0 E0 b0 st :
  runs_geometry s0 E0 b0 -> initCache s0 E0 b0 = Some st -> reach 0 st.
Proof.
  intros (Hs & Hb & _ & HE) Hinit. apply (reach_init s0 E0 b0); [lia .. | exact Hinit].
Qed.

Lemma reach_eval n st A st' n' :
  reach n st ->
  0 <= A < 2 ^ 64 ->
  accessData A st = Some st' ->
  n' = n + 1 ->
  reach n' st'.
Proof. intros Hreach HA Hacc ->. eapply reach_step; eassumption. Qed.

Lemma reachable_set st i (ls : cache_set_t) :
  reachable st -> cache st !! i = Some ls ->
  wf_lines st /\ wf_set (E st) ls /\ ls <> [].
Proof.
  intros [n Hr] Hi. pose proof (reach_lines n st Hr) as Hwf.
  split; [exact Hwf |]. eapply wf_lines_set; eassumption.
Qed.

Lemma outcome_set st addr st' :
  outcome st addr st' ->
  exists t setNum (ls ls' : cache_set_t) k ln,
    decode (s st) (b st) addr = Some (t, setNum) /\
    cache st !! Z.to_nat setNum = Some ls /\
    cache st' = <[Z.to_nat setNum := ls']> (cache st) /\
    cache st' !! Z.to_nat setNum = Some ls' /\
    ls !! k = Some ln /\
    ls' = <[k := {| valid := "1"; tag := t;
                    count := wrap_int (set_max ls + 1) |}]> ls.
Proof.
  intros Hout.
  assert (Hlk : forall i (ls ls' : cache_set_t),
            cache st !! i = Some ls -> <[i := ls']> (cache st) !! i = Some ls').
  { intros i ls ls' Hi. apply list_lookup_insert_eq. eapply lookup_lt_Some, Hi. }
  destruct Hout as [t sn ls k ln Hdec Hset Hk [Ht Hv] ->
                   | t sn ls k ln Hdec Hset Hno Hk Hv Hfirst ->
                   | t sn ls k ln Hdec Hset Hno Hfull Hk Hc Hfirst ->].
  - exists t, sn, ls. eexists. exists k, ln.
    repeat split; try eassumption; try reflexivity.
    + cbn [cache st_hit]. eapply Hlk, Hset.
    + rewrite Ht, Hv. reflexivity.
  - exists t, sn, ls. eexists. exists k, ln.
    repeat split; try eassumption; try reflexivity.
    cbn [cache st_fill]. eapply Hlk, Hset.
  - exists t, sn, ls. eexists. exists k, ln.
    repeat split; try eassumption; try reflexivity.
    + cbn [cache st_evict]. eapply Hlk, Hset.
    + rewrite (Hfull k ln Hk). reflexivity.
Qed.

Lemma outcome_lookup st addr st' :
  wf_state st -> outcome st addr st' ->
  exists t setNum (ls ls' : cache_set_t) k ln,
    decode (s st) (b st) addr = Some (t, setNum) /\
    cache st !! Z.to_nat setNum = Some ls /\
    cache st' = <[Z.to_nat setNum := ls']> (cache st) /\
    cache st' !! Z.to_nat setNum = Some ls' /\
    ls !! k = Some ln /\
    ls' = <[k := {| valid := "1"; tag := t;
                    count := wrap_int (set_max ls + 1) |}]> ls.
Proof. intros _. apply outcome_set. Qed.

(** The counters after one call. *)
Lemma outcome_counters st A st' :
  outcome st A st' ->
  (hit_cnt st' = wrap_int (hit_cnt st + 1) /\
   miss_cnt st' = miss_cnt st /\ evict_cnt st' = evict_cnt st) \/
  (hit_cnt st' = hit_cnt st /\
   miss_cnt st' = wrap_int (miss_cnt st + 1) /\
   (evict_cnt st' = evict_cnt st \/
    evict_cnt st' = wrap_int (evict_cnt st + 1))).
Proof.
  intros [t sn ls k ln _ _ _ _ -> | t sn ls k ln _ _ _ _ _ _ ->
         | t sn ls k ln _ _ _ _ _ _ _ ->]; cbn; auto.
Qed.

Lemma accessData_hit_lines st A t setNum (ls : cache_set_t) k ln :
  wf_lines st ->
  decode (s st) (b st) A = Some (t, setNum) ->
  cache st !! Z.to_nat setNum = Some ls ->
  ls !! k = Some ln ->
  holds t ln ->
  accessData A st = Some (st_hit st setNum ls k ln).
Proof.
  intros Hwf Hdec Hset Hk Hholds.
  pose proof Hwf as (_ & Hsets & _).
  pose proof (Hsets _ _ Hset) as Hls.
  apply (accessData_hit st A t setNum ls k ln); try assumption.
  - apply Hls.
  - apply holdsb_true, Hholds.
  - intros j ln' Hjk Hj. apply holdsb_false. intros [Ht Hv].
    destruct Hholds as [Ht0 Hv0]. destruct Hls as (_ & _ & Htags & _).
    apply Hjk. eapply (Htags j k ln' ln); congruence.
Qed.

Lemma accessData_hit_wf st A t setNum (ls : cache_set_t) k ln :
  wf_state st ->
  decode (s st) (b st) A = Some (t, setNum) ->
  cache st !! Z.to_nat setNum = Some ls ->
  ls !! k = Some ln ->
  holds t ln ->
  accessData A st = Some (st_hit st setNum ls k ln).
Proof. intros Hwf. apply accessData_hit_lines, wf_state_lines, Hwf. Qed.

Lemma set_max_is_int nE (ls : cache_set_t) :
  wf_set nE ls -> ls <> [] -> is_int (set_max ls).
Proof.
  intros (_ & _ & _ & Hrange) Hne.
  destruct (set_max_attained ls Hne) as (ln & Hin & <-).
  apply list_elem_of_lookup in Hin as [j Hj]. eapply Hrange, Hj.
Qed.

Lemma next_recency nE (ls : cache_set_t) :
  wf_set nE ls -> ls <> [] ->
  (forall ln, ln ∈ ls -> count ln < INT_MAX) ->
  wrap_int (set_max ls + 1) = set_max ls + 1 /\
  forall ln, ln ∈ ls -> count ln < wrap_int (set_max ls + 1).
Proof.
  intros Hwf Hne Hlt.
  pose proof (set_max_is_int nE ls Hwf Hne) as [Hlo _].
  pose proof (set_max_lt ls INT_MAX Hne Hlt) as Hhi.
  assert (Hw : wrap_int (set_max ls + 1) = set_max ls + 1)
    by (apply wrap_int_id; lia).
  split; [exact Hw |]. intros ln Hin. rewrite Hw.
  pose proof (set_max_ge ls ln Hin). lia.
Qed.

(** ** Runs that stay within [int] *)

Lemma set_bounded_mono n n' (ls : cache_set_t) :
  set_bounded n ls -> n <= n' -> set_bounded n' ls.
Proof.
  intros [Hc Hd] Hle. split; [| exact Hd].
  intros j ln Hj. pose proof (Hc j ln Hj). lia.
Qed.

Lemma set_bounded_max n (ls : cache_set_t) :
  set_bounded n ls -> ls <> [] -> 0 <= set_max ls <= n.
Proof.
  intros [Hc _] Hne. destruct (set_max_attained ls Hne) as (ln & Hin & <-).
  apply list_elem_of_lookup in Hin as [j Hj]. eapply Hc, Hj.
Qed.

Lemma set_bounded_insert n (ls : cache_set_t) k ln v t :
  set_bounded n ls ->
  ls !! k = Some ln ->
  set_bounded (n + 1)
    (<[k := {| valid := v; tag := t; count := set_max ls + 1 |}]> ls).
Proof.
  intros Hb Hk. pose proof (lookup_lt_Some _ _ _ Hk) as Hlt.
  assert (Hne : ls <> []) by (intros ->; discriminate).
  pose proof (set_bounded_max n ls Hb Hne) as Hmax.
  destruct Hb as [Hc Hd].
  assert (Hold : forall j x, j <> k ->
            <[k := {| valid := v; tag := t; count := set_max ls + 1 |}]> ls !! j
              = Some x ->
            ls !! j = Some x /\ count x <= set_max ls).
  { intros j x Hjk Hj. rewrite list_lookup_insert_ne in Hj by congruence.
    split; [exact Hj |]. eapply set_max_ge, list_elem_of_lookup_2, Hj. }
  split.
  - intros j x Hj. destruct (decide (j = k)) as [-> | Hjk].
    + rewrite list_lookup_insert_eq in Hj by exact Hlt.
      injection Hj as <-. cbn. lia.
    + destruct (Hold j x Hjk Hj) as [Hj' _]. pose proof (Hc j x Hj'). lia.
  - intros i j xi xj Hi Hj Hvi Hvj Heq.
    destruct (decide (i = k)) as [-> | Hik];
      destruct (decide (j = k)) as [-> | Hjk]; try reflexivity.
    + rewrite list_lookup_insert_eq in Hi by exact Hlt. injection Hi as <-.
      destruct (Hold j xj Hjk Hj) as [_ Hle]. cbn in Heq. lia.
    + rewrite list_lookup_insert_eq in Hj by exact Hlt. injection Hj as <-.
      destruct (Hold i xi Hik Hi) as [_ Hle]. cbn in Heq. lia.
    + destruct (Hold i xi Hik Hi) as [Hi' _].
      destruct (Hold j xj Hjk Hj) as [Hj' _].
      eapply Hd; eassumption.
Qed.

Lemma outcome_bounded n st A st' :
  bounded n st -> n < INT_MAX ->
  outcome st A st' -> bounded (n + 1) st'.
Proof.
  intros (Hh & Hm & Hsum & He & Hsets) Hn Hout.
  assert (Hw : forall z, 0 <= z <= n -> wrap_int (z + 1) = z + 1)
    by (intros z Hz; apply wrap_int_id; unfold INT_MIN, INT_MAX in *; lia).
  destruct (outcome_set st A st' Hout)
    as (t & sn & ls & ls' & k & ln & Hdec & Hset & Hc & Hset' & Hk & ->).
  assert (Hne : ls <> []) by (intros ->; discriminate).
  pose proof (set_bounded_max n ls (Hsets _ _ Hset) Hne) as Hmax.
  assert (Hcache : forall i ls0, cache st' !! i = Some ls0 ->
            set_bounded (n + 1) ls0).
  { intros i ls0 Hi. rewrite Hc in Hi.
    destruct (decide (i = Z.to_nat sn)) as [-> | Hne'].
    - rewrite list_lookup_insert_eq in Hi by (eapply lookup_lt_Some, Hset).
      injection Hi as <-. rewrite (Hw _ Hmax).
      eapply set_bounded_insert; [eapply Hsets, Hset | exact Hk].
    - rewrite list_lookup_insert_ne in Hi by congruence.
      eapply set_bounded_mono; [eapply Hsets, Hi | lia]. }
  destruct (outcome_counters st A st' Hout)
    as [(Hh' & Hm' & He') | (Hh' & Hm' & [He' | He'])];
    unfold bounded; rewrite Hh', Hm', He'; rewrite ?Hw by lia;
    (split; [lia | split; [lia | split; [lia | split; [lia | exact Hcache]]]]).
Qed.

Lemma reach_bounded n st : reach n st -> n <= INT_MAX -> bounded n st.
Proof.
  induction 1 as [s0 E0 b0 st Hs Hb HE Hinit | n st A st' Hreach IH _ Hacc];
    intros Hn.
  - unfold initCache in Hinit.
    destruct (shl_int 2 (s0 - 1)) as [S0|]; [| discriminate].
    cbn [mbind option_bind] in Hinit. injection Hinit as <-.
    unfold bounded. cbn [hit_cnt miss_cnt evict_cnt cache].
    split; [lia | split; [lia | split; [lia | split; [lia |]]]].
    intros i ls Hi. apply lookup_replicate in Hi as [-> _]. split.
    + intros j ln Hj. apply lookup_replicate in Hj as [-> _]. cbn. lia.
    + intros j k lj lk Hj _ Hv. apply lookup_replicate in Hj as [-> _].
      discriminate.
  - eapply outcome_bounded; [apply IH; lia | lia |].
    eapply accessData_inv_lines; [eapply reach_lines, Hreach | exact Hacc].
Qed.

(** One call more than [bounded] covers: the new count is above the
    counts of the set or, when these have reached [INT_MAX], is
    [INT_MIN] and so below them; it still ties with none. *)
Lemma next_count_fresh m c :
  0 <= c <= m -> m <= INT_MAX -> wrap_int (m + 1) <> c.
Proof.
  intros Hc Hm. destruct (Z.eq_dec m INT_MAX) as [-> | Hne].
  - replace (wrap_int (INT_MAX + 1)) with INT_MIN by reflexivity.
    unfold INT_MIN. lia.
  - rewrite wrap_int_id by (unfold INT_MIN, INT_MAX in *; lia). lia.
Qed.

Lemma outcome_distinct n st A st' i (ls0 : cache_set_t) j k lj lk :
  bounded n st -> n <= INT_MAX ->
  outcome st A st' ->
  cache st' !! i = Some ls0 ->
  ls0 !! j = Some lj -> ls0 !! k = Some lk ->
  valid lj = "1"%char -> valid lk = "1"%char ->
  count lj = count lk -> j = k.
Proof.
  intros (_ & _ & _ & _ & Hsets) Hn Hout Hi Hj Hk Hvj Hvk Heq.
  destruct (outcome_set st A st' Hout)
    as (t & sn & ls & ls' & k0 & ln & _ & Hset & Hc & _ & Hk0 & ->).
  rewrite Hc in Hi.
  destruct (decide (i = Z.to_nat sn)) as [-> | Hne];
    [| rewrite list_lookup_insert_ne in Hi by congruence;
       destruct (Hsets i ls0 Hi) as [_ Hd]; eapply Hd; eassumption].
  rewrite list_lookup_insert_eq in Hi by (eapply lookup_lt_Some, Hset).
  injection Hi as <-.
  pose proof (lookup_lt_Some _ _ _ Hk0) as Hlt.
  assert (Hne : ls <> []) by (intros ->; discriminate).
  pose proof (set_bounded_max n ls (Hsets _ _ Hset) Hne) as Hmax.
  destruct (Hsets _ ls Hset) as [Hrange Hd].
  assert (Hold : forall x lx, x <> k0 ->
            <[k0 := {| valid := "1"; tag := t;
                       count := wrap_int (set_max ls + 1) |}]> ls !! x = Some lx ->
            ls !! x = Some lx /\ wrap_int (set_max ls + 1) <> count lx).
  { intros x lx Hx Hlx. rewrite list_lookup_insert_ne in Hlx by congruence.
    split; [exact Hlx |]. apply next_count_fresh; [| lia].
    pose proof (Hrange x lx Hlx).
    pose proof (set_max_ge ls lx (list_elem_of_lookup_2 _ _ _ Hlx)). lia. }
  destruct (decide (j = k0)) as [-> | Hjk];
    destruct (decide (k = k0)) as [-> | Hkk]; try reflexivity.
  - rewrite list_lookup_insert_eq in Hj by exact Hlt. injection Hj as <-.
    destruct (Hold k lk Hkk Hk) as [_ Hf]. cbn in Heq. congruence.
  - rewrite list_lookup_insert_eq in Hk by exact Hlt. injection Hk as <-.
    destruct (Hold j lj Hjk Hj) as [_ Hf]. cbn in Heq. congruence.
  - destruct (Hold j lj Hjk Hj) as [Hj' _].
    destruct (Hold k lk Hkk Hk) as [Hk' _].
    eapply Hd; eassumption.
Qed.

(** The geometry of a reachable state is the one it was built with. *)
Lemma reach_step_geometry n st A st' :
  reach n st -> accessData A st = Some st' ->
  s st' = s st /\ E st' = E st /\ b st' = b st.
Proof.
  intros Hreach Hacc. eapply outcome_geometry, accessData_inv_lines;
    [eapply reach_lines, Hreach | exact Hacc].
Qed.

(** ** Traces *)

Lemma count_op_app o tr1 tr2 :
  count_op o (tr1 ++ tr2) = count_op o tr1 + count_op o tr2.
Proof. induction tr1 as [|ev tr1 IH]; cbn; [reflexivity | rewrite IH; lia]. Qed.

Lemma replayTrace_app tr1 tr2 st :
  replayTrace (tr1 ++ tr2) st = (st1 ← replayTrace tr1 st; replayTrace tr2 st1).
Proof.
  revert st. induction tr1 as [|ev tr1 IH]; intros st; [reflexivity |].
  cbn [app replayTrace]. destruct (replay_event ev st) as [st1|]; cbn.
  - apply IH.
  - reflexivity.
Qed.

(** On a geometry with [s + b <= 31] every call returns. *)
Lemma reach_access n st A :
  reach n st ->
  runs_geometry (s st) (E st) (b st) ->
  0 <= A < 2 ^ 64 ->
  exists st1, accessData A st = Some st1 /\ reach (n + 1) st1 /\
    runs_geometry (s st1) (E st1) (b st1).
Proof.
  intros Hreach Hg HA.
  destruct (accessData_outcome st A (reach_wf _ _ Hreach Hg))
    as (st1 & Hacc & Hout).
  exists st1. split; [exact Hacc |].
  split; [eapply reach_step; eassumption |].
  destruct (outcome_geometry _ _ _ Hout) as (-> & -> & ->). exact Hg.
Qed.

Lemma replay_runs n st tr :
  reach n st ->
  runs_geometry (s st) (E st) (b st) ->
  Forall addr_ok tr ->
  exists st', replayTrace tr st = Some st' /\ reach (n + accesses tr) st' /\
    runs_geometry (s st') (E st') (b st').
Proof.
  intros Hreach Hg Hok. revert n st Hreach Hg.
  induction Hok as [|[o A] tr HA Hok IH]; intros n st Hreach Hg.
  - exists st. split; [reflexivity |]. split; [| exact Hg].
    replace (n + accesses []) with n by (unfold accesses; cbn; lia).
    exact Hreach.
  - unfold addr_ok in HA. cbn [snd] in HA.
    destruct (reach_access n st A Hreach Hg HA) as (st1 & Hacc1 & Hreach1 & Hg1).
    destruct o.
    + destruct (IH _ _ Hreach1 Hg1) as (st' & Hrep & Hr' & Hg').
      exists st'. cbn [replayTrace replay_event fst snd].
      rewrite Hacc1. cbn [mbind option_bind].
      split; [exact Hrep |]. split; [| exact Hg'].
      replace (n + accesses ((Load, A) :: tr)) with (n + 1 + accesses tr)
        by (unfold accesses; cbn; lia).
      exact Hr'.
    + destruct (IH _ _ Hreach1 Hg1) as (st' & Hrep & Hr' & Hg').
      exists st'. cbn [replayTrace replay_event fst snd].
      rewrite Hacc1. cbn [mbind option_bind].
      split; [exact Hrep |]. split; [| exact Hg'].
      replace (n + accesses ((Store, A) :: tr)) with (n + 1 + accesses tr)
        by (unfold accesses; cbn; lia).
      exact Hr'.
    + destruct (reach_access _ st1 A Hreach1 Hg1 HA)
        as (st2 & Hacc2 & Hreach2 & Hg2).
      destruct (IH _ _ Hreach2 Hg2) as (st' & Hrep & Hr' & Hg').
      exists st'. cbn [replayTrace replay_event fst snd].
      rewrite Hacc1. cbn [mbind option_bind].
      rewrite Hacc2. cbn [mbind option_bind].
      split; [exact Hrep |]. split; [| exact Hg'].
      replace (n + accesses ((Modify, A) :: tr)) with (n + 1 + 1 + accesses tr)
        by (unfold accesses; cbn; lia).
      exact Hr'.
    + destruct (IH _ _ Hreach Hg) as (st' & Hrep & Hr' & Hg').
      exists st'. cbn [replayTrace replay_event fst snd mbind option_bind].
      split; [exact Hrep |]. split; [| exact Hg'].
      replace (n + accesses ((InstructionFetch, A) :: tr))
        with (n + accesses tr) by (unfold accesses; cbn; lia).
      exact Hr'.
Qed.

Lemma replay_reach n st tr :
  reach n st ->
  runs_geometry (s st) (E st) (b st) ->
  Forall addr_ok tr ->
  exists st', replayTrace tr st = Some st' /\ reach (n + accesses tr) st'.
Proof.
  intros Hreach Hg Hok.
  destruct (replay_runs n st tr Hreach Hg Hok) as (st' & Hrep & Hr & _).
  exists st'. split; assumption.
Qed.

(** A fresh cache of a geometry with [s + b <= 31], and its replay. *)
Lemma fresh_runs s0 E0 b0 st0 :
  runs_geometry s0 E0 b0 -> initCache s0 E0 b0 = Some st0 ->
  reach 0 st0 /\ runs_geometry (s st0) (E st0) (b st0).
Proof.
  intros Hg Hinit. split; [eapply reach_fresh; eassumption |].
  destruct (initCache_geometry _ _ _ _ Hinit) as (-> & -> & ->). exact Hg.
Qed.

(** ** Long runs of hits on one line *)

Lemma hit_once st A t setNum (ls : cache_set_t) k ln :
  wf_lines st ->
  decode (s st) (b st) A = Some (t, setNum) ->
  cache st !! Z.to_nat setNum = Some ls ->
  ls !! k = Some ln ->
  holds t ln ->
  set_max ls < INT_MAX ->
  hit_cnt st < INT_MAX ->
  accessData A st = Some (st_hits st setNum ls k ln 1).
Proof.
  intros Hwf Hdec Hset Hk Hholds Hmax Hhits.
  pose proof Hwf as (_ & Hsets & Hh & _).
  pose proof (Hsets _ _ Hset) as Hls.
  assert (Hne : ls <> []) by (intros ->; discriminate).
  rewrite (accessData_hit st A t setNum ls k ln); try assumption.
  - unfold st_hit, st_hits. rewrite (incr_counter _ Hh Hhits).
    rewrite wrap_int_id; [reflexivity |].
    pose proof (set_max_is_int _ ls Hls Hne) as [Hlo _]. lia.
  - apply Hls.
  - apply holdsb_true, Hholds.
  - intros j ln' Hjk Hj. apply holdsb_false. intros [Ht Hv].
    destruct Hholds as [Ht0 Hv0]. destruct Hls as (_ & _ & Htags & _).
    apply Hjk. eapply (Htags j k ln' ln); congruence.
Qed.

Lemma hit_run n st A t setNum (ls : cache_set_t) k ln (m : nat) :
  reach n st ->
  0 <= A < 2 ^ 64 ->
  decode (s st) (b st) A = Some (t, setNum) ->
  cache st !! Z.to_nat setNum = Some ls ->
  ls !! k = Some ln ->
  holds t ln ->
  set_max ls + Z.of_nat (S m) <= INT_MAX ->
  hit_cnt st + Z.of_nat (S m) <= INT_MAX ->
  reach (n + Z.of_nat (S m)) (st_hits st setNum ls k ln (Z.of_nat (S m))).
Proof.
  intros Hreach HA Hdec Hset Hk Hholds.
  pose proof (lookup_lt_Some _ _ _ Hk) as Hklt.
  pose proof (lookup_lt_Some _ _ _ Hset) as Hslt.
  induction m as [|m IH]; intros Hmax Hhits.
  - eapply reach_step; [exact Hreach | exact HA |].
    eapply (hit_once st A t setNum ls k ln); try eassumption; try lia.
    eapply reach_lines, Hreach.
  - replace (n + Z.of_nat (S (S m))) with (n + Z.of_nat (S m) + 1) by lia.
    eapply reach_step; [apply IH; lia | exact HA |].
    set (c := set_max ls + Z.of_nat (S m)).
    set (ln1 := {| valid := valid ln; tag := tag ln; count := c |}).
    rewrite (hit_once _ A t setNum (<[k := ln1]> ls) k ln1).
    + f_equal. unfold st_hits. cbn [s E b hit_cnt miss_cnt evict_cnt cache].
      unfold ln1 at 2 3. cbn [valid tag].
      rewrite (set_max_insert_top ls k ln) by
        (try exact Hk; intros ln' Hin; pose proof (set_max_ge ls ln' Hin);
         unfold c; lia).
      rewrite !list_insert_insert_eq. unfold c. f_equal; try lia.
      do 3 f_equal. lia.
    + eapply reach_lines. apply IH; lia.
    + exact Hdec.
    + cbn [cache st_hits]. fold c. fold ln1. apply list_lookup_insert_eq, Hslt.
    + apply list_lookup_insert_eq, Hklt.
    + destruct Hholds as [Ht Hv]. split; assumption.
    + unfold ln1. rewrite (set_max_insert_top ls k ln) by
        (try exact Hk; intros ln' Hin; pose proof (set_max_ge ls ln' Hin);
         unfold c; lia).
      unfold c. lia.
    + cbn [hit_cnt st_hits]. lia.
Qed.

Lemma hit_run_Z n st A t setNum (ls : cache_set_t) k ln m n' st' :
  reach n st ->
  0 <= A < 2 ^ 64 ->
  decode (s st) (b st) A = Some (t, setNum) ->
  cache st !! Z.to_nat setNum = Some ls ->
  ls !! k = Some ln ->
  holds t ln ->
  1 <= m ->
  set_max ls + m <= INT_MAX ->
  hit_cnt st + m <= INT_MAX ->
  n' = n + m ->
  st' = st_hits st setNum ls k ln m ->
  reach n' st'.
Proof.
  intros Hreach HA Hdec Hset Hk Hholds Hm Hmax Hhits -> ->.
  assert (Heq : m = Z.of_nat (S (Z.to_nat (m - 1)))) by lia.
  rewrite Heq. apply (hit_run n st A t); try assumption; lia.
Qed.

Lemma fresh_two_sets E0 :
  1 <= E0 ->
  reach 0 (two_sets E0 0 0 0 (replicate (Z.to_nat E0) empty_line)
             (replicate (Z.to_nat E0) empty_line)).
Proof.
  intros HE. apply (reach_init 1 E0 1); [lia | lia | lia |].
  reflexivity.
Qed.

Lemma st_one_line_top_reach : reach INT_MAX st_one_line_top.
Proof.
  pose proof (fresh_two_sets 1 ltac:(lia)) as H0.
  pose proof (reach_eval _ _ 0 (two_sets 1 0 1 0 [line 0 1] [empty_line]) 1
                H0 ltac:(lia) ltac:(by_eval) ltac:(reflexivity)) as H1.
  eapply (hit_run_Z _ _ 0 0 0 [line 0 1] 0%nat (line 0 1) (INT_MAX - 1));
    [exact H1 | lia | by_eval | by_eval | by_eval | by split
    | zconst | by_le | by_le | by_eval | by_eval ].
Qed.

Lemma st_hits_top_reach : reach (INT_MAX + 1) st_hits_top.
Proof.
  apply (reach_eval INT_MAX st_one_line_top 0);
    [apply st_one_line_top_reach | lia | by_eval | reflexivity].
Qed.

Lemma st_free_line_top_reach : reach INT_MAX st_free_line_top.
Proof.
  pose proof (fresh_two_sets 2 ltac:(lia)) as H0.
  pose proof (reach_eval _ _ 0
                (two_sets 2 0 1 0 [line 0 1; empty_line]
                   [empty_line; empty_line]) 1
                H0 ltac:(lia) ltac:(by_eval) ltac:(reflexivity)) as H1.
  eapply (hit_run_Z _ _ 0 0 0 [line 0 1; empty_line] 0%nat (line 0 1)
            (INT_MAX - 1));
    [exact H1 | lia | by_eval | by_eval | by_eval | by split
    | zconst | by_le | by_le | by_eval | by_eval ].
Qed.

Lemma st_two_lines_top_reach : reach INT_MAX st_two_lines_top.
Proof.
  pose proof (fresh_two_sets 2 ltac:(lia)) as H0.
  pose proof (reach_eval _ _ 0
                (two_sets 2 0 1 0 [line 0 1; empty_line]
                   [empty_line; empty_line]) 1
                H0 ltac:(lia) ltac:(by_eval) ltac:(reflexivity)) as H1.
  pose proof (reach_eval _ _ 4
                (two_sets 2 0 2 0 [line 0 1; line 1 2]
                   [empty_line; empty_line]) 2
                H1 ltac:(lia) ltac:(by_eval) ltac:(reflexivity)) as H2.
  eapply (hit_run_Z _ _ 4 1 0 [line 0 1; line 1 2] 1%nat (line 1 2)
            (INT_MAX - 2));
    [exact H2 | lia | by_eval | by_eval | by_eval | by split
    | zconst | by_le | by_le | by_eval | by_eval ].
Qed.

Lemma st_three_lines_top_reach : reach INT_MAX st_three_lines_top.
Proof.
  pose proof (fresh_two_sets 3 ltac:(lia)) as H0.
  pose proof (reach_eval _ _ 4
                (two_sets 3 0 1 0 [line 1 1; empty_line; empty_line]
                   [empty_line; empty_line; empty_line]) 1
                H0 ltac:(lia) ltac:(by_eval) ltac:(reflexivity)) as H1.
  pose proof (reach_eval _ _ 8
                (two_sets 3 0 2 0 [line 1 1; line 2 2; empty_line]
                   [empty_line; empty_line; empty_line]) 2
                H1 ltac:(lia) ltac:(by_eval) ltac:(reflexivity)) as H2.
  pose proof (reach_eval _ _ 0
                (two_sets 3 0 3 0 [line 1 1; line 2 2; line 0 3]
                   [empty_line; empty_line; empty_line]) 3
                H2 ltac:(lia) ltac:(by_eval) ltac:(reflexivity)) as H3.
  eapply (hit_run_Z _ _ 0 0 0 [line 1 1; line 2 2; line 0 3] 2%nat (line 0 3)
            (INT_MAX - 3));
    [exact H3 | lia | by_eval | by_eval | by_eval | by split
    | zconst | by_le | by_le | by_eval | by_eval ].
Qed.

(** ** Long runs of misses *)

Lemma miss_trace_S n :
  miss_trace (S n) = miss_trace n ++ [(Load, 4 * Z.of_nat n)].
Proof. unfold miss_trace. rewrite seq_S, map_app. reflexivity. Qed.

Lemma miss_trace_count n :
  count_op Load (miss_trace n) = Z.of_nat n /\
  count_op Store (miss_trace n) = 0 /\
  count_op Modify (miss_trace n) = 0.
Proof.
  induction n as [|n (IH1 & IH2 & IH3)]; [repeat split |].
  rewrite miss_trace_S, !count_op_app, IH1, IH2, IH3. cbn. lia.
Qed.

Lemma miss_trace_ok n : Z.of_nat n <= 2 ^ 31 -> Forall addr_ok (miss_trace n).
Proof.
  induction n as [|n IH]; intros Hn; [constructor |].
  rewrite miss_trace_S. apply Forall_app. split; [apply IH; lia |].
  constructor; [| constructor]. unfold addr_ok. cbn [snd]. lia.
Qed.

Lemma miss_step n :
  1 <= n < INT_MAX ->
  accessData (4 * n) (miss_state n) = Some (miss_state (n + 1)).
Proof.
  intros Hn.
  assert (Hdec : decode 1 1 (4 * n) = Some (n, 0)).
  { rewrite (decode_valid 1 1 1) by (unfold valid_geometry; lia).
    change (2 ^ 1) with 2. f_equal. f_equal; Z.div_mod_to_equations; lia. }
  rewrite (accessData_evict (miss_state n) (4 * n) n 0 [line (n - 1) n] 0%nat
             (line (n - 1) n)).
  - unfold st_evict, miss_state, two_sets, line.
    cbn [s E b hit_cnt miss_cnt evict_cnt cache valid set_max max_from foldl
         count].
    rewrite Z.max_id.
    rewrite !wrap_int_id by (unfold INT_MIN, INT_MAX in *; lia).
    replace (n + 1 - 1) with n by lia. replace (n - 1 + 1) with n by lia.
    reflexivity.
  - exact Hdec.
  - reflexivity.
  - reflexivity.
  - intros [|j] ln' Hj; cbn in Hj; [| discriminate]. injection Hj as <-.
    unfold holdsb, line. cbn [tag]. apply andb_false_iff. left.
    apply Z.eqb_neq. lia.
  - intros [|j] ln' Hj; cbn in Hj; [| discriminate]. injection Hj as <-.
    reflexivity.
  - reflexivity.
  - cbn. lia.
  - intros j ln' Hj. lia.
Qed.

Lemma miss_run n :
  (1 <= n)%nat ->
  Z.of_nat n <= INT_MAX ->
  replayTrace (miss_trace n) (two_sets 1 0 0 0 [empty_line] [empty_line]) =
    Some (miss_state (Z.of_nat n)).
Proof.
  induction n as [|n IH]; intros H1 Hn; [lia |].
  destruct n as [|n]; [by_eval |].
  rewrite miss_trace_S, replayTrace_app, IH by lia.
  cbn [mbind option_bind replayTrace replay_event fst snd].
  rewrite miss_step by lia. cbn [mbind option_bind].
  do 2 f_equal. lia.
Qed.

Lemma miss_run_Z z :
  1 <= z <= INT_MAX ->
  replayTrace (miss_trace (Z.to_nat z))
    (two_sets 1 0 0 0 [empty_line] [empty_line]) = Some (miss_state z).
Proof.
  intros Hz. rewrite miss_run by lia. do 2 f_equal. lia.
Qed.

Lemma miss_trace_succ_Z z :
  0 <= z ->
  miss_trace (Z.to_nat (z + 1)) = miss_trace (Z.to_nat z) ++ [(Load, 4 * z)].
Proof.
  intros Hz. rewrite Z2Nat.inj_add by lia. rewrite Nat.add_1_r.
  rewrite miss_trace_S. do 4 f_equal. lia.
Qed.

Lemma miss_trace_count_Z z :
  0 <= z ->
  count_op Load (miss_trace (Z.to_nat z)) + count_op Store (miss_trace (Z.to_nat z))
    + 2 * count_op Modify (miss_trace (Z.to_nat z)) = z.
Proof.
  intros Hz. destruct (miss_trace_count (Z.to_nat z)) as (-> & -> & ->). lia.
Qed.

Lemma miss_trace_accesses_Z z :
  0 <= z -> accesses (miss_trace (Z.to_nat z)) = z.
Proof. intros Hz. unfold accesses. apply miss_trace_count_Z, Hz. Qed.

Lemma miss_trace_ok_Z z :
  0 <= z <= 2 ^ 31 -> Forall addr_ok (miss_trace (Z.to_nat z)).
Proof. intros Hz. apply miss_trace_ok. lia. Qed.

Lemma miss_wrap_replay :
  replayTrace (miss_trace (Z.to_nat (INT_MAX + 1)))
    (two_sets 1 0 0 0 [empty_line] [empty_line]) = Some st_miss_wrap.
Proof.
  rewrite miss_trace_succ_Z by (unfold INT_MAX; lia).
  rewrite replayTrace_app, miss_run_Z by (unfold INT_MAX; lia).
  cbn [mbind option_bind]. by_eval.
Qed.

Lemma miss_state_reach z :
  1 <= z <= INT_MAX -> reach z (miss_state z).
Proof.
  intros Hz.
  assert (H0 : reach 0 (two_sets 1 0 0 0 [empty_line] [empty_line]))
    by (apply (reach_init 1 1 1); [lia | lia | lia | reflexivity]).
  pose proof (miss_run_Z z Hz) as Hrep.
  pose proof (miss_trace_accesses_Z z ltac:(lia)) as Hcount.
  pose proof (miss_trace_ok_Z z ltac:(unfold INT_MAX in Hz; lia)) as Hok.
  revert Hrep Hcount Hok.
  generalize (miss_trace (Z.to_nat z)). intros tr Hrep Hcount Hok.
  destruct (replay_reach 0 _ tr H0 ltac:(cbn; unfold runs_geometry; lia) Hok)
    as (st' & Hrep' & Hreach).
  rewrite Hrep in Hrep'. injection Hrep' as <-.
  rewrite Hcount in Hreach. exact Hreach.
Qed.

Lemma st_miss_wrap_reach : reach (INT_MAX + 1) st_miss_wrap.
Proof.
  apply (reach_eval INT_MAX (miss_state INT_MAX) (4 * INT_MAX));
    [apply miss_state_reach; unfold INT_MAX; lia | unfold INT_MAX; lia
    | by_eval | reflexivity].
Qed.

(** ** Short runs *)

Lemma st_two_ways_reach : reach 2 st_two_ways.
Proof.
  pose proof (fresh_two_sets 2 ltac:(lia)) as H0.
  pose proof (reach_eval _ _ 0
                (two_sets 2 0 1 0 [line 0 1; empty_line]
                   [empty_line; empty_line]) 1
                H0 ltac:(lia) ltac:(by_eval) ltac:(reflexivity)) as H1.
  apply (reach_eval _ _ 4 _ 2 H1); [lia | by_eval | reflexivity].
Qed.

Lemma st_two_ways_hit_reach : reach 3 st_two_ways_hit.
Proof.
  apply (reach_eval _ _ 0 _ 3 st_two_ways_reach); [lia | by_eval | reflexivity].
Qed.

Lemma st_three_ways_reach : reach 1 st_three_ways.
Proof.
  pose proof (fresh_two_sets 3 ltac:(lia)) as H0.
  apply (reach_eval _ _ 0 _ 1 H0); [lia | by_eval | reflexivity].
Qed.

Lemma st_evicted_reach : reach 3 st_evicted.
Proof.
  pose proof (fresh_two_sets 1 ltac:(lia)) as H0.
  pose proof (reach_eval _ _ 0 (two_sets 1 0 1 0 [line 0 1] [empty_line]) 1
                H0 ltac:(lia) ltac:(by_eval) ltac:(reflexivity)) as H1.
  pose proof (reach_eval _ _ 4 (two_sets 1 0 2 1 [line 1 2] [empty_line]) 2
                H1 ltac:(lia) ltac:(by_eval) ltac:(reflexivity)) as H2.
  apply (reach_eval _ _ 8 _ 3 H2); [lia | by_eval | reflexivity].
Qed.

(** ** A geometry on which no access returns *)

Lemma st_zero_product_reach : reach 0 st_zero_product.
Proof. apply (reach_init 2 1 30); [lia | lia | lia | reflexivity]. Qed.

(** With [s = 2] and [b = 30] the divisor [B * S] is 0: every call
    ends in the division of line 123. *)
Lemma st_zero_product_access A : accessData A st_zero_product = None.
Proof.
  unfold accessData, decode. cbn [s b st_zero_product].
  replace (shl_int 2 (2 - 1)) with (Some 4) by reflexivity.
  replace (shl_int 2 (30 - 1)) with (Some 1073741824) by reflexivity.
  cbn [mbind option_bind].
  replace (to_ull (wrap_int (1073741824 * 4))) with 0 by reflexivity.
  reflexivity.
Qed.

(** ** C1: the miss path with a full set *)

(** C1, as amended: in every reachable state, for an access whose
    decoded set is full and has no valid line with the decoded tag,
    where all counts of the set and the eviction counter are below
    [INT_MAX], [accessData] picks the line of minimum count, the first
    such from the left, overwrites its tag with the decoded tag, gives
    it a count greater than every count of the set and adds exactly
    one to the eviction counter. *)
Theorem C1_evict_lru st A t setNum (ls : cache_set_t) :
  reachable st ->
  decode (s st) (b st) A = Some (t, setNum) ->
  cache st !! Z.to_nat setNum = Some ls ->
  (forall ln, ln ∈ ls -> valid ln = "1"%char) ->
  (forall ln, ln ∈ ls -> ~ holds t ln) ->
  (forall ln, ln ∈ ls -> count ln < INT_MAX) ->
  evict_cnt st < INT_MAX ->
  exists st' k victim c,
    accessData A st = Some st' /\
    ls !! k = Some victim /\
    (forall ln, ln ∈ ls -> count victim <= count ln) /\
    (forall j ln, (j < k)%nat -> ls !! j = Some ln -> count victim < count ln) /\
    cache st' =
      <[Z.to_nat setNum :=
          <[k := {| valid := valid victim; tag := t; count := c |}]> ls]>
        (cache st) /\
    (forall ln, ln ∈ ls -> count ln < c) /\
    evict_cnt st' = evict_cnt st + 1.
Proof.
  intros Hreach Hdec Hset Hfull Hno Hcounts Hev.
  destruct (reachable_set st _ ls Hreach Hset) as (Hwf & Hls & Hne).
  pose proof Hls as (Hlen & _).
  destruct (next_recency _ ls Hls Hne Hcounts) as [_ Hnext].
  destruct (set_min_attained ls Hne) as (lm & Hin & Hcm).
  destruct (first_index (fun ln => count ln =? set_min ls) ls)
    as [Hnone | (k & victim & Hk & Hb & Hfirst)].
  { apply list_elem_of_lookup in Hin as [j Hj].
    apply Hnone in Hj. apply Z.eqb_neq in Hj. congruence. }
  apply Z.eqb_eq in Hb.
  exists (st_evict st setNum ls k victim t), k, victim,
    (wrap_int (set_max ls + 1)).
  split; [| repeat split].
  - eapply accessData_evict; try eassumption.
    + intros j ln' Hj. apply holdsb_false. eapply Hno, list_elem_of_lookup_2, Hj.
    + intros j ln' Hj. rewrite (Hfull ln') by (eapply list_elem_of_lookup_2, Hj).
      reflexivity.
    + intros j ln' Hlt Hj. eapply Z.eqb_neq, Hfirst; eassumption.
  - exact Hk.
  - intros ln Hl. rewrite Hb. apply set_min_le, Hl.
  - intros j ln Hlt Hj. rewrite Hb.
    pose proof (Hfirst j ln Hlt Hj) as Hn. apply Z.eqb_neq in Hn.
    pose proof (set_min_le ls ln (list_elem_of_lookup_2 _ _ _ Hj)). lia.
  - exact Hnext.
  - cbn [evict_cnt st_evict]. apply incr_counter; [apply Hwf | exact Hev].
Qed.

Lemma C1_evict_lru_witness :
  reachable st_two_ways_hit /\
  exists st' k victim c,
    accessData 8 st_two_ways_hit = Some st' /\
    [line 0 3; line 1 2] !! k = Some victim /\
    (forall ln, ln ∈ [line 0 3; line 1 2] -> count victim <= count ln) /\
    (forall j ln, (j < k)%nat -> [line 0 3; line 1 2] !! j = Some ln ->
       count victim < count ln) /\
    cache st' =
      <[Z.to_nat 0 :=
          <[k := {| valid := valid victim; tag := 2; count := c |}]>
            [line 0 3; line 1 2]]>
        (cache st_two_ways_hit) /\
    (forall ln, ln ∈ [line 0 3; line 1 2] -> count ln < c) /\
    evict_cnt st' = evict_cnt st_two_ways_hit + 1.
Proof.
  assert (Hr : reachable st_two_ways_hit)
    by (exists 3; apply st_two_ways_hit_reach).
  split; [exact Hr |].
  apply (C1_evict_lru _ 8 2 0 [line 0 3; line 1 2] Hr); try reflexivity.
  - intros ln Hin. members Hin; reflexivity.
  - intros ln Hin [Ht _]. members Hin; discriminate.
  - intros ln Hin. members Hin; reflexivity.
Defined.

(** C1 fails as stated, in two ways.  With one line per set, after
    [INT_MAX] accesses to address 0 the line of set 0 has count
    [INT_MAX]; the access to address 4 (set 0, tag 1) evicts it and the
    new count is [INT_MAX + 1] reduced to an [int], that is [INT_MIN]:
    it is below the previous maximum.  And after [2 ^ 31] accesses that
    all miss, the eviction counter is [INT_MAX]; the next eviction
    leaves it at [INT_MIN]. *)
Lemma C1_counterexample :
  (reachable st_one_line_top /\
   decode (s st_one_line_top) (b st_one_line_top) 4 = Some (1, 0) /\
   cache st_one_line_top !! 0%nat = Some [line 0 INT_MAX] /\
   accessData 4 st_one_line_top =
     Some (two_sets 1 (INT_MAX - 1) 2 1 [line 1 INT_MIN] [empty_line]) /\
   INT_MIN < INT_MAX) /\
  (reachable st_miss_wrap /\
   decode (s st_miss_wrap) (b st_miss_wrap) 0 = Some (0, 0) /\
   cache st_miss_wrap !! 0%nat = Some [line INT_MAX INT_MIN] /\
   evict_cnt st_miss_wrap = INT_MAX /\
   accessData 0 st_miss_wrap =
     Some (two_sets 1 0 (INT_MIN + 1) INT_MIN [line 0 (INT_MIN + 1)]
             [empty_line]) /\
   INT_MIN <> INT_MAX + 1).
Proof.
  split.
  - split; [exists INT_MAX; apply st_one_line_top_reach |].
    repeat (split; [by_eval |]). reflexivity.
  - split; [exists (INT_MAX + 1); apply st_miss_wrap_reach |].
    repeat (split; [by_eval |]). discriminate.
Qed.

(** ** C2: the hit path *)

(** C2, as amended: in every reachable state, for an access whose
    decoded set contains a valid line with the decoded tag, where all
    counts of the set and the hit counter are below [INT_MAX],
    [accessData] adds exactly one to the hit counter, gives that line a
    count greater than the count of every other line of the set, and
    changes no valid flag and no tag. *)
Theorem C2_hit st A t setNum (ls : cache_set_t) k ln :
  reachable st ->
  decode (s st) (b st) A = Some (t, setNum) ->
  cache st !! Z.to_nat setNum = Some ls ->
  ls !! k = Some ln ->
  holds t ln ->
  (forall ln', ln' ∈ ls -> count ln' < INT_MAX) ->
  hit_cnt st < INT_MAX ->
  exists st' c,
    accessData A st = Some st' /\
    hit_cnt st' = hit_cnt st + 1 /\
    cache st' =
      <[Z.to_nat setNum :=
          <[k := {| valid := valid ln; tag := tag ln; count := c |}]> ls]>
        (cache st) /\
    (forall j ln', j <> k -> ls !! j = Some ln' -> count ln' < c).
Proof.
  intros Hreach Hdec Hset Hk Hholds Hcounts Hhits.
  destruct (reachable_set st _ ls Hreach Hset) as (Hwf & Hls & Hne).
  pose proof Hls as (Hlen & _).
  destruct (next_recency _ ls Hls Hne Hcounts) as [_ Hnext].
  exists (st_hit st setNum ls k ln), (wrap_int (set_max ls + 1)).
  split; [| split; [| split]].
  - apply (accessData_hit st A t setNum ls k ln); try assumption.
    + apply holdsb_true, Hholds.
    + intros j ln' Hjk Hj. apply holdsb_false. intros [Ht Hv].
      destruct Hholds as [Ht0 Hv0]. destruct Hls as (_ & _ & Htags & _).
      apply Hjk. eapply (Htags j k ln' ln); congruence.
  - cbn [hit_cnt st_hit]. apply incr_counter; [apply Hwf | exact Hhits].
  - reflexivity.
  - intros j ln' _ Hj. eapply Hnext, list_elem_of_lookup_2, Hj.
Qed.

Lemma C2_hit_witness :
  reachable st_two_ways /\
  exists st' c,
    accessData 0 st_two_ways = Some st' /\
    hit_cnt st' = hit_cnt st_two_ways + 1 /\
    cache st' =
      <[Z.to_nat 0 :=
          <[0%nat := {| valid := valid (line 0 1); tag := tag (line 0 1);
                        count := c |}]> [line 0 1; line 1 2]]>
        (cache st_two_ways) /\
    (forall j ln', j <> 0%nat -> [line 0 1; line 1 2] !! j = Some ln' ->
       count ln' < c).
Proof.
  assert (Hr : reachable st_two_ways) by (exists 2; apply st_two_ways_reach).
  split; [exact Hr |].
  apply (C2_hit _ 0 0 0 [line 0 1; line 1 2] 0%nat (line 0 1) Hr);
    try reflexivity.
  - split; reflexivity.
  - intros ln Hin. members Hin; reflexivity.
Defined.

(** C2 fails as stated, in two ways.  With two lines per set, after one
    access to address 0 and [INT_MAX - 1] accesses to address 4, line 1
    of set 0 has count [INT_MAX]; the hit on address 0 gives line 0 the
    count [INT_MIN], which is below the count of line 1.  And with one
    line per set, after [2 ^ 31] accesses to address 0 the hit counter
    is [INT_MAX]; the next hit leaves it at [INT_MIN]. *)
Lemma C2_counterexample :
  (reachable st_two_lines_top /\
   decode (s st_two_lines_top) (b st_two_lines_top) 0 = Some (0, 0) /\
   cache st_two_lines_top !! 0%nat = Some [line 0 1; line 1 INT_MAX] /\
   accessData 0 st_two_lines_top =
     Some (two_sets 2 (INT_MAX - 1) 2 0 [line 0 INT_MIN; line 1 INT_MAX]
             [empty_line; empty_line]) /\
   INT_MIN < INT_MAX) /\
  (reachable st_hits_top /\
   decode (s st_hits_top) (b st_hits_top) 0 = Some (0, 0) /\
   cache st_hits_top !! 0%nat = Some [line 0 INT_MIN] /\
   hit_cnt st_hits_top = INT_MAX /\
   accessData 0 st_hits_top =
     Some (two_sets 1 INT_MIN 1 0 [line 0 (INT_MIN + 1)] [empty_line]) /\
   INT_MIN <> INT_MAX + 1).
Proof.
  split.
  - split; [exists INT_MAX; apply st_two_lines_top_reach |].
    repeat (split; [by_eval |]). reflexivity.
  - split; [exists (INT_MAX + 1); apply st_hits_top_reach |].
    repeat (split; [by_eval |]). discriminate.
Qed.

(** ** C3: the miss path with a free line *)

(** C3, as amended: in every reachable state of a cache with
    [s >= 1], [b >= 1] and [s + b <= 31], every address decodes to a
    tag and a set of the cache; if that set has no valid line with the
    decoded tag and has a line whose flag is ['0'], and all counts of
    the set and the miss counter are below [INT_MAX], [accessData]
    puts the decoded tag into the first such line, marks it valid,
    gives it a count greater than every count of the set, adds exactly
    one to the miss counter and leaves the eviction counter
    unchanged. *)
Theorem C3_fill st A :
  reachable st ->
  runs_geometry (s st) (E st) (b st) ->
  exists t setNum (ls : cache_set_t),
    decode (s st) (b st) A = Some (t, setNum) /\
    cache st !! Z.to_nat setNum = Some ls /\
    ((forall ln, ln ∈ ls -> ~ holds t ln) ->
     (exists ln, ln ∈ ls /\ valid ln = "0"%char) ->
     (forall ln, ln ∈ ls -> count ln < INT_MAX) ->
     miss_cnt st < INT_MAX ->
     exists st' k free c,
       accessData A st = Some st' /\
       ls !! k = Some free /\ valid free = "0"%char /\
       (forall j ln, (j < k)%nat -> ls !! j = Some ln ->
          valid ln <> "0"%char) /\
       cache st' =
         <[Z.to_nat setNum :=
             <[k := {| valid := "1"; tag := t; count := c |}]> ls]>
           (cache st) /\
       (forall ln, ln ∈ ls -> count ln < c) /\
       miss_cnt st' = miss_cnt st + 1 /\
       evict_cnt st' = evict_cnt st).
Proof.
  intros [n Hreach] Hg.
  pose proof (reach_wf n st Hreach Hg) as Hwf.
  destruct (decoded_set st A Hwf) as (t & ls & Hdec & Hset & Hls & Hne).
  exists t, ((A / 2 ^ b st) mod 2 ^ s st), ls.
  split; [exact Hdec |]. split; [exact Hset |].
  intros Hno (l0 & Hin0 & Hv0) Hcounts Hmiss.
  pose proof Hls as (Hlen & _).
  destruct (next_recency _ ls Hls Hne Hcounts) as [_ Hnext].
  destruct (first_index (fun ln => Ascii.eqb (valid ln) "0") ls)
    as [Hfull | (k & free & Hk & Hb & Hfirst)].
  { apply list_elem_of_lookup in Hin0 as [j Hj]. apply Hfull in Hj.
    rewrite Hv0 in Hj. discriminate. }
  exists (st_fill st ((A / 2 ^ b st) mod 2 ^ s st) ls k t), k, free,
    (wrap_int (set_max ls + 1)).
  split; [| repeat split].
  - eapply accessData_fill; try eassumption.
    intros j ln' Hj. apply holdsb_false. eapply Hno, list_elem_of_lookup_2, Hj.
  - exact Hk.
  - apply Ascii.eqb_eq, Hb.
  - intros j ln Hlt Hj Hv. pose proof (Hfirst j ln Hlt Hj) as Hf.
    rewrite Hv in Hf. discriminate.
  - exact Hnext.
  - cbn [miss_cnt st_fill]. apply incr_counter; [apply Hwf | exact Hmiss].
Qed.

Lemma C3_fill_witness :
  reachable st_three_ways /\
  runs_geometry (s st_three_ways) (E st_three_ways) (b st_three_ways) /\
  exists st' k free c,
    accessData 4 st_three_ways = Some st' /\
    [line 0 1; empty_line; empty_line] !! k = Some free /\
    valid free = "0"%char /\
    (forall j ln, (j < k)%nat ->
       [line 0 1; empty_line; empty_line] !! j = Some ln ->
       valid ln <> "0"%char) /\
    cache st' =
      <[Z.to_nat 0 :=
          <[k := {| valid := "1"; tag := 1; count := c |}]>
            [line 0 1; empty_line; empty_line]]>
        (cache st_three_ways) /\
    (forall ln, ln ∈ [line 0 1; empty_line; empty_line] -> count ln < c) /\
    miss_cnt st' = miss_cnt st_three_ways + 1 /\
    evict_cnt st' = evict_cnt st_three_ways.
Proof.
  assert (Hr : reachable st_three_ways) by (exists 1; apply st_three_ways_reach).
  assert (Hg : runs_geometry (s st_three_ways) (E st_three_ways)
                 (b st_three_ways)) by (cbn; unfold runs_geometry; lia).
  split; [exact Hr |]. split; [exact Hg |].
  destruct (C3_fill st_three_ways 4 Hr Hg) as (t & sn & ls & Hdec & Hset & H).
  vm_compute in Hdec. injection Hdec as <- <-.
  vm_compute in Hset. injection Hset as <-.
  apply H.
  - intros ln Hin [Ht Hv]. members Hin; discriminate.
  - exists empty_line. split; [| reflexivity].
    apply elem_of_cons. right. apply elem_of_cons. by left.
  - intros ln Hin. members Hin; reflexivity.
  - reflexivity.
Defined.

(** C3 fails as stated, in three ways.  With two lines per set, after
    [INT_MAX] accesses to address 0, line 0 of set 0 has count
    [INT_MAX] and line 1 is free; the access to address 4 fills line 1
    with count [INT_MIN], which is below the maximum of the set.  With
    one line per set, after [INT_MAX] accesses to set 0 that all
    miss, the miss counter is [INT_MAX]; the access to address 2 fills
    the free line of set 1 and leaves the miss counter at [INT_MIN].
    And in the fresh cache with [s = 2] and [b = 30], where
    [B * S = 2 ^ 32] is 0 as an [int], the set of address 0 has a free
    line and no valid line, but the call divides by 0: no tag is
    decoded and no line is filled. *)
Lemma C3_counterexample :
  (reachable st_free_line_top /\
   decode (s st_free_line_top) (b st_free_line_top) 4 = Some (1, 0) /\
   cache st_free_line_top !! 0%nat = Some [line 0 INT_MAX; empty_line] /\
   accessData 4 st_free_line_top =
     Some (two_sets 2 (INT_MAX - 1) 2 0 [line 0 INT_MAX; line 1 INT_MIN]
             [empty_line; empty_line]) /\
   INT_MIN < INT_MAX) /\
  (reachable (miss_state INT_MAX) /\
   decode (s (miss_state INT_MAX)) (b (miss_state INT_MAX)) 2 = Some (0, 1) /\
   cache (miss_state INT_MAX) !! 1%nat = Some [empty_line] /\
   miss_cnt (miss_state INT_MAX) = INT_MAX /\
   accessData 2 (miss_state INT_MAX) =
     Some (two_sets 1 0 INT_MIN (INT_MAX - 1) [line (INT_MAX - 1) INT_MAX]
             [line 0 1]) /\
   INT_MIN <> INT_MAX + 1) /\
  (reachable st_zero_product /\
   s st_zero_product + b st_zero_product = 32 /\
   cache st_zero_product !! 0%nat = Some [empty_line] /\
   valid empty_line = "0"%char /\
   decode (s st_zero_product) (b st_zero_product) 0 = None /\
   accessData 0 st_zero_product = None).
Proof.
  split; [| split].
  - split; [exists INT_MAX; apply st_free_line_top_reach |].
    repeat (split; [by_eval |]). reflexivity.
  - split.
    { exists INT_MAX. apply miss_state_reach. unfold INT_MAX. lia. }
    repeat (split; [by_eval |]). discriminate.
  - split; [exists 0; apply st_zero_product_reach |].
    repeat (split; [by_eval |]). apply st_zero_product_access.
Qed.

(** ** C4: address decoding *)

(** C4, as amended: for every geometry with [s >= 1], [b >= 1] and
    [s + b <= 30] (so that [B * S] fits an [int]) and every 64-bit
    address [A], the decoding of [accessData] returns, without error,
    the tag [A / (B * S)] and the set index [(A / B) mod S], where
    [B = 2 ^ b] and [S = 2 ^ s]. *)
Theorem C4_decode s0 b0 A :
  1 <= s0 -> 1 <= b0 -> s0 + b0 <= 30 ->
  0 <= A < 2 ^ 64 ->
  decode s0 b0 A = Some (A / (2 ^ b0 * 2 ^ s0), (A / 2 ^ b0) mod 2 ^ s0).
Proof.
  intros Hs Hb Hsb _. apply (decode_valid s0 1 b0 A). unfold valid_geometry. lia.
Qed.

Lemma C4_decode_witness :
  (1 <= 4 /\ 1 <= 4 /\ 4 + 4 <= 30 /\ 0 <= 4660 < 2 ^ 64) /\
  decode 4 4 4660 = Some (4660 / (2 ^ 4 * 2 ^ 4), (4660 / 2 ^ 4) mod 2 ^ 4).
Proof. split; [lia | apply (C4_decode 4 4 4660); lia]. Defined.

(** C4 fails as stated.  With [s = 15] and [b = 16] the product [B * S]
    is [2 ^ 31], which is not an [int]: the divisor becomes
    [2 ^ 64 - 2 ^ 31] and the tag of address [2 ^ 31] is 0, not 1.  With
    [s = 16] and [b = 16] the product wraps to 0 and the division has
    no result. *)
Lemma C4_counterexample :
  (1 <= 15 /\ 1 <= 16 /\ 0 <= 2 ^ 31 < 2 ^ 64 /\
   decode 15 16 (2 ^ 31) = Some (0, 0) /\
   2 ^ 31 / (2 ^ 16 * 2 ^ 15) = 1) /\
  (1 <= 16 /\ 0 <= 0 < 2 ^ 64 /\ decode 16 16 0 = None).
Proof. repeat split; try lia; vm_compute; congruence. Qed.

(** ** C5: hits plus misses *)

(** C5, as amended: for a cache with [s >= 1], [b >= 1],
    [s + b <= 31] and [E >= 1], and every trace that makes at most
    [INT_MAX] calls of [accessData], replayed on the fresh cache, the
    replay returns and the hit counter plus the miss counter is the
    number of loads plus the number of stores plus twice the number of
    modifies; and, if the trace makes fewer than [INT_MAX] calls, a
    further call adds one to exactly one of the hit counter and the
    miss counter and leaves the other unchanged. *)
Theorem C5_hits_plus_misses s0 E0 b0 st0 tr :
  runs_geometry s0 E0 b0 ->
  initCache s0 E0 b0 = Some st0 ->
  Forall addr_ok tr ->
  count_op Load tr + count_op Store tr + 2 * count_op Modify tr <= INT_MAX ->
  exists st,
    replayTrace tr st0 = Some st /\
    hit_cnt st + miss_cnt st =
      count_op Load tr + count_op Store tr + 2 * count_op Modify tr /\
    forall A,
      count_op Load tr + count_op Store tr + 2 * count_op Modify tr < INT_MAX ->
      exists st',
        accessData A st = Some st' /\
        ((hit_cnt st' = hit_cnt st + 1 /\ miss_cnt st' = miss_cnt st) \/
         (hit_cnt st' = hit_cnt st /\ miss_cnt st' = miss_cnt st + 1)).
Proof.
  intros Hg Hinit Hok Hn. fold (accesses tr) in *.
  destruct (fresh_runs _ _ _ _ Hg Hinit) as [Hr0 Hg0].
  destruct (replay_runs 0 st0 tr Hr0 Hg0 Hok) as (st & Hrep & Hr & Hgst).
  rewrite Z.add_0_l in Hr.
  pose proof (reach_bounded _ _ Hr Hn) as (Hh & Hm & Hsum & _).
  exists st. split; [exact Hrep |]. split; [exact Hsum |].
  intros A Hlt. pose proof (reach_wf _ _ Hr Hgst) as Hwf.
  destruct (accessData_outcome st A Hwf) as (st' & Hacc & Hout).
  exists st'. split; [exact Hacc |].
  destruct (outcome_counters st A st' Hout)
    as [(Hh' & Hm' & _) | (Hh' & Hm' & _)]; rewrite Hh', Hm';
    rewrite !wrap_int_id by (unfold INT_MIN, INT_MAX in *; lia); auto.
Qed.

Lemma C5_hits_plus_misses_witness :
  exists st,
    replayTrace [(Load, 0); (Modify, 4); (InstructionFetch, 8); (Store, 2)]
      (two_sets 1 0 0 0 [empty_line] [empty_line]) = Some st /\
    hit_cnt st + miss_cnt st = 1 + 1 + 2 * 1.
Proof.
  destruct (C5_hits_plus_misses 1 1 1
              (two_sets 1 0 0 0 [empty_line] [empty_line])
              [(Load, 0); (Modify, 4); (InstructionFetch, 8); (Store, 2)])
    as (st & Hrep & Hsum & _).
  - unfold runs_geometry; lia.
  - reflexivity.
  - repeat constructor; unfold addr_ok; cbn; lia.
  - vm_compute; congruence.
  - exists st. split; [exact Hrep | exact Hsum].
Defined.

(** C5 fails as stated, in two ways.  With one line per set, the trace
    of [2 ^ 31] loads of the addresses 0, 4, 8, ... misses every time:
    the miss counter is [2 ^ 31] reduced to an [int], that is
    [INT_MIN], the hit counter is 0, and their sum is not the number
    of loads.  And with [s = 2] and [b = 30], which [main] accepts and
    for which [initCache] builds the cache, the replay of a single
    load does not return: [B * S = 2 ^ 32] is 0 as an [int] and the
    call divides by it, so there are no final counters. *)
Lemma C5_counterexample :
  (initCache 1 1 1 = Some (two_sets 1 0 0 0 [empty_line] [empty_line]) /\
   Forall addr_ok (miss_trace (Z.to_nat (INT_MAX + 1))) /\
   count_op Load (miss_trace (Z.to_nat (INT_MAX + 1)))
     + count_op Store (miss_trace (Z.to_nat (INT_MAX + 1)))
     + 2 * count_op Modify (miss_trace (Z.to_nat (INT_MAX + 1))) = 2 ^ 31 /\
   replayTrace (miss_trace (Z.to_nat (INT_MAX + 1)))
     (two_sets 1 0 0 0 [empty_line] [empty_line]) = Some st_miss_wrap /\
   hit_cnt st_miss_wrap + miss_cnt st_miss_wrap = - 2 ^ 31) /\
  (main_start [Got_s 2; Got_E 1; Got_b 30; Got_t []] =
     Go {| opt_s := 2; opt_E := 1; opt_b := 30; opt_verbosity := 0;
           opt_trace_file := Some [] |} /\
   initCache 2 1 30 = Some st_zero_product /\
   Forall addr_ok [(Load, 0)] /\
   count_op Load [(Load, 0)] + count_op Store [(Load, 0)]
     + 2 * count_op Modify [(Load, 0)] = 1 /\
   replayTrace [(Load, 0)] st_zero_product = None).
Proof.
  split.
  - split; [reflexivity |]. split.
    { apply miss_trace_ok_Z. unfold INT_MAX. lia. }
    split.
    { rewrite miss_trace_count_Z by (unfold INT_MAX; lia). reflexivity. }
    split; [apply miss_wrap_replay | reflexivity].
  - split; [reflexivity |]. split; [reflexivity |]. split.
    { repeat constructor; unfold addr_ok; cbn; lia. }
    split; [reflexivity |].
    cbn [replayTrace replay_event fst snd].
    rewrite st_zero_product_access. reflexivity.
Qed.

(** ** C6: evictions and misses *)

(** C6, as amended: in every state reached by at most [INT_MAX] calls
    of [accessData] on a fresh cache, the eviction counter is at most
    the miss counter; and a further call, if fewer than [INT_MAX] calls
    were made, either leaves the eviction counter unchanged or adds
    one to it and one to the miss counter. *)
Theorem C6_evictions_le_misses n st :
  reach n st ->
  n <= INT_MAX ->
  evict_cnt st <= miss_cnt st /\
  forall A st',
    n < INT_MAX ->
    accessData A st = Some st' ->
    evict_cnt st' = evict_cnt st \/
    (evict_cnt st' = evict_cnt st + 1 /\ miss_cnt st' = miss_cnt st + 1).
Proof.
  intros Hreach Hn.
  pose proof (reach_bounded n st Hreach Hn) as (Hh & Hm & Hsum & He & _).
  split; [lia |]. intros A st' Hlt Hacc.
  pose proof (accessData_inv_lines st A st' (reach_lines n st Hreach) Hacc)
    as Hout.
  destruct (outcome_counters st A st' Hout)
    as [(_ & _ & He') | (_ & Hm' & [He' | He'])]; auto.
  right. rewrite He', Hm'.
  rewrite !wrap_int_id by (unfold INT_MIN, INT_MAX in *; lia). auto.
Qed.

Lemma C6_evictions_le_misses_witness :
  reach 3 st_evicted /\
  3 <= INT_MAX /\
  evict_cnt st_evicted <= miss_cnt st_evicted /\
  accessData 12 st_evicted = Some (two_sets 1 0 4 3 [line 3 4] [empty_line]) /\
  (evict_cnt (two_sets 1 0 4 3 [line 3 4] [empty_line]) = evict_cnt st_evicted \/
   (evict_cnt (two_sets 1 0 4 3 [line 3 4] [empty_line])
      = evict_cnt st_evicted + 1 /\
    miss_cnt (two_sets 1 0 4 3 [line 3 4] [empty_line])
      = miss_cnt st_evicted + 1)).
Proof.
  assert (Hn : 3 <= INT_MAX) by (unfold INT_MAX; lia).
  assert (Hlt : 3 < INT_MAX) by (unfold INT_MAX; lia).
  assert (Hacc : accessData 12 st_evicted
                 = Some (two_sets 1 0 4 3 [line 3 4] [empty_line]))
    by (vm_compute; reflexivity).
  destruct (C6_evictions_le_misses 3 st_evicted st_evicted_reach Hn)
    as [Hle Hstep].
  split; [exact st_evicted_reach |]. split; [exact Hn |].
  split; [exact Hle |]. split; [exact Hacc |].
  exact (Hstep 12 _ Hlt Hacc).
Defined.

(** C6 fails as stated.  After the same [2 ^ 31] accesses the miss
    counter is [INT_MIN] and the eviction counter is [INT_MAX]. *)
Lemma C6_counterexample :
  reach (INT_MAX + 1) st_miss_wrap /\
  miss_cnt st_miss_wrap = INT_MIN /\
  evict_cnt st_miss_wrap = INT_MAX /\
  miss_cnt st_miss_wrap < evict_cnt st_miss_wrap.
Proof. split; [apply st_miss_wrap_reach | repeat split]. Qed.

(** ** C7: recency counts do not tie *)

(** C7, as amended: in every state reached by at most
    [INT_MAX + 1 = 2 ^ 31] calls of [accessData] on a fresh cache, two
    different valid lines of one set have different counts; and while
    fewer than [INT_MAX] calls have been made, a further call gives
    the line it writes a count greater than every count of its set. *)
Theorem C7_distinct_recency n st :
  reach n st ->
  n <= INT_MAX + 1 ->
  (forall i (ls : cache_set_t) j k lj lk,
     cache st !! i = Some ls ->
     ls !! j = Some lj ->
     ls !! k = Some lk ->
     valid lj = "1"%char ->
     valid lk = "1"%char ->
     j <> k ->
     count lj <> count lk) /\
  (forall A st',
     n < INT_MAX ->
     accessData A st = Some st' ->
     exists t setNum (ls : cache_set_t) k c,
       decode (s st) (b st) A = Some (t, setNum) /\
       cache st !! Z.to_nat setNum = Some ls /\
       (k < length ls)%nat /\
       cache st' =
         <[Z.to_nat setNum :=
             <[k := {| valid := "1"; tag := t; count := c |}]> ls]>
           (cache st) /\
       forall ln, ln ∈ ls -> count ln < c).
Proof.
  intros Hreach Hn. split.
  - intros i ls j k lj lk Hi Hj Hk Hvj Hvk Hjk Heq. apply Hjk.
    destruct Hreach as [s0 E0 b0 st Hs Hb HE Hinit | n st A st' Hreach _ Hacc].
    + pose proof (reach_init _ _ _ _ Hs Hb HE Hinit) as Hr.
      destruct (reach_bounded 0 st Hr ltac:(unfold INT_MAX; lia))
        as (_ & _ & _ & _ & Hsets).
      destruct (Hsets i ls Hi) as [_ Hd]. eapply Hd; eassumption.
    + pose proof (reach_bounded n st Hreach ltac:(lia)) as Hbd.
      pose proof (accessData_inv_lines st A st' (reach_lines n st Hreach) Hacc)
        as Hout.
      eapply (outcome_distinct n st A st' i ls j k lj lk Hbd); try eassumption.
      lia.
  - intros A st' Hlt Hacc.
    pose proof (reach_bounded n st Hreach ltac:(lia)) as (_ & _ & _ & _ & Hsets).
    pose proof (accessData_inv_lines st A st' (reach_lines n st Hreach) Hacc)
      as Hout.
    destruct (outcome_set st A st' Hout)
      as (t & sn & ls & ls' & k & ln & Hdec & Hset & Hc & _ & Hk & ->).
    assert (Hne : ls <> []) by (intros ->; discriminate).
    pose proof (set_bounded_max n ls (Hsets _ _ Hset) Hne) as Hmax.
    exists t, sn, ls, k, (wrap_int (set_max ls + 1)).
    split; [exact Hdec |]. split; [exact Hset |].
    split; [eapply lookup_lt_Some, Hk |]. split; [exact Hc |].
    intros ln0 Hin. pose proof (set_max_ge ls ln0 Hin).
    rewrite wrap_int_id by (unfold INT_MIN, INT_MAX in *; lia). lia.
Qed.

Lemma C7_distinct_recency_witness :
  reach 2 st_two_ways /\
  2 <= INT_MAX + 1 /\
  count (line 0 1) <> count (line 1 2) /\
  accessData 8 st_two_ways =
    Some (two_sets 2 0 3 1 [line 2 3; line 1 2] [empty_line; empty_line]) /\
  exists t setNum (ls : cache_set_t) k c,
    decode (s st_two_ways) (b st_two_ways) 8 = Some (t, setNum) /\
    cache st_two_ways !! Z.to_nat setNum = Some ls /\
    (k < length ls)%nat /\
    cache (two_sets 2 0 3 1 [line 2 3; line 1 2] [empty_line; empty_line]) =
      <[Z.to_nat setNum :=
          <[k := {| valid := "1"; tag := t; count := c |}]> ls]>
        (cache st_two_ways) /\
    forall ln, ln ∈ ls -> count ln < c.
Proof.
  assert (Hn : 2 <= INT_MAX + 1) by (unfold INT_MAX; lia).
  assert (Hlt : 2 < INT_MAX) by (unfold INT_MAX; lia).
  assert (Hacc : accessData 8 st_two_ways =
                 Some (two_sets 2 0 3 1 [line 2 3; line 1 2]
                         [empty_line; empty_line]))
    by (vm_compute; reflexivity).
  destruct (C7_distinct_recency 2 st_two_ways st_two_ways_reach Hn)
    as [Hdistinct Hnext].
  split; [exact st_two_ways_reach |]. split; [exact Hn |]. split.
  - apply (Hdistinct 0%nat [line 0 1; line 1 2] 0%nat 1%nat
             (line 0 1) (line 1 2));
      [reflexivity | reflexivity | reflexivity | reflexivity | reflexivity
      | lia].
  - split; [exact Hacc |]. exact (Hnext 8 _ Hlt Hacc).
Defined.

(** C7 fails as stated.  With three lines per set, once line 2 of set 0
    has count [INT_MAX], a hit on line 0 and a hit on line 1 give both
    the count [INT_MIN]: two valid lines of one set with equal
    counts, in a state reached by [INT_MAX + 2] accesses. *)
Lemma C7_counterexample :
  reach (INT_MAX + 2) st_tie /\
  cache st_tie !! 0%nat =
    Some [line 1 INT_MIN; line 2 INT_MIN; line 0 INT_MAX] /\
  valid (line 1 INT_MIN) = "1"%char /\
  valid (line 2 INT_MIN) = "1"%char /\
  count (line 1 INT_MIN) = count (line 2 INT_MIN).
Proof.
  split; [| repeat split].
  pose proof st_three_lines_top_reach as H0.
  pose proof (reach_eval _ _ 4
                (two_sets 3 (INT_MAX - 2) 3 0
                   [line 1 INT_MIN; line 2 2; line 0 INT_MAX]
                   [empty_line; empty_line; empty_line]) (INT_MAX + 1)
                H0 ltac:(lia) ltac:(by_eval) ltac:(reflexivity)) as H1.
  apply (reach_eval _ _ 8 _ _ H1); [lia | by_eval | reflexivity].
Qed.

(** ** C8: the concrete scenario *)

(** C8: with [s = 1], [E = 1], [b = 1], the accesses to [0x0], [0x2]
    and [0x4] on a fresh cache give 3 misses, 0 hits and 1 eviction;
    the first two accesses evict nothing, and the access to [0x4]
    replaces, in set 0, the line that held the tag of [0x0]. *)
Theorem C8_scenario :
  exists st0 st1 st2 st3,
    initCache 1 1 1 = Some st0 /\
    accessData 0 st0 = Some st1 /\
    accessData 2 st1 = Some st2 /\
    accessData 4 st2 = Some st3 /\
    replayTrace [(Load, 0); (Load, 2); (Load, 4)] st0 = Some st3 /\
    (hit_cnt st3, miss_cnt st3, evict_cnt st3) = (0, 3, 1) /\
    evict_cnt st2 = 0 /\
    decode 1 1 0 = Some (0, 0) /\
    decode 1 1 2 = Some (0, 1) /\
    decode 1 1 4 = Some (1, 0) /\
    cache st2 !! 0%nat = Some [{| valid := "1"; tag := 0; count := 1 |}] /\
    cache st3 !! 0%nat = Some [{| valid := "1"; tag := 1; count := 2 |}].
Proof.
  do 4 eexists.
  repeat (split; [vm_compute; reflexivity |]). vm_compute; reflexivity.
Qed.

(** ** C9: Modify is a miss, then a hit *)

(** C9, as amended: in every reachable state of a cache with
    [s >= 1], [b >= 1] and [s + b <= 31], every address decodes to a
    tag and a set of the cache; for a Modify event at an address whose
    decoded tag is not held by any valid line of its decoded set, both
    calls of [accessData] return; the first counts one miss, no hit
    and at most one eviction, and the second counts one hit, no miss
    and no eviction. *)
Theorem C9_modify_miss_then_hit st A :
  reachable st ->
  runs_geometry (s st) (E st) (b st) ->
  exists t setNum (ls : cache_set_t),
    decode (s st) (b st) A = Some (t, setNum) /\
    cache st !! Z.to_nat setNum = Some ls /\
    ((forall ln, ln ∈ ls -> ~ holds t ln) ->
     exists st1 st2,
       accessData A st = Some st1 /\
       accessData A st1 = Some st2 /\
       replay_event (Modify, A) st = Some st2 /\
       miss_call st st1 /\
       hit_call st1 st2 /\
       miss_cnt st1 <> miss_cnt st /\
       hit_cnt st2 <> hit_cnt st1).
Proof.
  intros [n Hreach] Hg.
  pose proof (reach_wf n st Hreach Hg) as Hwf.
  destruct (decoded_set st A Hwf) as (t & ls & Hdec & Hset & _).
  set (setNum := (A / 2 ^ b st) mod 2 ^ s st) in *.
  exists t, setNum, ls. split; [exact Hdec |]. split; [exact Hset |].
  intros Hno.
  destruct (accessData_outcome st A Hwf) as (st1 & Hacc1 & Hout).
  pose proof (outcome_wf st A st1 Hwf Hout) as Hwf1.
  destruct (outcome_lookup st A st1 Hwf Hout)
    as (t' & sn' & ls0 & ls1 & k & ln & Hdec' & Hset0 & Hc & Hset1 & Hk & Hls1).
  rewrite Hdec in Hdec'. injection Hdec' as <- <-.
  rewrite Hset in Hset0. injection Hset0 as <-.
  assert (Hgeo : s st1 = s st /\ b st1 = b st) by (destruct Hout; subst; auto).
  destruct Hgeo as [Hs1 Hb1].
  assert (Hmiss : miss_call st st1).
  { destruct Hout as [t' sn' ls' k' ln' Hd' Hs' Hk' Hh' ->
                     | t' sn' ls' k' ln' Hd' Hs' _ _ _ _ ->
                     | t' sn' ls' k' ln' Hd' Hs' _ _ _ _ _ ->].
    - rewrite Hdec in Hd'. injection Hd' as <- <-.
      rewrite Hset in Hs'. injection Hs' as <-.
      exfalso. eapply Hno; [eapply list_elem_of_lookup_2, Hk' | exact Hh'].
    - unfold miss_call. cbn. auto.
    - unfold miss_call. cbn. auto. }
  set (ln1 := {| valid := "1"; tag := t; count := wrap_int (set_max ls + 1) |})
    in *.
  assert (Hk1 : ls1 !! k = Some ln1).
  { rewrite Hls1. apply list_lookup_insert_eq. eapply lookup_lt_Some, Hk. }
  assert (Hacc2 : accessData A st1 = Some (st_hit st1 setNum ls1 k ln1)).
  { apply (accessData_hit_wf st1 A t setNum ls1 k ln1); try assumption.
    - rewrite Hs1, Hb1. exact Hdec.
    - split; reflexivity. }
  exists st1, (st_hit st1 setNum ls1 k ln1).
  split; [exact Hacc1 |]. split; [exact Hacc2 |]. split.
  - cbn [replay_event fst snd]. rewrite Hacc1. cbn [mbind option_bind].
    exact Hacc2.
  - split; [exact Hmiss |]. split; [unfold hit_call; cbn; auto |].
    destruct Hmiss as (_ & Hm & _). split.
    + rewrite Hm. apply wrap_int_succ_neq.
    + cbn [hit_cnt st_hit]. apply wrap_int_succ_neq.
Qed.

Lemma C9_modify_miss_then_hit_witness :
  reachable st_evicted /\
  runs_geometry (s st_evicted) (E st_evicted) (b st_evicted) /\
  decode (s st_evicted) (b st_evicted) 12 = Some (3, 0) /\
  cache st_evicted !! Z.to_nat 0 = Some [line 2 3] /\
  exists st1 st2,
    accessData 12 st_evicted = Some st1 /\
    accessData 12 st1 = Some st2 /\
    replay_event (Modify, 12) st_evicted = Some st2 /\
    miss_call st_evicted st1 /\
    hit_call st1 st2 /\
    miss_cnt st1 <> miss_cnt st_evicted /\
    hit_cnt st2 <> hit_cnt st1.
Proof.
  assert (Hr : reachable st_evicted) by (exists 3; apply st_evicted_reach).
  assert (Hg : runs_geometry (s st_evicted) (E st_evicted) (b st_evicted))
    by (cbn; unfold runs_geometry; lia).
  split; [exact Hr |]. split; [exact Hg |].
  destruct (C9_modify_miss_then_hit st_evicted 12 Hr Hg)
    as (t & sn & ls & Hdec & Hset & H).
  vm_compute in Hdec. injection Hdec as <- <-.
  vm_compute in Hset. injection Hset as <-.
  split; [reflexivity |]. split; [reflexivity |].
  apply H. intros ln Hin [Ht Hv]. members Hin. discriminate.
Defined.

(** C9 fails as stated.  In the fresh cache with [s = 2] and [b = 30],
    which [main] accepts, no line is valid, so no address is present;
    but [B * S = 2 ^ 32] is 0 as an [int] and the first call of a
    Modify divides by it: there is no miss and no hit. *)
Lemma C9_counterexample :
  reachable st_zero_product /\
  s st_zero_product + b st_zero_product = 32 /\
  (forall i ls ln, cache st_zero_product !! i = Some ls -> ln ∈ ls ->
     valid ln = "0"%char) /\
  accessData 0 st_zero_product = None /\
  replay_event (Modify, 0) st_zero_product = None.
Proof.
  split; [exists 0; apply st_zero_product_reach |].
  split; [reflexivity |]. split; [| split].
  - intros i ls ln Hi Hin. apply lookup_replicate in Hi as [-> _].
    members Hin. reflexivity.
  - apply st_zero_product_access.
  - cbn [replay_event fst snd]. rewrite st_zero_product_access. reflexivity.
Qed.

(** ** C10: the tag is present after an access *)

(** C10: in every reachable state, for every address [A], after the
    call [accessData A] has returned, the set [A] decodes to contains
    a valid line whose tag is the decoded tag of [A]: the miss path
    never ends without having installed the tag.  And the call does
    return in every reachable state of a cache with [s >= 1],
    [b >= 1] and [s + b <= 31]. *)
Theorem C10_tag_present st A :
  reachable st ->
  (forall st', accessData A st = Some st' ->
     exists t setNum (ls' : cache_set_t) ln,
       decode (s st') (b st') A = Some (t, setNum) /\
       cache st' !! Z.to_nat setNum = Some ls' /\
       ln ∈ ls' /\
       valid ln = "1"%char /\ tag ln = t) /\
  (runs_geometry (s st) (E st) (b st) ->
     exists st', accessData A st = Some st').
Proof.
  intros [n Hreach]. split.
  - intros st' Hacc.
    pose proof (accessData_inv_lines st A st' (reach_lines n st Hreach) Hacc)
      as Hout.
    destruct (outcome_set st A st' Hout)
      as (t & sn & ls & ls' & k & ln & Hdec & Hset & Hc & Hset' & Hk & ->).
    exists t, sn. eexists.
    exists {| valid := "1"; tag := t; count := wrap_int (set_max ls + 1) |}.
    split.
    + destruct Hout; subst; exact Hdec.
    + split; [exact Hset' |]. split; [| split; reflexivity].
      eapply list_elem_of_lookup_2.
      apply list_lookup_insert_eq. eapply lookup_lt_Some, Hk.
  - intros Hg.
    destruct (accessData_outcome st A (reach_wf n st Hreach Hg))
      as (st' & Hacc & _).
    exists st'. exact Hacc.
Qed.

Lemma C10_tag_present_witness :
  reachable st_evicted /\
  runs_geometry (s st_evicted) (E st_evicted) (b st_evicted) /\
  exists st' t setNum (ls' : cache_set_t) ln,
    accessData 12 st_evicted = Some st' /\
    decode (s st') (b st') 12 = Some (t, setNum) /\
    cache st' !! Z.to_nat setNum = Some ls' /\
    ln ∈ ls' /\
    valid ln = "1"%char /\ tag ln = t.
Proof.
  assert (Hr : reachable st_evicted) by (exists 3; apply st_evicted_reach).
  assert (Hg : runs_geometry (s st_evicted) (E st_evicted) (b st_evicted))
    by (cbn; unfold runs_geometry; lia).
  split; [exact Hr |]. split; [exact Hg |].
  destruct (C10_tag_present st_evicted 12 Hr) as [Hpresent Hreturns].
  destruct (Hreturns Hg) as (st' & Hacc).
  destruct (Hpresent st' Hacc) as (t & sn & ls' & ln & H).
  exists st', t, sn, ls', ln. split; [exact Hacc | exact H].
Defined.

(** ** Further properties of the address decoding *)

Lemma decode_block s0 E0 b0 A :
  valid_geometry s0 E0 b0 ->
  decode s0 b0 A = Some (A / 2 ^ b0 / 2 ^ s0, (A / 2 ^ b0) mod 2 ^ s0).
Proof.
  intros Hg. rewrite (decode_valid s0 E0 b0 A Hg).
  destruct Hg as (Hs & Hb & Hsb & _).
  pose proof (pow2_bounds s0 ltac:(lia)). pose proof (pow2_bounds b0 ltac:(lia)).
  rewrite Z.div_div by lia. reflexivity.
Qed.

(** X1: for a geometry within [int], two addresses decode to the same
    tag and set exactly when they lie in the same block, that is when
    they agree on [A / 2 ^ b]: the block offset plays no part. *)
Theorem X1_decode_same_block s0 E0 b0 A A' :
  valid_geometry s0 E0 b0 ->
  decode s0 b0 A = decode s0 b0 A' <-> A / 2 ^ b0 = A' / 2 ^ b0.
Proof.
  intros Hg. rewrite !(decode_block s0 E0 b0) by exact Hg.
  destruct Hg as (Hs & Hb & Hsb & _).
  pose proof (pow2_bounds s0 ltac:(lia)) as Hp.
  split.
  - intros Heq. injection Heq as Ht Hi.
    rewrite (Z.div_mod (A / 2 ^ b0) (2 ^ s0)) by lia.
    rewrite (Z.div_mod (A' / 2 ^ b0) (2 ^ s0)) by lia.
    rewrite Ht, Hi. reflexivity.
  - intros ->. reflexivity.
Qed.

Lemma X1_decode_same_block_witness :
  valid_geometry 4 1 4 /\
  (decode 4 4 4660 = decode 4 4 4671 <-> 4660 / 2 ^ 4 = 4671 / 2 ^ 4).
Proof.
  assert (Hg : valid_geometry 4 1 4) by (unfold valid_geometry; lia).
  split; [exact Hg | apply (X1_decode_same_block 4 1 4 4660 4671 Hg)].
Defined.

(** X2: for a geometry within [int] and a 64-bit address, the decoded
    set index is below [2 ^ s], the decoded tag is below
    [2 ^ (64 - s - b)], and the address is rebuilt from the tag, the
    set index and the block offset. *)
Theorem X2_decode_round_trip s0 E0 b0 A t i :
  valid_geometry s0 E0 b0 ->
  0 <= A < 2 ^ 64 ->
  decode s0 b0 A = Some (t, i) ->
  0 <= i < 2 ^ s0 /\
  0 <= t < 2 ^ (64 - s0 - b0) /\
  0 <= A mod 2 ^ b0 < 2 ^ b0 /\
  A = (t * 2 ^ s0 + i) * 2 ^ b0 + A mod 2 ^ b0.
Proof.
  intros Hg HA Hdec. rewrite (decode_block s0 E0 b0 A Hg) in Hdec.
  injection Hdec as <- <-. destruct Hg as (Hs & Hb & Hsb & _).
  pose proof (pow2_bounds s0 ltac:(lia)) as Hps.
  pose proof (pow2_bounds b0 ltac:(lia)) as Hpb.
  split; [apply Z.mod_pos_bound; lia |]. split; [| split].
  - rewrite Z.div_div by lia. rewrite <- Z.pow_add_r by lia. split.
    + apply Z.div_pos; [lia |]. apply Z.pow_pos_nonneg; lia.
    + apply Z.div_lt_upper_bound; [apply Z.pow_pos_nonneg; lia |].
      rewrite <- Z.pow_add_r by lia.
      replace (b0 + s0 + (64 - s0 - b0)) with 64 by lia. lia.
  - apply Z.mod_pos_bound. lia.
  - rewrite (Z.mul_comm (A / 2 ^ b0 / 2 ^ s0)).
    rewrite <- (Z.div_mod (A / 2 ^ b0) (2 ^ s0)) by lia.
    rewrite (Z.mul_comm (A / 2 ^ b0)). apply Z.div_mod. lia.
Qed.

Lemma X2_decode_round_trip_witness :
  (valid_geometry 4 1 4 /\ 0 <= 4660 < 2 ^ 64 /\
   decode 4 4 4660 = Some (18, 3)) /\
  0 <= 3 < 2 ^ 4 /\
  0 <= 18 < 2 ^ (64 - 4 - 4) /\
  0 <= 4660 mod 2 ^ 4 < 2 ^ 4 /\
  4660 = (18 * 2 ^ 4 + 3) * 2 ^ 4 + 4660 mod 2 ^ 4.
Proof.
  assert (Hg : valid_geometry 4 1 4) by (unfold valid_geometry; lia).
  assert (HA : 0 <= 4660 < 2 ^ 64) by lia.
  split; [split; [exact Hg | split; [exact HA | reflexivity]] |].
  apply (X2_decode_round_trip 4 1 4 4660 18 3 Hg HA). reflexivity.
Defined.

(** ** Further properties of one access *)

Lemma accessData_decode_ext st A A' :
  decode (s st) (b st) A = decode (s st) (b st) A' ->
  accessData A st = accessData A' st.
Proof. intros Heq. unfold accessData. rewrite Heq. reflexivity. Qed.

(** X3: for [s >= 1], [b >= 1] and [s + b <= 30], two addresses of
    the same block (equal [A / 2 ^ b]) are indistinguishable: in every
    state of such a cache [accessData] gives the same result for
    both. *)
Theorem X3_same_block_same_access st A A' :
  valid_geometry (s st) (E st) (b st) ->
  A / 2 ^ b st = A' / 2 ^ b st ->
  accessData A st = accessData A' st.
Proof.
  intros Hg Hblock. apply accessData_decode_ext.
  rewrite !(decode_block _ _ _ _ Hg), Hblock. reflexivity.
Qed.

Lemma X3_same_block_same_access_witness :
  valid_geometry (s st_two_ways) (E st_two_ways) (b st_two_ways) /\
  4 / 2 ^ 1 = 5 / 2 ^ 1 /\
  accessData 4 st_two_ways = accessData 5 st_two_ways.
Proof.
  assert (Hg : valid_geometry (s st_two_ways) (E st_two_ways) (b st_two_ways))
    by (cbn; unfold valid_geometry; lia).
  split; [exact Hg |]. split; [reflexivity |].
  apply (X3_same_block_same_access st_two_ways 4 5 Hg). reflexivity.
Defined.

Lemma line_at_insert st st' i k (ls : cache_set_t) ln' :
  cache st !! i = Some ls ->
  (k < length ls)%nat ->
  cache st' = <[i := <[k := ln']> ls]> (cache st) ->
  line_at st' i k = Some ln' /\
  forall i' j', (i', j') <> (i, k) -> line_at st' i' j' = line_at st i' j'.
Proof.
  intros Hi Hk Hc. pose proof (lookup_lt_Some _ _ _ Hi) as Hlt.
  unfold line_at. rewrite Hc. split.
  - rewrite list_lookup_insert_eq by exact Hlt. cbn.
    apply list_lookup_insert_eq, Hk.
  - intros i' j' Hne. destruct (decide (i' = i)) as [-> | Hi'].
    + rewrite list_lookup_insert_eq by exact Hlt. rewrite Hi. cbn.
      apply list_lookup_insert_ne. congruence.
    + rewrite list_lookup_insert_ne by congruence. reflexivity.
Qed.

(** One call that returns, in any state with well-formed sets: it
    keeps the sets well formed and the geometry, and rewrites one
    line. *)
Lemma access_change st A st' :
  wf_lines st ->
  accessData A st = Some st' ->
  exists t setNum k c,
    wf_lines st' /\
    (s st' = s st /\ E st' = E st /\ b st' = b st) /\
    decode (s st) (b st) A = Some (t, setNum) /\
    line_at st' (Z.to_nat setNum) k =
      Some {| valid := "1"; tag := t; count := c |} /\
    forall i j, (i, j) <> (Z.to_nat setNum, k) ->
      line_at st' i j = line_at st i j.
Proof.
  intros Hwf Hacc.
  pose proof (accessData_inv_lines st A st' Hwf Hacc) as Hout.
  destruct (outcome_set st A st' Hout)
    as (t & sn & ls & ls' & k & ln & Hdec & Hset & Hc & _ & Hk & ->).
  destruct (line_at_insert st st' _ k ls _ Hset (lookup_lt_Some _ _ _ Hk) Hc)
    as [Hnew Hold].
  exists t, sn, k. eexists.
  split; [eapply outcome_lines; eassumption |].
  split; [eapply outcome_geometry, Hout |]. split; [exact Hdec |].
  split; [exact Hnew | exact Hold].
Qed.

(** One call, on a geometry with [s + b <= 31]: it returns as well. *)
Lemma access_frame st A :
  wf_state st ->
  exists st' t setNum k c,
    accessData A st = Some st' /\
    wf_state st' /\
    (s st' = s st /\ E st' = E st /\ b st' = b st) /\
    decode (s st) (b st) A = Some (t, setNum) /\
    line_at st' (Z.to_nat setNum) k =
      Some {| valid := "1"; tag := t; count := c |} /\
    forall i j, (i, j) <> (Z.to_nat setNum, k) ->
      line_at st' i j = line_at st i j.
Proof.
  intros Hwf.
  destruct (accessData_outcome st A Hwf) as (st' & Hacc & Hout).
  destruct (access_change st A st' (wf_state_lines st Hwf) Hacc)
    as (t & sn & k & c & _ & Hgeo & Hdec & Hnew & Hold).
  exists st', t, sn, k, c. split; [exact Hacc |].
  split; [eapply outcome_wf; eassumption |].
  split; [exact Hgeo |]. split; [exact Hdec |].
  split; [exact Hnew | exact Hold].
Qed.

(** X6: in every reachable state a call of [accessData] that returns
    has rewritten exactly one line, in the set the address decodes to;
    afterwards that line is valid and carries the decoded tag; every
    other line of the cache and the geometry are unchanged. *)
Theorem X6_one_line_changes st A st' :
  reachable st ->
  accessData A st = Some st' ->
  exists t setNum k ln',
    decode (s st) (b st) A = Some (t, setNum) /\
    line_at st' (Z.to_nat setNum) k = Some ln' /\
    valid ln' = "1"%char /\ tag ln' = t /\
    (forall i j, (i, j) <> (Z.to_nat setNum, k) ->
       line_at st' i j = line_at st i j) /\
    s st' = s st /\ E st' = E st /\ b st' = b st.
Proof.
  intros [n Hreach] Hacc.
  destruct (access_change st A st' (reach_lines n st Hreach) Hacc)
    as (t & sn & k & c & _ & (Hs & HE & Hb) & Hdec & Hnew & Hold).
  exists t, sn, k. eexists. split; [exact Hdec |]. split; [exact Hnew |].
  repeat split; assumption.
Qed.

Lemma X6_one_line_changes_witness :
  reachable st_two_ways_hit /\
  accessData 8 st_two_ways_hit =
    Some (two_sets 2 1 3 1 [line 0 3; line 2 4] [empty_line; empty_line]) /\
  exists t setNum k ln',
    decode 1 1 8 = Some (t, setNum) /\
    line_at (two_sets 2 1 3 1 [line 0 3; line 2 4] [empty_line; empty_line])
      (Z.to_nat setNum) k = Some ln' /\
    valid ln' = "1"%char /\ tag ln' = t /\
    (forall i j, (i, j) <> (Z.to_nat setNum, k) ->
       line_at (two_sets 2 1 3 1 [line 0 3; line 2 4]
                  [empty_line; empty_line]) i j =
       line_at st_two_ways_hit i j) /\
    1 = 1 /\ 2 = 2 /\ 1 = 1.
Proof.
  assert (Hr : reachable st_two_ways_hit)
    by (exists 3; apply st_two_ways_hit_reach).
  assert (Hacc : accessData 8 st_two_ways_hit =
                 Some (two_sets 2 1 3 1 [line 0 3; line 2 4]
                         [empty_line; empty_line]))
    by (vm_compute; reflexivity).
  split; [exact Hr |]. split; [exact Hacc |].
  exact (X6_one_line_changes _ 8 _ Hr Hacc).
Defined.

(** ** Further properties of whole runs *)

Lemma access_all_app l1 l2 st :
  access_all (l1 ++ l2) st = (st1 ← access_all l1 st; access_all l2 st1).
Proof.
  revert st. induction l1 as [|A l1 IH]; intros st; [reflexivity |].
  cbn [app access_all]. destruct (accessData A st) as [st1|]; cbn;
    [apply IH | reflexivity].
Qed.

Lemma replay_access_all tr st :
  replayTrace tr st = access_all (addrs_of tr) st.
Proof.
  revert st. induction tr as [|[o A] tr IH]; intros st; [reflexivity |].
  cbn [replayTrace addrs_of]. rewrite access_all_app.
  destruct o; cbn [replay_event addrs_of_event fst snd access_all];
    try (destruct (accessData A st) as [st1|]; cbn; [| reflexivity]);
    try (destruct (accessData A st1) as [st2|]; cbn; [| reflexivity]);
    apply IH.
Qed.

Lemma access_all_wf l st :
  wf_state st ->
  exists st',
    access_all l st = Some st' /\ wf_state st' /\
    s st' = s st /\ E st' = E st /\ b st' = b st.
Proof.
  revert st. induction l as [|A l IH]; intros st Hwf.
  - exists st. auto.
  - destruct (access_frame st A Hwf)
      as (st1 & _ & _ & _ & _ & Hacc & Hwf1 & (Hs & HE & Hb) & _).
    destruct (IH st1 Hwf1) as (st' & Hall & Hwf' & Hs' & HE' & Hb').
    exists st'. cbn [access_all]. rewrite Hacc. cbn.
    split; [exact Hall |]. split; [exact Hwf' |]. repeat split; congruence.
Qed.

(** X4: on a cache built for a geometry within [int], [replayTrace]
    returns for every trace, whatever its addresses; the geometry is
    unchanged and the cache still has [2 ^ s] sets of [E] lines each:
    no set or line is ever added or removed. *)
Theorem X4_replay_keeps_shape s0 E0 b0 st0 tr :
  valid_geometry s0 E0 b0 ->
  initCache s0 E0 b0 = Some st0 ->
  exists st,
    replayTrace tr st0 = Some st /\
    s st = s0 /\ E st = E0 /\ b st = b0 /\
    length (cache st) = Z.to_nat (2 ^ s0) /\
    forall ls, ls ∈ cache st -> length ls = Z.to_nat E0.
Proof.
  intros Hg Hinit.
  pose proof (initCache_wf _ _ _ _ (valid_runs _ _ _ Hg) Hinit) as Hwf0.
  destruct (initCache_geometry _ _ _ _ Hinit) as (Hs0 & HE0 & Hb0).
  destruct (access_all_wf (addrs_of tr) st0 Hwf0)
    as (st & Hall & (_ & Hlen & Hsets & _) & Hs & HE & Hb).
  exists st. rewrite replay_access_all. split; [exact Hall |].
  repeat split; try congruence.
  intros ls Hin. apply list_elem_of_lookup in Hin as [i Hi].
  destruct (Hsets i ls Hi) as (Hl & _). congruence.
Qed.

Lemma X4_replay_keeps_shape_witness :
  valid_geometry 1 2 1 /\
  initCache 1 2 1 =
    Some (two_sets 2 0 0 0 [empty_line; empty_line] [empty_line; empty_line]) /\
  exists st,
    replayTrace [(Load, 0); (Modify, 4); (Store, 8)]
      (two_sets 2 0 0 0 [empty_line; empty_line] [empty_line; empty_line])
      = Some st /\
    s st = 1 /\ E st = 2 /\ b st = 1 /\
    length (cache st) = Z.to_nat (2 ^ 1) /\
    forall ls, ls ∈ cache st -> length ls = Z.to_nat 2.
Proof.
  assert (Hg : valid_geometry 1 2 1) by (unfold valid_geometry; lia).
  split; [exact Hg |]. split; [reflexivity |].
  apply (X4_replay_keeps_shape 1 2 1 _ _ Hg). reflexivity.
Defined.

(** X5: in every reachable state no set holds a tag twice: two
    different valid lines of one set carry different tags. *)
Theorem X5_no_duplicate_tags st i (ls : cache_set_t) j k lj lk :
  reachable st ->
  cache st !! i = Some ls ->
  ls !! j = Some lj ->
  ls !! k = Some lk ->
  valid lj = "1"%char ->
  valid lk = "1"%char ->
  j <> k ->
  tag lj <> tag lk.
Proof.
  intros [n Hreach] Hi Hj Hk Hvj Hvk Hjk Ht. apply Hjk.
  destruct (reach_lines n st Hreach) as (_ & Hsets & _).
  destruct (Hsets i ls Hi) as (_ & _ & Htags & _).
  eapply Htags; eassumption.
Qed.

Lemma X5_no_duplicate_tags_witness :
  reachable st_two_ways_hit /\ tag (line 0 3) <> tag (line 1 2).
Proof.
  assert (Hr : reachable st_two_ways_hit)
    by (exists 3; apply st_two_ways_hit_reach).
  split; [exact Hr |].
  apply (X5_no_duplicate_tags _ 0%nat [line 0 3; line 1 2] 0%nat 1%nat
           (line 0 3) (line 1 2) Hr); try reflexivity.
  lia.
Defined.

Lemma access_all_valid l st st' i j ln :
  wf_lines st ->
  access_all l st = Some st' ->
  line_at st i j = Some ln ->
  valid ln = "1"%char ->
  exists ln', line_at st' i j = Some ln' /\ valid ln' = "1"%char.
Proof.
  revert st ln. induction l as [|A l IH]; intros st ln Hwf Hall Hln Hv.
  - injection Hall as <-. eauto.
  - cbn [access_all] in Hall.
    destruct (accessData A st) as [st1|] eqn:Hacc; [| discriminate].
    cbn in Hall.
    destruct (access_change st A st1 Hwf Hacc)
      as (t & sn & k & c & Hwf1 & _ & _ & Hnew & Hold).
    destruct (decide ((i, j) = (Z.to_nat sn, k))) as [[= -> ->] | Hne].
    + eapply (IH st1); [exact Hwf1 | exact Hall | exact Hnew | reflexivity].
    + eapply (IH st1 ln); [exact Hwf1 | exact Hall | | exact Hv].
      rewrite (Hold i j Hne). exact Hln.
Qed.

(** X7: no line is ever invalidated: a line that is valid in a
    reachable state is valid after every further trace whose replay
    returns. *)
Theorem X7_valid_stays_valid st tr st' i j ln :
  reachable st ->
  replayTrace tr st = Some st' ->
  line_at st i j = Some ln ->
  valid ln = "1"%char ->
  exists ln', line_at st' i j = Some ln' /\ valid ln' = "1"%char.
Proof.
  intros [n Hreach] Hrep. rewrite replay_access_all in Hrep.
  eapply access_all_valid; [eapply reach_lines, Hreach | exact Hrep].
Qed.

Lemma X7_valid_stays_valid_witness :
  reachable (two_sets 1 0 1 0 [line 0 1] [empty_line]) /\
  replayTrace [(Load, 4); (Modify, 2)]
    (two_sets 1 0 1 0 [line 0 1] [empty_line]) =
    Some (two_sets 1 1 3 1 [line 1 2] [line 0 2]) /\
  exists ln',
    line_at (two_sets 1 1 3 1 [line 1 2] [line 0 2]) 0 0 = Some ln' /\
    valid ln' = "1"%char.
Proof.
  assert (Hr : reachable (two_sets 1 0 1 0 [line 0 1] [empty_line])).
  { exists 1. eapply (reach_eval 0 _ 0); [| lia | | reflexivity].
    - apply (reach_init 1 1 1); [lia | lia | lia | reflexivity].
    - vm_compute; reflexivity. }
  assert (Hrep : replayTrace [(Load, 4); (Modify, 2)]
                   (two_sets 1 0 1 0 [line 0 1] [empty_line]) =
                 Some (two_sets 1 1 3 1 [line 1 2] [line 0 2]))
    by (vm_compute; reflexivity).
  split; [exact Hr |]. split; [exact Hrep |].
  apply (X7_valid_stays_valid _ _ _ 0%nat 0%nat (line 0 1) Hr Hrep);
    reflexivity.
Defined.

(** X10: in every reachable state, an access repeated at once is a
    hit: after a call [accessData A] that has returned, a second
    [accessData A] returns and counts one hit, no miss and no
    eviction. *)
Theorem X10_repeated_access_hits st A st1 :
  reachable st ->
  accessData A st = Some st1 ->
  exists st2, accessData A st1 = Some st2 /\ hit_call st1 st2.
Proof.
  intros [n Hreach] Hacc. pose proof (reach_lines n st Hreach) as Hwf.
  pose proof (accessData_inv_lines st A st1 Hwf Hacc) as Hout.
  pose proof (outcome_lines st A st1 Hwf Hout) as Hwf1.
  destruct (outcome_geometry st A st1 Hout) as (Hs & _ & Hb).
  destruct (outcome_set st A st1 Hout)
    as (t & sn & ls & ls1 & k & ln & Hdec & Hset & Hc & Hset1 & Hk & Hls1).
  set (ln1 := {| valid := "1"; tag := t; count := wrap_int (set_max ls + 1) |})
    in *.
  assert (Hk1 : ls1 !! k = Some ln1).
  { rewrite Hls1. apply list_lookup_insert_eq. eapply lookup_lt_Some, Hk. }
  exists (st_hit st1 sn ls1 k ln1). split.
  - apply (accessData_hit_lines st1 A t sn ls1 k ln1); try assumption.
    + rewrite Hs, Hb. exact Hdec.
    + split; reflexivity.
  - unfold hit_call. cbn. auto.
Qed.

Lemma X10_repeated_access_hits_witness :
  reachable st_two_ways_hit /\
  accessData 8 st_two_ways_hit =
    Some (two_sets 2 1 3 1 [line 0 3; line 2 4] [empty_line; empty_line]) /\
  exists st2,
    accessData 8
      (two_sets 2 1 3 1 [line 0 3; line 2 4] [empty_line; empty_line])
      = Some st2 /\
    hit_call (two_sets 2 1 3 1 [line 0 3; line 2 4] [empty_line; empty_line])
      st2.
Proof.
  assert (Hr : reachable st_two_ways_hit)
    by (exists 3; apply st_two_ways_hit_reach).
  assert (Hacc : accessData 8 st_two_ways_hit =
                 Some (two_sets 2 1 3 1 [line 0 3; line 2 4]
                         [empty_line; empty_line]))
    by (vm_compute; reflexivity).
  split; [exact Hr |]. split; [exact Hacc |].
  exact (X10_repeated_access_hits _ 8 _ Hr Hacc).
Defined.

(** ** Tags come from earlier accesses *)

Lemma line_at_lookup st i j ln :
  line_at st i j = Some ln <->
  exists ls : cache_set_t, cache st !! i = Some ls /\ ls !! j = Some ln.
Proof.
  unfold line_at. destruct (cache st !! i) as [ls|]; cbn.
  - split; [eauto | intros (ls' & [= <-] & H); exact H].
  - split; [discriminate | intros (ls' & [=] & _)].
Qed.

Lemma initCache_tags_seen s0 E0 b0 st :
  initCache s0 E0 b0 = Some st -> tags_seen [] st.
Proof.
  unfold initCache. destruct (shl_int 2 (s0 - 1)); cbn; [| discriminate].
  intros [= <-] i j ln Hln Hv.
  apply line_at_lookup in Hln as (ls & Hi & Hj). cbn in Hi.
  apply lookup_replicate in Hi as [-> _].
  apply lookup_replicate in Hj as [-> _]. discriminate.
Qed.

Lemma decode_set_nonneg st A t setNum :
  wf_state st -> decode (s st) (b st) A = Some (t, setNum) -> 0 <= setNum.
Proof.
  intros (Hg & _) Hdec. destruct (decode_runs _ _ _ A Hg) as [t' Hd].
  rewrite Hd in Hdec.
  injection Hdec as _ <-. destruct Hg as (Hs & Hb & Hsb & _).
  pose proof (pow2_bounds (s st) ltac:(lia)).
  apply Z.mod_pos_bound. lia.
Qed.

Lemma access_tags_seen seen st A st' t setNum :
  wf_state st ->
  tags_seen seen st ->
  accessData A st = Some st' ->
  decode (s st) (b st) A = Some (t, setNum) ->
  tags_seen (seen ++ [(t, setNum)]) st'.
Proof.
  intros Hwf Hseen Hacc Hdec.
  destruct (access_frame st A Hwf)
    as (st1 & t1 & sn & k & c & Hacc1 & _ & _ & Hdec1 & Hnew & Hold).
  rewrite Hacc in Hacc1. injection Hacc1 as <-.
  rewrite Hdec in Hdec1. injection Hdec1 as <- <-.
  pose proof (decode_set_nonneg st A t setNum Hwf Hdec) as Hnn.
  intros i j ln Hln Hv. apply elem_of_app.
  destruct (decide ((i, j) = (Z.to_nat setNum, k))) as [[= -> ->] | Hne].
  - right. rewrite Hnew in Hln. injection Hln as <-. cbn [tag].
    rewrite Z2Nat.id by exact Hnn. apply list_elem_of_singleton. reflexivity.
  - left. rewrite (Hold i j Hne) in Hln. eapply Hseen; eassumption.
Qed.

Lemma touched_cons s0 b0 A l p :
  decode s0 b0 A = Some p -> touched s0 b0 (A :: l) = [p] ++ touched s0 b0 l.
Proof. intros H. unfold touched. simpl. rewrite H. reflexivity. Qed.

Lemma access_all_tags_seen l seen st st' :
  wf_state st ->
  tags_seen seen st ->
  access_all l st = Some st' ->
  tags_seen (seen ++ touched (s st) (b st) l) st'.
Proof.
  revert seen st. induction l as [|A l IH]; intros seen st Hwf Hseen Hall.
  - injection Hall as <-. unfold touched. cbn. rewrite app_nil_r. exact Hseen.
  - destruct (access_frame st A Hwf)
      as (st1 & t & sn & k & c & Hacc & Hwf1 & (Hs & _ & Hb) & Hdec & _).
    cbn [access_all] in Hall. rewrite Hacc in Hall. cbn in Hall.
    rewrite (touched_cons _ _ _ _ _ Hdec), app_assoc, <- Hs, <- Hb.
    apply IH; [exact Hwf1 | | exact Hall].
    apply (access_tags_seen seen st A st1 t sn); assumption.
Qed.

Lemma outcome_miss st A st' t setNum :
  outcome st A st' ->
  decode (s st) (b st) A = Some (t, setNum) ->
  (forall j ln, line_at st (Z.to_nat setNum) j = Some ln -> ~ holds t ln) ->
  miss_call st st'.
Proof.
  intros Hout Hdec Hno.
  destruct Hout as [t' sn ls k ln Hd Hset Hk Hh -> | t' sn ls k ln _ _ _ _ _ _ ->
                   | t' sn ls k ln _ _ _ _ _ _ _ ->].
  - rewrite Hdec in Hd. injection Hd as <- <-. exfalso.
    apply (Hno k ln); [| exact Hh]. apply line_at_lookup. eauto.
  - unfold miss_call. cbn. auto.
  - unfold miss_call. cbn. auto.
Qed.

(** X8: a block not accessed before misses.  For [s >= 1], [b >= 1],
    [s + b <= 30] and [E >= 1]: after any trace on the fresh cache, an
    access whose decoded (tag, set) pair is not among the pairs the
    trace decoded to returns and counts one miss and no hit. *)
Theorem X8_first_access_misses s0 E0 b0 st0 tr st A t setNum :
  valid_geometry s0 E0 b0 ->
  initCache s0 E0 b0 = Some st0 ->
  replayTrace tr st0 = Some st ->
  decode s0 b0 A = Some (t, setNum) ->
  (t, setNum) ∉ touched s0 b0 (addrs_of tr) ->
  exists st', accessData A st = Some st' /\ miss_call st st'.
Proof.
  intros Hg Hinit Hrep Hdec Hnew.
  pose proof (initCache_wf _ _ _ _ (valid_runs _ _ _ Hg) Hinit) as Hwf0.
  destruct (initCache_geometry _ _ _ _ Hinit) as (Hs0 & _ & Hb0).
  rewrite replay_access_all in Hrep.
  destruct (access_all_wf (addrs_of tr) st0 Hwf0)
    as (st1 & Hall & Hwf & Hs & _ & Hb).
  rewrite Hrep in Hall. injection Hall as <-.
  pose proof (access_all_tags_seen _ [] st0 st Hwf0
                (initCache_tags_seen _ _ _ _ Hinit) Hrep) as Hseen.
  rewrite Hs0, Hb0 in Hseen. cbn [app] in Hseen.
  destruct (accessData_outcome st A Hwf) as (st' & Hacc & Hout).
  exists st'. split; [exact Hacc |].
  assert (Hdec' : decode (s st) (b st) A = Some (t, setNum)) by congruence.
  apply (outcome_miss st A st' t setNum Hout Hdec').
  intros j ln Hln [Ht Hv]. apply Hnew.
  pose proof (Hseen _ _ _ Hln Hv) as Hin.
  rewrite Ht in Hin.
  rewrite Z2Nat.id in Hin by (eapply decode_set_nonneg; eassumption).
  exact Hin.
Qed.

Lemma X8_first_access_misses_witness :
  valid_geometry 1 1 1 /\
  exists st',
    accessData 8 (two_sets 1 1 2 1 [line 1 3] [empty_line]) = Some st' /\
    miss_call (two_sets 1 1 2 1 [line 1 3] [empty_line]) st'.
Proof.
  assert (Hg : valid_geometry 1 1 1) by (unfold valid_geometry; lia).
  split; [exact Hg |].
  apply (X8_first_access_misses 1 1 1
           (two_sets 1 0 0 0 [empty_line] [empty_line])
           [(Load, 0); (Modify, 4)] _ 8 2 0 Hg);
    [reflexivity | vm_compute; reflexivity | reflexivity |].
  vm_compute. intros Hin.
  repeat (apply elem_of_cons in Hin as [Hin | Hin]; [discriminate |]).
  inversion Hin.
Defined.

(** ** No eviction while the working set fits *)

Lemma full_set_tags st setNum (ls : cache_set_t) :
  wf_state st ->
  cache st !! Z.to_nat setNum = Some ls ->
  (forall j ln, ls !! j = Some ln -> valid ln = "1"%char) ->
  NoDup (tag <$> ls) /\ length (tag <$> ls) = Z.to_nat (E st).
Proof.
  intros (_ & _ & Hsets & _) Hset Hfull.
  destruct (Hsets _ _ Hset) as (Hlen & _ & Htags & _).
  split; [| rewrite length_fmap; exact Hlen].
  apply NoDup_alt. intros i j x Hi Hj.
  rewrite list_lookup_fmap in Hi, Hj.
  destruct (ls !! i) as [li|] eqn:Hli; [| discriminate].
  destruct (ls !! j) as [lj|] eqn:Hlj; [| discriminate].
  cbn in Hi, Hj. injection Hi as Hi. injection Hj as Hj.
  eapply (Htags i j li lj); eauto. congruence.
Qed.

Lemma access_all_no_evict (W : Z -> list Z) l seen st st' :
  wf_state st ->
  tags_seen seen st ->
  (forall i, (length (W i) <= Z.to_nat (E st))%nat) ->
  (forall t i, (t, i) ∈ seen ++ touched (s st) (b st) l -> t ∈ W i) ->
  access_all l st = Some st' ->
  evict_cnt st' = evict_cnt st.
Proof.
  revert seen st. induction l as [|A l IH];
    intros seen st Hwf Hseen HW Hin Hall.
  - injection Hall as <-. reflexivity.
  - destruct (accessData_outcome st A Hwf) as (st1 & Hacc & Hout).
    pose proof (outcome_wf _ _ _ Hwf Hout) as Hwf1.
    destruct (outcome_geometry _ _ _ Hout) as (Hs & HE & Hb).
    cbn [access_all] in Hall. rewrite Hacc in Hall. cbn in Hall.
    assert (Hdec : exists t sn, decode (s st) (b st) A = Some (t, sn))
      by (destruct Hout; eauto).
    destruct Hdec as (t & sn & Hdec).
    rewrite (touched_cons _ _ _ _ _ Hdec), app_assoc in Hin.
    transitivity (evict_cnt st1).
    + apply (IH (seen ++ [(t, sn)]) st1); try assumption.
      * apply (access_tags_seen seen st A st1 t sn); assumption.
      * intros i. rewrite HE. apply HW.
      * rewrite Hs, Hb. exact Hin.
    + destruct Hout as [t' sn' ls k ln _ _ _ _ -> | t' sn' ls k ln _ _ _ _ _ _ ->
                       | t' sn' ls k ln Hd Hset Hno Hfull Hk _ _ ->];
        [reflexivity | reflexivity |].
      exfalso. rewrite Hdec in Hd. injection Hd as <- <-.
      destruct (full_set_tags st sn ls Hwf Hset Hfull) as [Hnd Hlen].
      pose proof (decode_set_nonneg st A t sn Hwf Hdec) as Hnn.
      assert (Hsub : t :: (tag <$> ls) ⊆+ W sn).
      { apply NoDup_submseteq.
        - constructor; [| exact Hnd].
          intros Hin'. apply list_elem_of_fmap in Hin' as (x & Hx & Hxin).
          apply list_elem_of_lookup in Hxin as [j Hj].
          apply (Hno j x Hj). split; [congruence | eapply Hfull, Hj].
        - intros x Hx. apply Hin, elem_of_app.
          apply elem_of_cons in Hx as [-> | Hx].
          + left. apply elem_of_app. right. apply list_elem_of_singleton.
            reflexivity.
          + left. apply elem_of_app. left.
            apply list_elem_of_fmap in Hx as (y & -> & Hy).
            apply list_elem_of_lookup in Hy as [j Hj].
            rewrite <- (Z2Nat.id sn Hnn).
            apply (Hseen (Z.to_nat sn) j y);
              [apply line_at_lookup; eauto | eapply Hfull, Hj]. }
      apply submseteq_length in Hsub. cbn [length] in Hsub.
      pose proof (HW sn). lia.
Qed.

(** X9: no eviction while the working set fits.  For [s >= 1],
    [b >= 1], [s + b <= 30] and [E >= 1]: if, for every set, the tags
    that the accesses of a trace decode to for that set lie in a list
    of at most [E] tags, then replaying the trace on the fresh cache
    leaves the eviction counter at 0. *)
Theorem X9_no_eviction_when_fits s0 E0 b0 st0 tr st (W : Z -> list Z) :
  valid_geometry s0 E0 b0 ->
  initCache s0 E0 b0 = Some st0 ->
  replayTrace tr st0 = Some st ->
  (forall i, (length (W i) <= Z.to_nat E0)%nat) ->
  (forall t i, (t, i) ∈ touched s0 b0 (addrs_of tr) -> t ∈ W i) ->
  evict_cnt st = 0.
Proof.
  intros Hg Hinit Hrep HW Hin.
  pose proof (initCache_wf _ _ _ _ (valid_runs _ _ _ Hg) Hinit) as Hwf0.
  destruct (initCache_geometry _ _ _ _ Hinit) as (Hs0 & HE0 & Hb0).
  rewrite replay_access_all in Hrep.
  rewrite (access_all_no_evict W (addrs_of tr) [] st0 st Hwf0); try assumption.
  - unfold initCache in Hinit.
    destruct (shl_int 2 (s0 - 1)); cbn in Hinit; [| discriminate].
    injection Hinit as <-. reflexivity.
  - eapply initCache_tags_seen, Hinit.
  - intros i. rewrite HE0. apply HW.
  - rewrite Hs0, Hb0. exact Hin.
Qed.

Lemma X9_no_eviction_when_fits_witness :
  valid_geometry 1 2 1 /\
  replayTrace [(Load, 0); (Store, 4); (Modify, 0); (Load, 4)]
    (two_sets 2 0 0 0 [empty_line; empty_line] [empty_line; empty_line]) =
    Some (two_sets 2 3 2 0 [line 0 4; line 1 5] [empty_line; empty_line]) /\
  evict_cnt (two_sets 2 3 2 0 [line 0 4; line 1 5] [empty_line; empty_line])
    = 0.
Proof.
  assert (Hg : valid_geometry 1 2 1) by (unfold valid_geometry; lia).
  assert (Hrep :
    replayTrace [(Load, 0); (Store, 4); (Modify, 0); (Load, 4)]
      (two_sets 2 0 0 0 [empty_line; empty_line] [empty_line; empty_line]) =
    Some (two_sets 2 3 2 0 [line 0 4; line 1 5] [empty_line; empty_line]))
    by (vm_compute; reflexivity).
  split; [exact Hg |]. split; [exact Hrep |].
  apply (X9_no_eviction_when_fits 1 2 1 _ _ _ (fun _ => [0; 1]) Hg eq_refl
           Hrep).
  - intros i. cbn. lia.
  - intros t i Hin. vm_compute in Hin.
    repeat (apply elem_of_cons in Hin as [Hin | Hin];
            [injection Hin as -> ->;
             first [apply list_elem_of_here
                   | apply list_elem_of_further, list_elem_of_here] |]).
    inversion Hin.
Defined.

(** ** Misses, evictions and lines in use *)

Lemma valid_count_insert (ls : cache_set_t) k ln x :
  ls !! k = Some ln ->
  valid_count (<[k := x]> ls) =
    valid_count ls - (if Ascii.eqb (valid ln) "1" then 1 else 0)
      + (if Ascii.eqb (valid x) "1" then 1 else 0).
Proof.
  revert k. induction ls as [|l0 ls IH]; intros [|k] Hk; try discriminate.
  - injection Hk as ->. cbn. lia.
  - cbn in Hk. change (<[S k := x]> (l0 :: ls)) with (l0 :: <[k := x]> ls).
    cbn [valid_count]. rewrite (IH k Hk). lia.
Qed.

Lemma valid_total_insert (c : cache_t) i (ls ls' : cache_set_t) :
  c !! i = Some ls ->
  valid_total (<[i := ls']> c) = valid_total c - valid_count ls + valid_count ls'.
Proof.
  revert i. induction c as [|l0 c IH]; intros [|i] Hi; try discriminate.
  - injection Hi as ->. cbn. lia.
  - cbn in Hi. change (<[S i := ls']> (l0 :: c)) with (l0 :: <[i := ls']> c).
    cbn [valid_total]. rewrite (IH i Hi). lia.
Qed.

Lemma valid_total_replicate n m :
  valid_total (replicate n (replicate m empty_line)) = 0.
Proof.
  assert (H : valid_count (replicate m empty_line) = 0)
    by (induction m as [|m IH]; cbn; [reflexivity | rewrite IH; reflexivity]).
  induction n as [|n IH]; cbn; [reflexivity |].
  change (valid_count (replicate m empty_line) +
          valid_total (replicate n (replicate m empty_line)) = 0).
  rewrite H, IH. reflexivity.
Qed.

Lemma outcome_valid_total st A st' :
  outcome st A st' ->
  (hit_cnt st' = wrap_int (hit_cnt st + 1) /\
   miss_cnt st' = miss_cnt st /\ evict_cnt st' = evict_cnt st /\
   valid_total (cache st') = valid_total (cache st)) \/
  (hit_cnt st' = hit_cnt st /\
   miss_cnt st' = wrap_int (miss_cnt st + 1) /\
   evict_cnt st' = evict_cnt st /\
   valid_total (cache st') = valid_total (cache st) + 1) \/
  (hit_cnt st' = hit_cnt st /\
   miss_cnt st' = wrap_int (miss_cnt st + 1) /\
   evict_cnt st' = wrap_int (evict_cnt st + 1) /\
   valid_total (cache st') = valid_total (cache st)).
Proof.
  intros [t sn ls k ln _ Hset Hk [_ Hv] -> | t sn ls k ln _ Hset _ Hk Hv _ ->
         | t sn ls k ln _ Hset _ Hfull Hk _ _ ->].
  - left. cbn [hit_cnt miss_cnt evict_cnt cache st_hit].
    rewrite (valid_total_insert _ _ ls _ Hset), (valid_count_insert ls k ln _ Hk).
    cbn [valid]. repeat split. lia.
  - right. left. cbn [hit_cnt miss_cnt evict_cnt cache st_fill].
    rewrite (valid_total_insert _ _ ls _ Hset), (valid_count_insert ls k ln _ Hk).
    cbn [valid]. rewrite Hv. cbn. repeat split. lia.
  - right. right. cbn [hit_cnt miss_cnt evict_cnt cache st_evict].
    rewrite (valid_total_insert _ _ ls _ Hset), (valid_count_insert ls k ln _ Hk).
    cbn [valid]. repeat split. lia.
Qed.

Lemma reach_conservation n st :
  reach n st -> n <= INT_MAX ->
  miss_cnt st = evict_cnt st + valid_total (cache st).
Proof.
  induction 1 as [s0 E0 b0 st Hs Hb HE Hinit | n st A st' Hreach IH _ Hacc];
    intros Hn.
  - unfold initCache in Hinit.
    destruct (shl_int 2 (s0 - 1)); cbn in Hinit; [| discriminate].
    injection Hinit as <-. cbn [miss_cnt evict_cnt cache].
    rewrite valid_total_replicate. reflexivity.
  - pose proof (reach_bounded n st Hreach ltac:(lia)) as (Hh & Hm & Hsum & He & _).
    pose proof (accessData_inv_lines st A st' (reach_lines n st Hreach) Hacc)
      as Hout.
    specialize (IH ltac:(lia)).
    destruct (outcome_valid_total st A st' Hout)
      as [(_ & Hm' & He' & Hv') | [(_ & Hm' & He' & Hv') | (_ & Hm' & He' & Hv')]];
      rewrite Hm', He', Hv';
      rewrite ?wrap_int_id by (unfold INT_MIN, INT_MAX in *; lia); lia.
Qed.

(** X11: every miss either takes a free line or evicts.  In every
    state reached by at most [INT_MAX] calls of [accessData] on a fresh
    cache, the miss counter is the eviction counter plus the number of
    valid lines of the cache. *)
Theorem X11_misses_are_fills_plus_evictions n st :
  reach n st ->
  n <= INT_MAX ->
  miss_cnt st = evict_cnt st + valid_total (cache st).
Proof. apply reach_conservation. Qed.

Lemma X11_misses_are_fills_plus_evictions_witness :
  reach 3 (two_sets 1 0 3 1 [line 1 2] [line 0 1]) /\
  miss_cnt (two_sets 1 0 3 1 [line 1 2] [line 0 1]) =
    evict_cnt (two_sets 1 0 3 1 [line 1 2] [line 0 1])
    + valid_total (cache (two_sets 1 0 3 1 [line 1 2] [line 0 1])).
Proof.
  assert (Hr : reach 3 (two_sets 1 0 3 1 [line 1 2] [line 0 1])).
  { eapply (reach_eval 2 _ 4); [| lia | | reflexivity].
    - eapply (reach_eval 1 _ 2); [| lia | | reflexivity].
      + eapply (reach_eval 0 _ 0); [| lia | | reflexivity].
        * apply (reach_init 1 1 1); [lia | lia | lia | reflexivity].
        * vm_compute; reflexivity.
      + vm_compute; reflexivity.
    - vm_compute; reflexivity. }
  split; [exact Hr |].
  apply (X11_misses_are_fills_plus_evictions 3 _ Hr). unfold INT_MAX. lia.
Defined.

(** ** Counters only grow within [int] *)

Lemma access_all_monotone l n st st' :
  reach n st ->
  Forall (fun A => 0 <= A < 2 ^ 64) l ->
  n + Z.of_nat (length l) <= INT_MAX ->
  access_all l st = Some st' ->
  reach (n + Z.of_nat (length l)) st' /\
  hit_cnt st <= hit_cnt st' /\
  miss_cnt st <= miss_cnt st' /\
  evict_cnt st <= evict_cnt st'.
Proof.
  intros Hreach Hok. revert n st Hreach.
  induction Hok as [|A l HA Hok IH]; intros n st Hreach Hn Hall.
  - injection Hall as <-. cbn. rewrite Z.add_0_r. repeat split; try lia.
    exact Hreach.
  - cbn [access_all] in Hall.
    destruct (accessData A st) as [st1|] eqn:Hacc; [| discriminate].
    cbn in Hall. cbn [length] in Hn.
    pose proof (reach_step _ _ _ _ Hreach HA Hacc) as Hreach1.
    destruct (IH (n + 1) st1 Hreach1 ltac:(lia) Hall) as (Hr' & Hh & Hm & He).
    pose proof (reach_bounded n st Hreach ltac:(lia)) as (Hh0 & Hm0 & Hsum & He0 & _).
    pose proof (accessData_inv_lines st A st1 (reach_lines _ _ Hreach) Hacc)
      as Hout.
    split.
    { replace (n + Z.of_nat (length (A :: l)))
        with (n + 1 + Z.of_nat (length l)) by (cbn [length]; lia).
      exact Hr'. }
    destruct (outcome_counters st A st1 Hout)
      as [(Hh' & Hm' & He') | (Hh' & Hm' & [He' | He'])];
      rewrite Hh', Hm', He' in *;
      rewrite ?wrap_int_id in * by (unfold INT_MIN, INT_MAX in *; lia); lia.
Qed.

Lemma addrs_of_app tr1 tr2 : addrs_of (tr1 ++ tr2) = addrs_of tr1 ++ addrs_of tr2.
Proof.
  induction tr1 as [|ev tr1 IH]; [reflexivity |].
  cbn [app addrs_of]. rewrite IH, app_assoc. reflexivity.
Qed.

Lemma addrs_of_length tr : Z.of_nat (length (addrs_of tr)) = accesses tr.
Proof.
  unfold accesses. induction tr as [|[o A] tr IH]; [reflexivity |].
  cbn [addrs_of]. rewrite length_app, Nat2Z.inj_add, IH.
  destruct o; cbn; lia.
Qed.

Lemma addrs_of_ok tr :
  Forall addr_ok tr -> Forall (fun A => 0 <= A < 2 ^ 64) (addrs_of tr).
Proof.
  induction 1 as [|[o A] tr HA _ IH]; [apply Forall_nil_2 |].
  cbn [addrs_of]. apply Forall_app. split; [| exact IH].
  unfold addr_ok in HA. cbn [snd] in HA.
  destruct o; cbn;
    repeat (apply Forall_cons_2; [exact HA |]); apply Forall_nil_2.
Qed.

(** X12: the counters only grow within [int].  For a cache with
    [s >= 1], [b >= 1], [s + b <= 31], [E >= 1] and a trace that makes
    at most [INT_MAX] calls of [accessData] on the fresh cache, the
    three counters after any prefix are at most their values after the
    whole trace. *)
Theorem X12_counters_grow s0 E0 b0 st0 tr1 tr2 st1 st2 :
  runs_geometry s0 E0 b0 ->
  initCache s0 E0 b0 = Some st0 ->
  Forall addr_ok (tr1 ++ tr2) ->
  accesses (tr1 ++ tr2) <= INT_MAX ->
  replayTrace tr1 st0 = Some st1 ->
  replayTrace tr2 st1 = Some st2 ->
  hit_cnt st1 <= hit_cnt st2 /\
  miss_cnt st1 <= miss_cnt st2 /\
  evict_cnt st1 <= evict_cnt st2.
Proof.
  intros Hg Hinit Hok Hn Hrep1 Hrep2.
  apply Forall_app in Hok as [Hok1 Hok2].
  rewrite <- addrs_of_length, addrs_of_app, length_app, Nat2Z.inj_add in Hn.
  rewrite replay_access_all in Hrep1, Hrep2.
  pose proof (reach_fresh _ _ _ _ Hg Hinit) as Hr0.
  destruct (access_all_monotone _ 0 st0 st1 Hr0 (addrs_of_ok _ Hok1)
              ltac:(lia) Hrep1) as (Hr1 & _).
  destruct (access_all_monotone _ _ st1 st2 Hr1 (addrs_of_ok _ Hok2)
              ltac:(lia) Hrep2) as (_ & H).
  exact H.
Qed.

Lemma X12_counters_grow_witness :
  runs_geometry 1 1 1 /\
  hit_cnt (two_sets 1 0 1 0 [line 0 1] [empty_line]) <=
    hit_cnt (two_sets 1 1 3 1 [line 1 2] [line 0 2]) /\
  miss_cnt (two_sets 1 0 1 0 [line 0 1] [empty_line]) <=
    miss_cnt (two_sets 1 1 3 1 [line 1 2] [line 0 2]) /\
  evict_cnt (two_sets 1 0 1 0 [line 0 1] [empty_line]) <=
    evict_cnt (two_sets 1 1 3 1 [line 1 2] [line 0 2]).
Proof.
  assert (Hg : runs_geometry 1 1 1) by (unfold runs_geometry; lia).
  split; [exact Hg |].
  apply (X12_counters_grow 1 1 1 (two_sets 1 0 0 0 [empty_line] [empty_line])
           [(Load, 0)] [(Load, 4); (Modify, 2)] _ _ Hg).
  - reflexivity.
  - repeat constructor; unfold addr_ok; cbn; lia.
  - vm_compute; congruence.
  - vm_compute; reflexivity.
  - vm_compute; reflexivity.
Defined.

(** ** The simulator against the reference LRU cache *)

Lemma wf_set_distinct nE (ls : cache_set_t) : wf_set nE ls -> tags_distinct ls.
Proof. intros (_ & _ & Hd & _). exact Hd. Qed.

Lemma tags_distinct_tail l0 (ls : cache_set_t) :
  tags_distinct (l0 :: ls) -> tags_distinct ls.
Proof.
  intros Hd j k lj lk Hj Hk Hvj Hvk Ht.
  assert (S j = S k) by (eapply (Hd (S j) (S k)); eassumption). lia.
Qed.

Lemma vtags_elem (ls : cache_set_t) x : x ∈ vtags ls <-> held ls x.
Proof.
  unfold held. induction ls as [|l0 ls IH]; cbn [vtags].
  - split; [intros H; inversion H | intros (j & ln & H & _); discriminate].
  - destruct (Ascii.eqb (valid l0) "1") eqn:Hv.
    + apply Ascii.eqb_eq in Hv. rewrite elem_of_cons, IH. split.
      * intros [-> | (j & ln & Hj & Hh)].
        -- exists 0%nat, l0. split; [reflexivity | split; [reflexivity | exact Hv]].
        -- exists (S j), ln. split; [exact Hj | exact Hh].
      * intros ([|j] & ln & Hj & Hh).
        -- cbn in Hj. injection Hj as <-. left. symmetry. apply Hh.
        -- right. exists j, ln. split; [exact Hj | exact Hh].
    + apply Ascii.eqb_neq in Hv. rewrite IH. split.
      * intros (j & ln & Hj & Hh). exists (S j), ln. split; [exact Hj | exact Hh].
      * intros ([|j] & ln & Hj & Hh).
        -- cbn in Hj. injection Hj as <-. destruct Hh as [_ Hh]. congruence.
        -- exists j, ln. split; [exact Hj | exact Hh].
Qed.

Lemma vtags_NoDup (ls : cache_set_t) : tags_distinct ls -> NoDup (vtags ls).
Proof.
  induction ls as [|l0 ls IH]; intros Hd; cbn [vtags]; [apply NoDup_nil_2 |].
  pose proof (IH (tags_distinct_tail _ _ Hd)) as Hnd.
  destruct (Ascii.eqb (valid l0) "1") eqn:Hv; [| exact Hnd].
  apply Ascii.eqb_eq in Hv. apply NoDup_cons_2; [| exact Hnd].
  intros Hin. apply vtags_elem in Hin as (j & ln & Hj & Ht & Hvl).
  assert (0%nat = S j) by (eapply (Hd 0%nat (S j) l0 ln); eauto).
  discriminate.
Qed.

Lemma vtags_length_le (ls : cache_set_t) : (length (vtags ls) <= length ls)%nat.
Proof.
  induction ls as [|l0 ls IH]; cbn [vtags length]; [lia |].
  destruct (Ascii.eqb (valid l0) "1"); cbn [length]; lia.
Qed.

(** A set with a free line holds fewer tags than it has lines. *)
Lemma vtags_length_free (ls : cache_set_t) k ln :
  ls !! k = Some ln -> valid ln = "0"%char ->
  (length (vtags ls) < length ls)%nat.
Proof.
  revert k. induction ls as [|l0 ls IH]; intros [|k] Hk Hv; try discriminate.
  - cbn in Hk. injection Hk as ->. cbn [vtags length]. rewrite Hv. cbn.
    pose proof (vtags_length_le ls). lia.
  - cbn in Hk. cbn [vtags length]. pose proof (IH k Hk Hv).
    destruct (Ascii.eqb (valid l0) "1"); cbn [length]; lia.
Qed.

(** A full set holds as many tags as it has lines. *)
Lemma vtags_length_full (ls : cache_set_t) :
  (forall j ln, ls !! j = Some ln -> valid ln = "1"%char) ->
  length (vtags ls) = length ls.
Proof.
  induction ls as [|l0 ls IH]; intros Hfull; [reflexivity |].
  cbn [vtags length]. rewrite (Hfull 0%nat l0 eq_refl). cbn.
  rewrite IH; [reflexivity |]. intros j ln Hj. apply (Hfull (S j) ln Hj).
Qed.

(** The count of a tag is the count of the line that holds it. *)
Lemma tag_count_holder (ls : cache_set_t) j ln t :
  tags_distinct ls -> ls !! j = Some ln -> holds t ln ->
  tag_count ls t = count ln.
Proof.
  revert j. induction ls as [|l0 ls IH]; intros j Hd Hj Hh; [discriminate |].
  cbn [tag_count]. destruct (holdsb t l0) eqn:Hb.
  - apply holdsb_true in Hb. destruct Hb as [Ht0 Hv0]. destruct Hh as [Ht Hv].
    assert (j = 0%nat)
      by (eapply (Hd j 0%nat ln l0); [exact Hj | reflexivity | | |]; congruence).
    subst j. cbn in Hj. congruence.
  - destruct j as [|j]; cbn in Hj.
    + injection Hj as <-. apply holdsb_true in Hh. congruence.
    + eapply IH; [eapply tags_distinct_tail, Hd | exact Hj | exact Hh].
Qed.

Lemma decreasing_ext f g l :
  (forall x, x ∈ l -> f x = g x) -> decreasing f l -> decreasing g l.
Proof.
  induction l as [|a l IH]; cbn [decreasing]; [done |].
  intros Heq [Hall Hd]. split.
  - rewrite list.Forall_forall in Hall |- *. intros y Hy.
    rewrite <- (Heq y) by (apply elem_of_cons; by right).
    rewrite <- (Heq a) by (apply elem_of_cons; by left).
    apply Hall, Hy.
  - apply IH; [| exact Hd]. intros x Hx. apply Heq, elem_of_cons. by right.
Qed.

Lemma decreasing_filter f (P : Z -> Prop) `{!forall x, Decision (P x)} l :
  decreasing f l -> decreasing f (filter P l).
Proof.
  induction l as [|a l IH]; [done |]. intros [Hall Hd].
  rewrite filter_cons. destruct (decide (P a)); [| apply IH, Hd].
  cbn [decreasing]. split; [| apply IH, Hd].
  rewrite list.Forall_forall in Hall |- *. intros y Hy.
  apply list_elem_of_filter in Hy as [_ Hy]. apply Hall, Hy.
Qed.

Lemma decreasing_snoc f l x :
  decreasing f (l ++ [x]) ->
  decreasing f l /\ forall y, y ∈ l -> f x < f y.
Proof.
  induction l as [|a l IH]; cbn [app decreasing].
  - intros _. split; [exact I |]. intros y Hy. inversion Hy.
  - intros [Hall Hd]. destruct (IH Hd) as [Hd' Hlt].
    rewrite list.Forall_forall in Hall. split.
    + split; [| exact Hd']. apply list.Forall_forall. intros y Hy.
      apply Hall, elem_of_app. by left.
    + intros y Hy. apply elem_of_cons in Hy as [-> | Hy]; [| apply Hlt, Hy].
      apply Hall, elem_of_app. right. apply elem_of_cons. by left.
Qed.

Lemma abs_set_elem nE (ls : cache_set_t) l :
  wf_set nE ls -> abs_set ls l ->
  NoDup l /\ (forall x, x ∈ l <-> held ls x) /\ length l = length (vtags ls).
Proof.
  intros Hwf [Hp _]. split; [| split].
  - rewrite Hp. eapply vtags_NoDup, wf_set_distinct, Hwf.
  - intros x. rewrite Hp. apply vtags_elem.
  - rewrite Hp. reflexivity.
Qed.

(** Installing the tag [t] with the largest count in line [k]: the new
    order is [t] followed by the tags of the other lines. *)
Lemma abs_set_install nE (ls : cache_set_t) k ln t c l' :
  wf_set nE ls ->
  wf_set nE (<[k := {| valid := "1"; tag := t; count := c |}]> ls) ->
  ls !! k = Some ln ->
  (forall ln', ln' ∈ ls -> count ln' < c) ->
  NoDup l' ->
  (forall x, x ∈ l' <->
     exists j ln', j <> k /\ ls !! j = Some ln' /\ holds x ln') ->
  decreasing (tag_count ls) l' ->
  abs_set (<[k := {| valid := "1"; tag := t; count := c |}]> ls) (t :: l').
Proof.
  intros Hwf Hwf' Hk Hc Hnd Hel Hdec.
  set (ls' := <[k := {| valid := "1"; tag := t; count := c |}]> ls) in *.
  pose proof (lookup_lt_Some _ _ _ Hk) as Hlt.
  pose proof (wf_set_distinct _ _ Hwf) as Hd.
  pose proof (wf_set_distinct _ _ Hwf') as Hd'.
  assert (Hk' : ls' !! k = Some {| valid := "1"; tag := t; count := c |})
    by (apply list_lookup_insert_eq, Hlt).
  assert (Hother : forall j, j <> k -> ls' !! j = ls !! j)
    by (intros j Hj; apply list_lookup_insert_ne; congruence).
  assert (Hcount : forall y, y ∈ l' ->
            tag_count ls y = tag_count ls' y /\ tag_count ls' y < c /\ y <> t).
  { intros y Hy. apply Hel in Hy as (j & ln' & Hjk & Hj & Hh).
    rewrite (tag_count_holder ls j ln' y Hd Hj Hh).
    assert (Hj' : ls' !! j = Some ln') by (rewrite Hother; assumption).
    rewrite (tag_count_holder ls' j ln' y Hd' Hj' Hh).
    split; [reflexivity |]. split.
    - eapply Hc, list_elem_of_lookup_2, Hj.
    - intros ->. apply Hjk. destruct Hh as [Ht Hv].
      eapply (Hd' j k); [exact Hj' | exact Hk' | exact Hv | reflexivity | exact Ht]. }
  assert (Ht : tag_count ls' t = c).
  { rewrite (tag_count_holder ls' k _ t Hd' Hk'); [reflexivity |].
    split; reflexivity. }
  split.
  - apply NoDup_Permutation.
    + apply NoDup_cons_2; [| exact Hnd]. intros Hin.
      destruct (Hcount t Hin) as (_ & _ & Hne). congruence.
    + apply vtags_NoDup, Hd'.
    + intros x. rewrite vtags_elem, elem_of_cons, Hel. split.
      * intros [-> | (j & ln' & Hjk & Hj & Hh)].
        -- exists k. eexists. split; [exact Hk' |]. split; reflexivity.
        -- exists j, ln'. split; [rewrite Hother; assumption | exact Hh].
      * intros (j & ln' & Hj & Hh). destruct (decide (j = k)) as [-> | Hjk].
        -- left. rewrite Hk' in Hj. injection Hj as <-. symmetry. apply Hh.
        -- right. exists j, ln'. rewrite Hother in Hj by exact Hjk. auto.
  - cbn [decreasing]. split.
    + apply list.Forall_forall. intros y Hy. rewrite Ht. apply (Hcount y Hy).
    + eapply decreasing_ext; [| exact Hdec]. intros y Hy. apply (Hcount y Hy).
Qed.

(** A hit in the simulator is a hit in the reference, and moves the tag
    to the front. *)
Lemma abs_set_hit nE (ls : cache_set_t) k ln t c l :
  wf_set nE ls ->
  ls !! k = Some ln ->
  holds t ln ->
  INT_MIN <= c <= INT_MAX ->
  (forall ln', ln' ∈ ls -> count ln' < c) ->
  abs_set ls l ->
  lru_classify (Z.to_nat nE) t l = LruHit /\
  abs_set (<[k := {| valid := valid ln; tag := tag ln; count := c |}]> ls)
          (lru_touch (Z.to_nat nE) t l).
Proof.
  intros Hwf Hk Hh Hc Hmax Habs.
  destruct (abs_set_elem nE ls l Hwf Habs) as (Hnd & Hel & _).
  pose proof (wf_set_distinct _ _ Hwf) as Hd.
  assert (Hin : t ∈ l) by (apply Hel; exists k, ln; auto).
  assert (Hcl : lru_classify (Z.to_nat nE) t l = LruHit)
    by (unfold lru_classify; rewrite bool_decide_eq_true_2 by exact Hin;
        reflexivity).
  split; [exact Hcl |]. unfold lru_touch. rewrite Hcl.
  pose proof (wf_set_touch nE ls k ln c Hwf Hk Hc) as Hwf'.
  destruct Hh as [Ht Hv]. rewrite Ht, Hv in Hwf' |- *.
  apply (abs_set_install nE ls k ln t c); try assumption.
  - apply list.NoDup_filter, Hnd.
  - intros x. rewrite list_elem_of_filter, Hel. split.
    + intros (Hne & j & ln' & Hj & Hx). exists j, ln'.
      split; [| split; assumption]. intros ->.
      rewrite Hk in Hj. injection Hj as <-. destruct Hx as [Hx _]. congruence.
    + intros (j & ln' & Hjk & Hj & Hx). split; [| exists j, ln'; auto].
      intros ->. apply Hjk. destruct Hx as [Hx Hvx].
      eapply (Hd j k); [exact Hj | exact Hk | exact Hvx | exact Hv | congruence].
  - apply decreasing_filter, Habs.
Qed.

(** A miss that finds a free line is a miss without eviction in the
    reference, and puts the tag in front. *)
Lemma abs_set_fill nE (ls : cache_set_t) k ln t c l :
  wf_set nE ls ->
  (forall j ln', ls !! j = Some ln' -> ~ holds t ln') ->
  ls !! k = Some ln ->
  valid ln = "0"%char ->
  INT_MIN <= c <= INT_MAX ->
  (forall ln', ln' ∈ ls -> count ln' < c) ->
  abs_set ls l ->
  lru_classify (Z.to_nat nE) t l = LruMiss /\
  abs_set (<[k := {| valid := "1"; tag := t; count := c |}]> ls)
          (lru_touch (Z.to_nat nE) t l).
Proof.
  intros Hwf Hno Hk Hv Hc Hmax Habs.
  destruct (abs_set_elem nE ls l Hwf Habs) as (Hnd & Hel & Hlen).
  assert (Hnin : t ∉ l).
  { intros Hin. apply Hel in Hin as (j & ln' & Hj & Hh). eapply Hno; eassumption. }
  assert (Hfree : (length l < Z.to_nat nE)%nat).
  { rewrite Hlen. destruct Hwf as (<- & _). eapply vtags_length_free; eassumption. }
  assert (Hcl : lru_classify (Z.to_nat nE) t l = LruMiss).
  { unfold lru_classify. rewrite bool_decide_eq_false_2 by exact Hnin.
    rewrite bool_decide_eq_true_2 by exact Hfree. reflexivity. }
  split; [exact Hcl |]. unfold lru_touch. rewrite Hcl.
  apply (abs_set_install nE ls k ln t c); try assumption.
  - apply (wf_set_install nE ls k ln t c Hwf Hk); [| exact Hc].
    intros j ln' _ Hj. apply holdsb_false. eapply Hno, Hj.
  - intros x. rewrite Hel. split.
    + intros (j & ln' & Hj & Hx). exists j, ln'. split; [| split; assumption].
      intros ->. rewrite Hk in Hj. injection Hj as <-.
      destruct Hx as [_ Hx]. congruence.
    + intros (j & ln' & _ & Hj & Hx). exists j, ln'. auto.
  - apply Habs.
Qed.

(** A miss on a full set is a miss with eviction in the reference: the
    line the simulator replaces carries the last tag of the order, and
    the new tag comes in front. *)
Lemma abs_set_evict nE (ls : cache_set_t) k ln t c l :
  wf_set nE ls ->
  1 <= nE ->
  (forall j ln', ls !! j = Some ln' -> ~ holds t ln') ->
  (forall j ln', ls !! j = Some ln' -> valid ln' = "1"%char) ->
  ls !! k = Some ln ->
  count ln = set_min ls ->
  INT_MIN <= c <= INT_MAX ->
  (forall ln', ln' ∈ ls -> count ln' < c) ->
  abs_set ls l ->
  lru_classify (Z.to_nat nE) t l = LruMissEvict /\
  list.last l = Some (tag ln) /\
  abs_set (<[k := {| valid := "1"; tag := t; count := c |}]> ls)
          (lru_touch (Z.to_nat nE) t l).
Proof.
  intros Hwf HE Hno Hfull Hk Hmin Hc Hmax Habs.
  destruct (abs_set_elem nE ls l Hwf Habs) as (Hnd & Hel & Hlen).
  pose proof (wf_set_distinct _ _ Hwf) as Hd.
  assert (Hnin : t ∉ l).
  { intros Hin. apply Hel in Hin as (j & ln' & Hj & Hh). eapply Hno; eassumption. }
  assert (Hl : length l = Z.to_nat nE).
  { rewrite Hlen, (vtags_length_full ls Hfull). apply Hwf. }
  assert (Hcl : lru_classify (Z.to_nat nE) t l = LruMissEvict).
  { unfold lru_classify. rewrite bool_decide_eq_false_2 by exact Hnin.
    rewrite bool_decide_eq_false_2 by lia. reflexivity. }
  split; [exact Hcl |]. unfold lru_touch. rewrite Hcl.
  destruct (exists_last (l := l)) as (l0 & z & ->).
  { intros ->. cbn in Hl. lia. }
  destruct Habs as [_ Hdec]. apply decreasing_snoc in Hdec as [Hdec Hlast].
  apply list.NoDup_app in Hnd as (Hnd0 & Hsep & _).
  assert (Hz : z = tag ln).
  { assert (Hzin : held ls z)
      by (apply Hel, elem_of_app; right; apply elem_of_cons; by left).
    destruct Hzin as (j & lz & Hj & Hhz).
    assert (Hkin : tag ln ∈ l0 ++ [z]).
    { apply Hel. exists k, ln. split; [exact Hk |].
      split; [reflexivity | eapply Hfull, Hk]. }
    apply elem_of_app in Hkin as [Hkin | Hkin].
    - exfalso. apply Hlast in Hkin.
      rewrite (tag_count_holder ls j lz z Hd Hj Hhz) in Hkin.
      rewrite (tag_count_holder ls k ln (tag ln) Hd Hk) in Hkin
        by (split; [reflexivity | eapply Hfull, Hk]).
      pose proof (set_min_le ls lz (list_elem_of_lookup_2 _ _ _ Hj)). lia.
    - apply elem_of_cons in Hkin as [Hkin | Hkin]; [congruence | inversion Hkin]. }
  subst z. rewrite last_snoc, removelast_last. split; [reflexivity |].
  apply (abs_set_install nE ls k ln t c); try assumption.
  - apply (wf_set_install nE ls k ln t c Hwf Hk); [| exact Hc].
    intros j ln' _ Hj. apply holdsb_false. eapply Hno, Hj.
  - intros x. split.
    + intros Hx.
      assert (Hx' : held ls x) by (apply Hel, elem_of_app; by left).
      destruct Hx' as (j & ln' & Hj & Hh). exists j, ln'.
      split; [| split; assumption]. intros ->.
      rewrite Hk in Hj. injection Hj as <-. destruct Hh as [Hh _].
      apply (Hsep x Hx). rewrite <- Hh. apply elem_of_cons. by left.
    + intros (j & ln' & Hjk & Hj & Hh).
      assert (Hx : x ∈ l0 ++ [tag ln]) by (apply Hel; exists j, ln'; auto).
      apply elem_of_app in Hx as [Hx | Hx]; [exact Hx |].
      apply elem_of_cons in Hx as [-> | Hx]; [| inversion Hx].
      exfalso. apply Hjk. destruct Hh as [Hh Hvx].
      eapply (Hd j k); [exact Hj | exact Hk | exact Hvx | eapply Hfull, Hk | exact Hh].
Qed.

(** One call of [accessData] is one access of the reference, while the
    counts stay within [int]. *)
Lemma lru_step n st a A st' :
  valid_geometry (s st) (E st) (b st) ->
  wf_state st -> bounded n st -> n < INT_MAX ->
  lru_abs st a ->
  outcome st A st' ->
  lru_abs st' (lru_access (s st) (E st) (b st) A a).
Proof.
  intros Hg Hwf Hbd Hn (Hh & Hm & He & Hsets) Hout.
  pose proof Hwf as (_ & _ & Hwfs & _).
  pose proof Hbd as (Hh0 & Hm0 & Hsum & He0 & Hbds).
  assert (Hw : forall z, 0 <= z <= n -> wrap_int (z + 1) = z + 1)
    by (intros z Hz; apply wrap_int_id; unfold INT_MIN, INT_MAX in *; lia).
  assert (Hnew : forall (ls : cache_set_t) i, cache st !! i = Some ls -> ls <> [] ->
            wrap_int (set_max ls + 1) = set_max ls + 1 /\
            INT_MIN <= set_max ls + 1 <= INT_MAX /\
            forall ln', ln' ∈ ls -> count ln' < set_max ls + 1).
  { intros ls i Hi Hne.
    pose proof (set_bounded_max n ls (Hbds _ _ Hi) Hne) as Hmax.
    split; [apply Hw, Hmax |].
    split; [unfold INT_MIN, INT_MAX in *; lia |].
    intros ln' Hin. pose proof (set_max_ge ls ln' Hin). lia. }
  unfold lru_access, lru_abs.
  pose proof (decode_valid (s st) (E st) (b st) A Hg) as Hdv.
  destruct Hout as [t sn ls k ln Hdec Hset Hk Hholds ->
                   | t sn ls k ln Hdec Hset Hno Hk Hv Hfirst ->
                   | t sn ls k ln Hdec Hset Hno Hfull Hk Hc Hfirst ->];
    rewrite Hdv in Hdec; injection Hdec as <- <-;
    set (t := A / (2 ^ b st * 2 ^ s st)) in *;
    set (i := Z.to_nat ((A / 2 ^ b st) mod 2 ^ s st)) in *;
    destruct (Forall2_lookup_l _ _ _ _ _ Hsets Hset) as (l & Hl & Habs);
    rewrite Hl; cbn [default from_option id];
    assert (Hne : ls <> []) by (intros ->; discriminate);
    destruct (Hnew ls i Hset Hne) as (Hwc & Hc' & Hlt);
    pose proof (Hwfs _ _ Hset) as Hls.
  - destruct (abs_set_hit (E st) ls k ln t (set_max ls + 1) l
                Hls Hk Hholds Hc' Hlt Habs) as [Hcl Habs'].
    rewrite Hcl. cbn [st_hit hit_cnt miss_cnt evict_cnt cache
      lru_hits lru_misses lru_evictions lru_sets].
    rewrite Hwc, Hw by lia.
    split; [lia | split; [lia | split; [lia |]]].
    apply Forall2_insert; assumption.
  - destruct (abs_set_fill (E st) ls k ln t (set_max ls + 1) l
                Hls Hno Hk Hv Hc' Hlt Habs) as [Hcl Habs'].
    rewrite Hcl. cbn [st_fill hit_cnt miss_cnt evict_cnt cache
      lru_hits lru_misses lru_evictions lru_sets].
    rewrite Hwc, Hw by lia.
    split; [lia | split; [lia | split; [lia |]]].
    apply Forall2_insert; assumption.
  - destruct Hg as (_ & _ & _ & HE).
    destruct (abs_set_evict (E st) ls k ln t (set_max ls + 1) l
                Hls HE Hno Hfull Hk Hc Hc' Hlt Habs) as (Hcl & _ & Habs').
    rewrite Hcl. cbn [st_evict hit_cnt miss_cnt evict_cnt cache
      lru_hits lru_misses lru_evictions lru_sets].
    rewrite (Hfull k ln Hk), Hwc, !Hw by lia.
    split; [lia | split; [lia | split; [lia |]]].
    apply Forall2_insert; assumption.
Qed.

Lemma vtags_replicate n : vtags (replicate n empty_line) = [].
Proof. induction n as [|n IH]; [reflexivity | exact IH]. Qed.

Lemma lru_abs_init s0 E0 b0 st :
  valid_geometry s0 E0 b0 -> initCache s0 E0 b0 = Some st ->
  lru_abs st (lru_init s0).
Proof.
  intros (Hs & Hb & Hsb & HE) Hinit.
  unfold initCache in Hinit. rewrite shl_int_pow2 in Hinit by lia.
  cbn [mbind option_bind] in Hinit. injection Hinit as <-.
  unfold lru_abs, lru_init. cbn [hit_cnt miss_cnt evict_cnt cache lru_hits
    lru_misses lru_evictions lru_sets].
  repeat (split; [reflexivity |]).
  apply Forall2_replicate. split; [| exact I].
  rewrite vtags_replicate. reflexivity.
Qed.

Lemma lru_run_sim l : forall n st a,
  reach n st ->
  valid_geometry (s st) (E st) (b st) ->
  n + Z.of_nat (length l) <= INT_MAX ->
  Forall (fun A => 0 <= A < 2 ^ 64) l ->
  lru_abs st a ->
  exists st', access_all l st = Some st' /\
    reach (n + Z.of_nat (length l)) st' /\
    lru_abs st' (lru_run (s st) (E st) (b st) l a).
Proof.
  induction l as [|A l IH]; intros n st a Hreach Hg Hn Hok Habs.
  - exists st. cbn. rewrite Z.add_0_r. auto.
  - cbn [length] in Hn. apply list.Forall_cons in Hok as [HA Hok].
    pose proof (reach_wf n st Hreach (valid_runs _ _ _ Hg)) as Hwf.
    destruct (accessData_outcome st A Hwf) as (st1 & Hacc & Hout).
    pose proof (reach_bounded n st Hreach ltac:(lia)) as Hbd.
    pose proof (lru_step n st a A st1 Hg Hwf Hbd ltac:(lia) Habs Hout) as Habs1.
    pose proof (reach_step _ _ _ _ Hreach HA Hacc) as Hreach1.
    destruct (outcome_geometry st A st1 Hout) as (Hs & HE & Hb).
    assert (Hg1 : valid_geometry (s st1) (E st1) (b st1))
      by (rewrite Hs, HE, Hb; exact Hg).
    destruct (IH (n + 1) st1 _ Hreach1 Hg1 ltac:(lia) Hok Habs1)
      as (st' & Hall & Hreach' & Habs').
    rewrite Hs, HE, Hb in Habs'.
    assert (Heq : n + Z.of_nat (length (A :: l)) = n + 1 + Z.of_nat (length l))
      by (cbn [length]; lia).
    exists st'. split; [cbn [access_all]; rewrite Hacc; exact Hall |].
    split; [rewrite Heq; exact Hreach' | exact Habs'].
Qed.

Lemma replay_lru_abs s0 E0 b0 st0 tr :
  valid_geometry s0 E0 b0 ->
  initCache s0 E0 b0 = Some st0 ->
  Forall addr_ok tr ->
  accesses tr <= INT_MAX ->
  exists st, replayTrace tr st0 = Some st /\
    lru_abs st (lru_replay s0 E0 b0 tr).
Proof.
  intros Hg Hinit Hok Hn.
  rewrite <- addrs_of_length in Hn.
  pose proof (reach_fresh _ _ _ _ (valid_runs _ _ _ Hg) Hinit) as Hr0.
  destruct (initCache_geometry _ _ _ _ Hinit) as (Hs & HE & Hb).
  assert (Hg0 : valid_geometry (s st0) (E st0) (b st0))
    by (rewrite Hs, HE, Hb; exact Hg).
  destruct (lru_run_sim (addrs_of tr) 0 st0 (lru_init s0) Hr0 Hg0 ltac:(lia)
              (addrs_of_ok _ Hok) (lru_abs_init _ _ _ _ Hg Hinit))
    as (st & Hall & _ & Habs).
  rewrite Hs, HE, Hb in Habs.
  exists st. rewrite replay_access_all. split; [exact Hall | exact Habs].
Qed.

(** X13: the simulator refines the reference LRU cache.  For
    [s >= 1], [b >= 1], [s + b <= 30], [E >= 1] and a trace of 64-bit
    addresses that makes at most [INT_MAX] calls of [accessData] on
    the fresh cache, [replayTrace] returns, its three counters are
    those of the reference LRU cache of the same geometry on the same
    trace, and the valid tags of every set, read in decreasing order
    of their counts, are the set of the reference, most recently used
    first. *)
Theorem X13_refines_lru s0 E0 b0 st0 tr :
  valid_geometry s0 E0 b0 ->
  initCache s0 E0 b0 = Some st0 ->
  Forall addr_ok tr ->
  accesses tr <= INT_MAX ->
  exists st, replayTrace tr st0 = Some st /\
    hit_cnt st = lru_hits (lru_replay s0 E0 b0 tr) /\
    miss_cnt st = lru_misses (lru_replay s0 E0 b0 tr) /\
    evict_cnt st = lru_evictions (lru_replay s0 E0 b0 tr) /\
    Forall2 abs_set (cache st) (lru_sets (lru_replay s0 E0 b0 tr)).
Proof.
  intros Hg Hinit Hok Hn.
  destruct (replay_lru_abs s0 E0 b0 st0 tr Hg Hinit Hok Hn)
    as (st & Hrep & Hh & Hm & He & Hsets).
  exists st. auto.
Qed.

Lemma X13_refines_lru_witness :
  valid_geometry 1 1 1 /\
  exists st,
    replayTrace [(Load, 0); (Load, 4); (Modify, 2)]
      (two_sets 1 0 0 0 [empty_line] [empty_line]) = Some st /\
    hit_cnt st = lru_hits (lru_replay 1 1 1 [(Load, 0); (Load, 4); (Modify, 2)]) /\
    miss_cnt st = lru_misses (lru_replay 1 1 1 [(Load, 0); (Load, 4); (Modify, 2)]) /\
    evict_cnt st =
      lru_evictions (lru_replay 1 1 1 [(Load, 0); (Load, 4); (Modify, 2)]) /\
    Forall2 abs_set (cache st)
      (lru_sets (lru_replay 1 1 1 [(Load, 0); (Load, 4); (Modify, 2)])).
Proof.
  assert (Hg : valid_geometry 1 1 1) by (unfold valid_geometry; lia).
  split; [exact Hg |].
  apply (X13_refines_lru 1 1 1 (two_sets 1 0 0 0 [empty_line] [empty_line])
           [(Load, 0); (Load, 4); (Modify, 2)] Hg).
  - reflexivity.
  - repeat constructor; unfold addr_ok; cbn; lia.
  - vm_compute; congruence.
Defined.

(** ** Accesses to different sets *)

(** What a call does is decided by the set its address decodes to: on
    any state of the same geometry with the same lines in that set it
    writes the same lines and moves the same counters. *)
Lemma access_local st A :
  wf_state st ->
  exists t setNum (ls ls' : cache_set_t) (h m e : bool),
    decode (s st) (b st) A = Some (t, setNum) /\
    0 <= setNum /\
    cache st !! Z.to_nat setNum = Some ls /\
    forall st2,
      s st2 = s st -> E st2 = E st -> b st2 = b st ->
      cache st2 !! Z.to_nat setNum = Some ls ->
      accessData A st2 =
        Some {| s := s st2; E := E st2; b := b st2;
                hit_cnt := bump h (hit_cnt st2);
                miss_cnt := bump m (miss_cnt st2);
                evict_cnt := bump e (evict_cnt st2);
                cache := <[Z.to_nat setNum := ls']> (cache st2) |}.
Proof.
  intros Hwf. pose proof Hwf as (_ & _ & Hsets & _).
  destruct (accessData_outcome st A Hwf) as (st' & _ & Hout).
  destruct Hout as [t sn ls k ln Hdec Hset Hk Hholds _
                   | t sn ls k ln Hdec Hset Hno Hk Hv Hfirst _
                   | t sn ls k ln Hdec Hset Hno Hfull Hk Hc Hfirst _];
    pose proof (Hsets _ _ Hset) as Hls;
    pose proof (decode_set_nonneg st A t sn Hwf Hdec) as Hsn;
    pose proof Hls as (Hlen & _ & Htags & _).
  - exists t, sn, ls. eexists. exists true, false, false.
    split; [exact Hdec |]. split; [exact Hsn |]. split; [exact Hset |].
    intros st2 Hs HE Hb Hset2.
    rewrite (accessData_hit st2 A t sn ls k ln); try assumption.
    + reflexivity.
    + rewrite Hs, Hb. exact Hdec.
    + rewrite HE. exact Hlen.
    + apply holdsb_true, Hholds.
    + intros j ln' Hjk Hj. apply holdsb_false. intros [Ht Hv'].
      destruct Hholds as [Ht0 Hv0]. apply Hjk.
      eapply (Htags j k ln' ln); congruence.
  - exists t, sn, ls. eexists. exists false, true, false.
    split; [exact Hdec |]. split; [exact Hsn |]. split; [exact Hset |].
    intros st2 Hs HE Hb Hset2.
    rewrite (accessData_fill st2 A t sn ls k ln); try assumption.
    + reflexivity.
    + rewrite Hs, Hb. exact Hdec.
    + rewrite HE. exact Hlen.
    + intros j ln' Hj. apply holdsb_false. eapply Hno, Hj.
    + rewrite Hv. reflexivity.
    + intros j ln' Hlt Hj. rewrite (Hfirst j ln' Hlt Hj). reflexivity.
  - exists t, sn, ls. eexists. exists false, true, true.
    split; [exact Hdec |]. split; [exact Hsn |]. split; [exact Hset |].
    intros st2 Hs HE Hb Hset2.
    rewrite (accessData_evict st2 A t sn ls k ln); try assumption.
    + reflexivity.
    + rewrite Hs, Hb. exact Hdec.
    + rewrite HE. exact Hlen.
    + intros j ln' Hj. apply holdsb_false. eapply Hno, Hj.
    + intros j ln' Hj. rewrite (Hfull j ln' Hj). reflexivity.
    + intros j ln' Hlt Hj. pose proof (Hfirst j ln' Hlt Hj). lia.
Qed.

Lemma bump_comm c1 c2 z : bump c1 (bump c2 z) = bump c2 (bump c1 z).
Proof. destruct c1, c2; reflexivity. Qed.

(** X14: accesses to different sets commute.  In every reachable
    state of a cache with [s >= 1], [b >= 1] and [s + b <= 31], two
    addresses that decode to different sets can be accessed in either
    order: both orders return, and return the same state (the same
    lines, counts and counters). *)
Theorem X14_different_sets_commute st A A' t setNum t' setNum' :
  reachable st ->
  runs_geometry (s st) (E st) (b st) ->
  decode (s st) (b st) A = Some (t, setNum) ->
  decode (s st) (b st) A' = Some (t', setNum') ->
  setNum <> setNum' ->
  exists st', access_all [A; A'] st = Some st' /\
              access_all [A'; A] st = Some st'.
Proof.
  intros [n Hreach] Hg Hdec Hdec' Hne.
  pose proof (reach_wf n st Hreach Hg) as Hwf.
  destruct (access_local st A Hwf)
    as (t1 & i1 & ls1 & ls1' & h1 & m1 & e1 & Hd1 & Hi1 & Hset1 & Hloc1).
  destruct (access_local st A' Hwf)
    as (t2 & i2 & ls2 & ls2' & h2 & m2 & e2 & Hd2 & Hi2 & Hset2 & Hloc2).
  rewrite Hdec in Hd1. injection Hd1 as <- <-.
  rewrite Hdec' in Hd2. injection Hd2 as <- <-.
  assert (Hn : Z.to_nat setNum <> Z.to_nat setNum') by lia.
  eexists. cbn [access_all]. split.
  - rewrite (Hloc1 st eq_refl eq_refl eq_refl Hset1). cbn [mbind option_bind].
    rewrite Hloc2; cbn [s E b cache hit_cnt miss_cnt evict_cnt]; try reflexivity.
    rewrite list_lookup_insert_ne by exact Hn. exact Hset2.
  - rewrite (Hloc2 st eq_refl eq_refl eq_refl Hset2). cbn [mbind option_bind].
    rewrite Hloc1; cbn [s E b cache hit_cnt miss_cnt evict_cnt].
    + cbn [mbind option_bind]. f_equal.
      rewrite (bump_comm h1 h2), (bump_comm m1 m2), (bump_comm e1 e2).
      rewrite list_insert_insert_ne by exact Hn. reflexivity.
    + reflexivity.
    + reflexivity.
    + reflexivity.
    + rewrite list_lookup_insert_ne by congruence. exact Hset1.
Qed.

Lemma X14_different_sets_commute_witness :
  reachable st_evicted /\
  runs_geometry (s st_evicted) (E st_evicted) (b st_evicted) /\
  exists st',
    access_all [12; 2] st_evicted = Some st' /\
    access_all [2; 12] st_evicted = Some st'.
Proof.
  assert (Hr : reachable st_evicted) by (exists 3; apply st_evicted_reach).
  assert (Hg : runs_geometry (s st_evicted) (E st_evicted) (b st_evicted))
    by (cbn; unfold runs_geometry; lia).
  split; [exact Hr |]. split; [exact Hg |].
  apply (X14_different_sets_commute _ 12 2 3 0 0 1 Hr Hg).
  - reflexivity.
  - reflexivity.
  - lia.
Defined.

(** ** More lines per set *)

Lemma lru_classify_hit nE t l : t ∈ l -> lru_classify nE t l = LruHit.
Proof.
  intros Hin. unfold lru_classify.
  rewrite bool_decide_eq_true_2 by exact Hin. reflexivity.
Qed.

Lemma lru_classify_miss nE t l :
  t ∉ l -> (length l < nE)%nat -> lru_classify nE t l = LruMiss.
Proof.
  intros Hnin Hlen. unfold lru_classify.
  rewrite bool_decide_eq_false_2 by exact Hnin.
  rewrite bool_decide_eq_true_2 by exact Hlen. reflexivity.
Qed.

Lemma lru_classify_evict nE t l :
  t ∉ l -> (nE <= length l)%nat -> lru_classify nE t l = LruMissEvict.
Proof.
  intros Hnin Hlen. unfold lru_classify.
  rewrite bool_decide_eq_false_2 by exact Hnin.
  rewrite bool_decide_eq_false_2 by lia. reflexivity.
Qed.

Lemma filter_notin (t : Z) (l : list Z) : t ∉ l -> filter (fun x => x <> t) l = l.
Proof.
  induction l as [|a l IH]; [reflexivity |]. intros Hnin.
  apply not_elem_of_cons in Hnin as [Hne Hnin].
  rewrite filter_cons_True by congruence. rewrite IH by exact Hnin.
  reflexivity.
Qed.

Lemma take_filter_in (t : Z) (l : list Z) m :
  NoDup l -> t ∈ take (S m) l ->
  take m (filter (fun x => x <> t) l) = filter (fun x => x <> t) (take (S m) l).
Proof.
  revert m. induction l as [|a l IH]; intros m Hnd Hin.
  - cbn in Hin. inversion Hin.
  - apply list.NoDup_cons in Hnd as [Ha Hnd]. rewrite firstn_cons in Hin |- *.
    destruct (decide (a = t)) as [-> | Hat].
    + rewrite !filter_cons_False by (intros H; by apply H).
      rewrite !filter_notin; [reflexivity | | exact Ha].
      intros H. apply Ha. eapply subseteq_take, H.
    + apply elem_of_cons in Hin as [Hin | Hin]; [congruence |].
      destruct m as [|m]; [cbn in Hin; inversion Hin |].
      rewrite !filter_cons_True by exact Hat. rewrite firstn_cons.
      f_equal. apply IH; assumption.
Qed.

Lemma take_filter_notin (t : Z) (l : list Z) k :
  t ∉ take k l -> take k (filter (fun x => x <> t) l) = take k l.
Proof.
  revert k. induction l as [|a l IH]; intros [|k] Hnin; try reflexivity.
  rewrite firstn_cons in Hnin |- *.
  apply not_elem_of_cons in Hnin as [Hne Hnin].
  rewrite filter_cons_True by congruence. rewrite firstn_cons.
  f_equal. apply IH, Hnin.
Qed.

(** The reference set keeps its tags distinct and within its capacity. *)
Lemma lru_touch_NoDup nE t l : NoDup l -> NoDup (lru_touch nE t l).
Proof.
  intros Hnd. unfold lru_touch, lru_classify.
  destruct (bool_decide (t ∈ l)) eqn:Hin;
    [| destruct (bool_decide (length l < nE)%nat)].
  - apply NoDup_cons_2; [| apply list.NoDup_filter, Hnd].
    intros H. apply list_elem_of_filter in H as [H _]. by apply H.
  - apply bool_decide_eq_false in Hin. apply NoDup_cons_2; assumption.
  - apply bool_decide_eq_false in Hin.
    destruct l as [|a l] using rev_ind; [apply NoDup_cons_2; assumption |].
    rewrite removelast_last. apply list.NoDup_app in Hnd as (Hnd & _ & _).
    apply NoDup_cons_2; [| exact Hnd].
    intros H. apply Hin, elem_of_app. by left.
Qed.

Lemma lru_touch_length nE t l :
  (1 <= nE)%nat -> (length l <= nE)%nat ->
  (length (lru_touch nE t l) <= nE)%nat.
Proof.
  intros HE Hlen. unfold lru_touch, lru_classify.
  destruct (bool_decide (t ∈ l)) eqn:Hin;
    [| destruct (bool_decide (length l < nE)%nat) eqn:Hfree].
  - apply bool_decide_eq_true in Hin. cbn [length].
    pose proof (length_filter_lt (fun x => x <> t) l t Hin
                  ltac:(intros H; by apply H)). lia.
  - apply bool_decide_eq_true in Hfree. cbn [length]. lia.
  - cbn [length]. rewrite removelast_firstn_len, length_take. lia.
Qed.

(** The stack property of LRU, for one set: after the same access the
    smaller set is again the front of the larger one; a hit in the
    smaller set is a hit in the larger one, and an eviction in the
    larger set is an eviction in the smaller one. *)
Lemma lru_touch_stack (nE nE' : nat) t l' :
  (1 <= nE <= nE')%nat -> NoDup l' -> (length l' <= nE')%nat ->
  take nE (lru_touch nE' t l') = lru_touch nE t (take nE l') /\
  (lru_classify nE t (take nE l') = LruHit ->
   lru_classify nE' t l' = LruHit) /\
  (lru_classify nE' t l' = LruMissEvict ->
   lru_classify nE t (take nE l') = LruMissEvict).
Proof.
  intros HE Hnd Hlen. destruct nE as [|m]; [lia |].
  pose proof (length_take l' (S m)) as Hlt.
  unfold lru_touch.
  destruct (decide (t ∈ take (S m) l')) as [Hin | Hnin].
  - assert (Hin' : t ∈ l') by (eapply subseteq_take, Hin).
    rewrite (lru_classify_hit (S m) t _ Hin), (lru_classify_hit nE' t _ Hin').
    split; [| split; [reflexivity | discriminate]].
    rewrite firstn_cons. f_equal. apply take_filter_in; assumption.
  - destruct (decide (t ∈ l')) as [Hin' | Hnin'].
    + assert (Hlong : (S m < length l')%nat).
      { destruct (decide (S m < length l')%nat) as [H | H]; [exact H |].
        exfalso. apply Hnin. rewrite take_ge by lia. exact Hin'. }
      rewrite (lru_classify_hit nE' t _ Hin').
      rewrite (lru_classify_evict (S m) t _ Hnin) by lia.
      split; [| split; discriminate].
      rewrite firstn_cons. f_equal. rewrite removelast_firstn by lia.
      apply take_filter_notin. intros H. apply Hnin.
      replace (take m l') with (take m (take (S m) l')) in H
        by (rewrite take_take; f_equal; lia).
      eapply subseteq_take, H.
    + destruct (decide (length l' < S m)%nat) as [Hshort | Hfull].
      * rewrite (lru_classify_miss (S m) t _ Hnin) by lia.
        rewrite (lru_classify_miss nE' t _ Hnin') by lia.
        split; [| split; discriminate].
        rewrite firstn_cons. f_equal. rewrite !take_ge by lia. reflexivity.
      * rewrite (lru_classify_evict (S m) t _ Hnin) by lia.
        split; [| split; [discriminate | reflexivity]].
        rewrite (removelast_firstn l') by lia.
        destruct (decide (length l' < nE')%nat) as [Hfree | Hfull'].
        -- rewrite (lru_classify_miss nE' t _ Hnin' Hfree).
           rewrite firstn_cons. reflexivity.
        -- rewrite (lru_classify_evict nE' t _ Hnin') by lia.
           rewrite firstn_cons. f_equal.
           rewrite removelast_firstn_len, take_take. f_equal. lia.
Qed.

Lemma lru_access_incl s0 b0 E0 E0' A a a' :
  1 <= E0 <= E0' ->
  lru_incl (Z.to_nat E0) (Z.to_nat E0') a a' ->
  lru_incl (Z.to_nat E0) (Z.to_nat E0')
    (lru_access s0 E0 b0 A a) (lru_access s0 E0' b0 A a').
Proof.
  intros HE (Hsets & Hh & Hm & He). unfold lru_access.
  set (t := A / (2 ^ b0 * 2 ^ s0)).
  set (i := Z.to_nat ((A / 2 ^ b0) mod 2 ^ s0)).
  assert (Hfront : front_of (Z.to_nat E0) (Z.to_nat E0')
            (default [] (lru_sets a !! i)) (default [] (lru_sets a' !! i))).
  { destruct (lru_sets a' !! i) as [l'|] eqn:Hi'.
    - destruct (Forall2_lookup_r _ _ _ _ _ Hsets Hi') as (l & Hi & Hf).
      rewrite Hi. exact Hf.
    - apply lookup_ge_None in Hi'. rewrite <- (Forall2_length Hsets) in Hi'.
      apply lookup_ge_None in Hi'. rewrite Hi'. cbn.
      split; [symmetry; apply take_nil |]. split; [apply NoDup_nil_2 | cbn; lia]. }
  destruct Hfront as (Hl & Hnd & Hlen).
  set (l' := default [] (lru_sets a' !! i)) in *.
  destruct (lru_touch_stack (Z.to_nat E0) (Z.to_nat E0') t l'
              ltac:(lia) Hnd Hlen) as (Htake & Hhit & Hev).
  rewrite Hl. unfold lru_incl.
  cbn [lru_sets lru_hits lru_misses lru_evictions]. split.
  - apply Forall2_insert; [exact Hsets |]. split; [symmetry; exact Htake |].
    split; [apply lru_touch_NoDup, Hnd | apply lru_touch_length; [lia | exact Hlen]].
  - destruct (lru_classify (Z.to_nat E0) t (take (Z.to_nat E0) l')) eqn:Hc;
      destruct (lru_classify (Z.to_nat E0') t l') eqn:Hc';
      try (specialize (Hhit eq_refl); discriminate);
      try (specialize (Hev eq_refl); discriminate);
      repeat split; lia.
Qed.

Lemma lru_run_incl s0 b0 E0 E0' l : forall a a',
  1 <= E0 <= E0' ->
  lru_incl (Z.to_nat E0) (Z.to_nat E0') a a' ->
  lru_incl (Z.to_nat E0) (Z.to_nat E0')
    (lru_run s0 E0 b0 l a) (lru_run s0 E0' b0 l a').
Proof.
  induction l as [|A l IH]; intros a a' HE Hincl; [exact Hincl |].
  cbn [lru_run]. apply IH; [exact HE |]. apply lru_access_incl; assumption.
Qed.

Lemma lru_init_incl nE nE' s0 : lru_incl nE nE' (lru_init s0) (lru_init s0).
Proof.
  unfold lru_incl, lru_init. cbn [lru_sets lru_hits lru_misses lru_evictions].
  split; [| lia]. apply Forall2_replicate.
  split; [symmetry; apply take_nil |]. split; [apply NoDup_nil_2 | cbn; lia].
Qed.

(** X15: more lines per set never cost hits.  For [s >= 1],
    [b >= 1], [s + b <= 30], [1 <= E <= E'] and the same trace of
    64-bit addresses (at most [INT_MAX] accesses), the simulator with
    [E'] lines per set counts at least as many hits and at most as
    many misses and evictions as with [E] lines. *)
Theorem X15_more_lines_no_fewer_hits s0 E0 E0' b0 st0 st0' tr :
  valid_geometry s0 E0 b0 ->
  E0 <= E0' ->
  initCache s0 E0 b0 = Some st0 ->
  initCache s0 E0' b0 = Some st0' ->
  Forall addr_ok tr ->
  accesses tr <= INT_MAX ->
  exists st st',
    replayTrace tr st0 = Some st /\
    replayTrace tr st0' = Some st' /\
    hit_cnt st <= hit_cnt st' /\
    miss_cnt st' <= miss_cnt st /\
    evict_cnt st' <= evict_cnt st.
Proof.
  intros Hg HE Hinit Hinit' Hok Hn.
  assert (Hg' : valid_geometry s0 E0' b0)
    by (unfold valid_geometry in *; lia).
  destruct (replay_lru_abs s0 E0 b0 st0 tr Hg Hinit Hok Hn)
    as (st & Hrep & Hh & Hm & He & _).
  destruct (replay_lru_abs s0 E0' b0 st0' tr Hg' Hinit' Hok Hn)
    as (st' & Hrep' & Hh' & Hm' & He' & _).
  exists st, st'. split; [exact Hrep |]. split; [exact Hrep' |].
  rewrite <- Hh, <- Hm, <- He, <- Hh', <- Hm', <- He'.
  assert (HE' : 1 <= E0 <= E0') by (unfold valid_geometry in Hg; lia).
  destruct (lru_run_incl s0 b0 E0 E0' (addrs_of tr) _ _ HE'
              (lru_init_incl _ _ s0)) as (_ & Hle).
  exact Hle.
Qed.

Lemma X15_more_lines_no_fewer_hits_witness :
  valid_geometry 1 1 1 /\
  exists st st',
    replayTrace [(Load, 0); (Load, 4); (Load, 0)]
      (two_sets 1 0 0 0 [empty_line] [empty_line]) = Some st /\
    replayTrace [(Load, 0); (Load, 4); (Load, 0)]
      (two_sets 2 0 0 0 [empty_line; empty_line] [empty_line; empty_line])
      = Some st' /\
    hit_cnt st <= hit_cnt st' /\
    miss_cnt st' <= miss_cnt st /\
    evict_cnt st' <= evict_cnt st.
Proof.
  assert (Hg : valid_geometry 1 1 1) by (unfold valid_geometry; lia).
  split; [exact Hg |].
  apply (X15_more_lines_no_fewer_hits 1 1 2 1 _ _ _ Hg).
  - lia.
  - reflexivity.
  - reflexivity.
  - repeat constructor; unfold addr_ok; cbn; lia.
  - vm_compute; congruence.
Defined.

(** ** The exit status of main before the simulation *)

Lemma main_switch_exit c g status :
  main_switch c g = Exited status -> status = 0.
Proof. destruct c; cbn; congruence. Qed.

Lemma main_getopt_exit cs g status :
  main_getopt cs g = Exited status -> status = 0.
Proof.
  revert g. induction cs as [|c cs IH]; intros g; cbn [main_getopt].
  - discriminate.
  - destruct (main_switch c g) as [g'|st] eqn:Hc; cbn [flow_bind].
    + apply IH.
    + intros [= <-]. eapply main_switch_exit, Hc.
Qed.

Lemma main_required_exit g status :
  main_required g = Exited status -> status = 0.
Proof.
  unfold main_required.
  destruct (_ || _); cbn; congruence.
Qed.

Lemma main_required_go g g' :
  main_required g = Go g' ->
  g' = g /\ opt_s g <> 0 /\ opt_E g <> 0 /\ opt_b g <> 0 /\
  opt_trace_file g <> None.
Proof.
  unfold main_required.
  destruct (Z.eqb_spec (opt_s g) 0); [discriminate |].
  destruct (Z.eqb_spec (opt_E g) 0); [discriminate |].
  destruct (Z.eqb_spec (opt_b g) 0); [discriminate |].
  destruct (opt_trace_file g); [| discriminate].
  cbn. intros [= <-]. auto.
Qed.

(** X16: before it builds the cache, [main] exits with status 0 only.
    Whatever [getopt] returns, [main] either ends before the call of
    [initCache] with exit status 0 (option [-h], an unknown option, or
    a required argument that is missing or 0: [printUsage] has called
    [exit(0)] before the [exit(1)] that follows it), or it reaches
    [initCache] with [s], [E], [b] different from 0 and a trace file
    name. *)
Theorem X16_usage_exit_status cs :
  main_start cs = Exited 0 \/
  exists g, main_start cs = Go g /\
    opt_s g <> 0 /\ opt_E g <> 0 /\ opt_b g <> 0 /\
    opt_trace_file g <> None.
Proof.
  destruct (main_start cs) as [g|status] eqn:Hmain.
  - right. exists g. split; [reflexivity |].
    unfold main_start in Hmain.
    destruct (main_getopt cs no_options) as [g0|st] eqn:Hloop;
      cbn [flow_bind] in Hmain; [| discriminate].
    apply main_required_go in Hmain as (-> & H). exact H.
  - left. f_equal.
    unfold main_start in Hmain.
    destruct (main_getopt cs no_options) as [g0|st] eqn:Hloop;
      cbn [flow_bind] in Hmain.
    + eapply main_required_exit, Hmain.
    + injection Hmain as <-. eapply main_getopt_exit, Hloop.
Qed.
